(** * Shared-memory ring buffer IPC benchmark: model and verification

    Embedding of [IPC_LINUX.c] (POSIX variant: [main], [consumer_process])
    and [IPC.c] (Win32 variant: [main], [run_child]).  Both files implement
    the same bounded-buffer protocol over a ring of [RING_CAP] records; the
    model follows the POSIX file statement by statement and notes where the
    Win32 file differs.

    Conventions
    - C integers are [Z].  Unsigned conversions are written out ([u8],
      [u32], [u64]).  Signed [int] arithmetic has no wrap-around in C: where
      the source can leave the [int] range the model returns [None]
      ([int_add]).
    - Arrays are lists read with [!!] and written with [<[ _ := _ ]>]; an
      access outside the array is undefined in C and is [None] / [Fault]
      here.
    - The two processes are sequential programs over program points; a
      run is an interleaving of their statements chosen by a schedule.
      A statement touches at most one shared location that the other
      process writes, so statements are the unit of interleaving.
    - [now_us()] is an input: each scheduling decision carries the clock
      reading the statement would obtain.
    - The semaphore calls are taken to succeed (their error branches end
      the process through [die]).  The [long long] statistics are
      computed exactly, which is what the code computes for clock
      readings that never go back and are small enough for the sums
      ([sums_fit]).  The loop counters' [i++] run only when [i < n],
      inside [int]; the reporting loop's [id++] does not ([audit_loop]). *)

From stdpp Require Import base list numbers strings pretty.

Open Scope Z_scope.

(* ================================================================== *)
(** ** Constants and integer conversions *)

Definition RING_CAP : Z := 1024.
Definition PAYLOAD_SZ : Z := 64.
Definition INT_MAX : Z := 2147483647.

Definition u8 (x : Z) : Z := x mod 2 ^ 8.
Definition u32 (x : Z) : Z := x mod 2 ^ 32.
Definition u64 (x : Z) : Z := x mod 2 ^ 64.

(** [(long long)x] for an [uint64_t] value [x]. *)
Definition to_i64 (x : Z) : Z := if x <? 2 ^ 63 then x else x - 2 ^ 64.

(** [a + b] on [int] operands; [None] is signed overflow. *)
Definition int_add (a b : Z) : option Z :=
  if a + b <=? INT_MAX then Some (a + b) else None.

(* ================================================================== *)
(** ** Records and the ring segment *)

Record TxMsg := mkTxMsg {
  tx_id : Z;          (* uint32_t *)
  type : Z;           (* uint32_t, 0..4 *)
  amount_pence : Z;   (* uint64_t *)
  t_send_us : Z;      (* uint64_t, producer timestamp *)
  payload : string    (* char[PAYLOAD_SZ] *)
}.

Record Ring := mkRing {
  head : Z;
  tail : Z;
  buf : list TxMsg
}.

(** A record of all-zero bytes, as left by [memset] / [ZeroMemory]. *)
Definition zero_msg : TxMsg := mkTxMsg 0 0 0 0 "".

(** [memset(ring, 0, sizeof(Ring))]. *)
Definition zero_ring : Ring :=
  mkRing 0 0 (replicate (Z.to_nat RING_CAP) zero_msg).

Definition types : list string :=
  ["Transfer"; "Inquiry"; "BillPay"; "Fraud"; "Logging"].

(** [snprintf(msg.payload, sizeof(msg.payload), "HL_TX_%u %s", ...)]:
    at most [PAYLOAD_SZ - 1] characters are kept. *)
Definition format_payload (id ty : Z) : string :=
  String.substring 0 (Z.to_nat (PAYLOAD_SZ - 1))
    ("HL_TX_" +:+ pretty (Z.to_N id) +:+ " " +:+ default "" (types !! Z.to_nat ty)).

(** The record built in iteration [i] of the producer loop, [now] being the
    value returned by the [now_us()] call inside the construction. *)
Definition make_msg (i now : Z) : TxMsg :=
  let id := u32 (i + 1) in
  let ty := u32 (i mod 5) in
  mkTxMsg id ty (u64 (u64 (1000 + i mod 500) * 100)) (u64 now) (format_payload id ty).

(* ================================================================== *)
(** ** Integrity auditor (consumer side) *)

(** [calloc((size_t)n + 1, 1)] for an [int] [n], with a 64-bit [size_t]:
    the number of bytes asked for.  It is [n + 1] for [n >= 0], 0 for
    [n = -1], and at least [2^64 - 2^31 + 1] for [n <= -2]. *)
Definition calloc_size (n : Z) : Z := u64 (u64 n + 1).

(** No allocation exceeds [PTRDIFF_MAX] bytes, so for [n <= -2] the call
    returns [NULL]: for an [int] [n] the size is at most [2^63 - 1] exactly
    when [-1 <= n] (lemma [calloc_fits_size]).  For [n = -1] the call asks
    for 0 bytes and may return either; that, like running out of memory, is
    left to the caller's environment. *)
Definition calloc_fits (n : Z) : bool := -1 <=? n.

(** The zeroed block a successful [calloc((size_t)n + 1, 1)] returns,
    one 8-bit counter per byte. *)
Definition calloc_seen (n : Z) : list Z := replicate (Z.to_nat (calloc_size n)) 0.

(** [seen[id] += 1] on [uint8_t]. *)
Definition seen_incr (seen : list Z) (id : Z) : option (list Z) :=
  match seen !! Z.to_nat id with
  | Some c => Some (<[Z.to_nat id := u8 (c + 1)]> seen)
  | None => None
  end.

(** [if (msg.tx_id >= 1 && msg.tx_id <= (uint32_t)n) seen[msg.tx_id] += 1;] *)
Definition observe (n : Z) (seen : list Z) (id : Z) : option (list Z) :=
  if (1 <=? id) && (id <=? u32 n) then seen_incr seen id else Some seen.

(** The validation statement run once per consumed record, in order. *)
Fixpoint observe_all (n : Z) (seen : list Z) (ids : list Z) : option (list Z) :=
  match ids with
  | [] => Some seen
  | id :: rest =>
      match observe n seen id with
      | Some seen' => observe_all n seen' rest
      | None => None
      end
  end.

(** The reporting loop
    [for (int id = 1; id <= n; id++) { if (seen[id] == 0) missing++;
       if (seen[id] > 1) duplicates += (seen[id] - 1); }]
    with [k] iterations left.  The loop leaves through its test only after
    [id++] has been evaluated, so that increment is part of every
    iteration. *)
Fixpoint audit_loop (k : nat) (id : Z) (seen : list Z) (missing duplicates : Z)
  : option (Z * Z) :=
  match k with
  | O => Some (missing, duplicates)
  | S k' =>
      c ← seen !! Z.to_nat id;
      missing' ← (if c =? 0 then int_add missing 1 else Some missing);
      duplicates' ← (if 1 <? c then int_add duplicates (c - 1) else Some duplicates);
      id' ← int_add id 1;
      audit_loop k' id' seen missing' duplicates'
  end.

Definition integrity_check (n : Z) (seen : list Z) : option (Z * Z) :=
  audit_loop (Z.to_nat n) 1 seen 0 0.

(** The auditor as a function of the sequence of consumed ids. *)
Definition auditor (n : Z) (ids : list Z) : option (Z * Z) :=
  seen ← observe_all n (calloc_seen n) ids;
  integrity_check n seen.

(** *** The auditor's contract, in the specification's words

    A presence counter per id in [1, n], incremented on each valid
    observation; [missing] counts the ids whose counter is 0 and
    [duplicate] sums [max (counter - 1) 0]. *)

Fixpoint occurrences (id : Z) (ids : list Z) : Z :=
  match ids with
  | [] => 0
  | x :: rest => (if x =? id then 1 else 0) + occurrences id rest
  end.

Definition sum_over (f : Z -> Z) (l : list Z) : Z :=
  foldr (fun id acc => f id + acc) 0 l.

Definition count_missing (cnt : Z -> Z) (l : list Z) : Z :=
  sum_over (fun id => if cnt id =? 0 then 1 else 0) l.

Definition sum_duplicate (cnt : Z -> Z) (l : list Z) : Z :=
  sum_over (fun id => Z.max (cnt id - 1) 0) l.

Definition spec_missing (n : Z) (ids : list Z) : Z :=
  count_missing (fun id => occurrences id ids) (seqZ 1 n).

Definition spec_duplicate (n : Z) (ids : list Z) : Z :=
  sum_duplicate (fun id => occurrences id ids) (seqZ 1 n).

(** The same two sums over the 8-bit counters the code keeps. *)
Definition wrapped (ids : list Z) (id : Z) : Z := u8 (occurrences id ids).

Definition code_missing (n : Z) (ids : list Z) : Z :=
  count_missing (wrapped ids) (seqZ 1 n).

Definition code_duplicate (n : Z) (ids : list Z) : Z :=
  sum_duplicate (wrapped ids) (seqZ 1 n).

(* ================================================================== *)
(** ** Semaphores *)

(** The three named semaphores.  [sem_mutex] is [None] in unsafe mode,
    where it is never created ([sem_t *sem_mutex = NULL]). *)
Record Sems := mkSems {
  sem_empty : Z;
  sem_full : Z;
  sem_mutex : option Z
}.

(** [sem_wait] / [WaitForSingleObject]: [None] when the caller must block. *)
Definition sem_wait (v : Z) : option Z :=
  if 0 <? v then Some (v - 1) else None.

(** [sem_post] / [ReleaseSemaphore(h, 1, NULL)]. *)
Definition sem_post (v : Z) : Z := v + 1.

(* ================================================================== *)
(** ** Per-process timing statistics *)

Definition LLONG_MAX : Z := 2 ^ 63 - 1.

Record Stats := mkStats {
  proc_sum : Z; min_proc : Z; max_proc : Z;
  lat_sum : Z; min_lat : Z; max_lat : Z
}.

Definition stats0 : Stats := mkStats 0 LLONG_MAX 0 0 LLONG_MAX 0.

(** The block after [t1 = now_us()]: [proc = t1 - t0],
    [lat = t1 - (long long)msg.t_send_us], sums and extrema.  The
    differences and sums are taken exactly; they are those of the code as
    long as none leaves [long long], which holds for clock readings that
    never go back and stay in [0, H] with [n * H <= LLONG_MAX]
    ([sums_fit]). *)
Definition stats_add (st : Stats) (t0 t1 : Z) (m : TxMsg) : Stats :=
  let proc := t1 - t0 in
  let lat := t1 - to_i64 (t_send_us m) in
  mkStats (proc_sum st + proc)
          (if proc <? min_proc st then proc else min_proc st)
          (if max_proc st <? proc then proc else max_proc st)
          (lat_sum st + lat)
          (if lat <? min_lat st then lat else min_lat st)
          (if max_lat st <? lat then lat else max_lat st).

(* ================================================================== *)
(** ** The two processes *)

(** Program points of the producer loop in [main]; each names the statement
    about to run. *)
Inductive PPc :=
| PLoop        (* i < n ?  t0 = now_us() *)
| PWaitEmpty   (* sem_wait(sem_empty) *)
| PWaitMutex   (* if (!g_unsafe) sem_wait(sem_mutex) *)
| PBuild       (* msg.tx_id = ...; msg.t_send_us = now_us(); snprintf *)
| PWrite       (* ring->buf[ring->head] = msg *)
| PAdvance     (* ring->head = (ring->head + 1) % RING_CAP *)
| PPostMutex   (* if (!g_unsafe) sem_post(sem_mutex) *)
| PPostFull    (* sem_post(sem_full) *)
| PStats       (* t1 = now_us(); statistics; i++ *)
| PDone.

(** Program points of the consumer loop in [consumer_process] /
    [run_child]. *)
Inductive CPc :=
| CLoop        (* i < n ?  t0 = now_us()  -- on exit: the reporting loop *)
| CWaitFull    (* sem_wait(sem_full) *)
| CWaitMutex   (* if (!g_unsafe) sem_wait(sem_mutex) *)
| CRead        (* msg = ring->buf[ring->tail] *)
| CAdvance     (* ring->tail = (ring->tail + 1) % RING_CAP *)
| CPostMutex   (* if (!g_unsafe) sem_post(sem_mutex) *)
| CPostEmpty   (* sem_post(sem_empty) *)
| CStats       (* t1 = now_us(); statistics *)
| CAudit       (* validate tx_id; seen[tx_id] += 1; i++ *)
| CDone.

Record Producer := mkProducer {
  p_pc : PPc;
  p_i : Z;
  p_t0 : Z;
  p_msg : TxMsg;
  p_stats : Stats
}.

Record Consumer := mkConsumer {
  c_pc : CPc;
  c_i : Z;
  c_t0 : Z;
  c_msg : TxMsg;
  c_seen : list Z;
  c_stats : Stats;
  c_report : option (Z * Z)   (* missing, duplicates once printed *)
}.

Inductive Proc := Prod | Cons.

(** One executed statement: the program point, the loop index and clock
    reading at that moment, and the process's local record afterwards. *)
Inductive Label :=
| LProd (pc : PPc) (i now : Z) (m : TxMsg)
| LCons (pc : CPc) (i now : Z) (m : TxMsg).

(** Shared segment, semaphores, both processes' locals, and the history of
    executed statements (a ghost field: no statement reads it). *)
Record State := mkState {
  ring : Ring;
  sems : Sems;
  producer : Producer;
  consumer : Consumer;
  trace : list Label
}.

Inductive Outcome :=
| Next (s : State)   (* the statement ran *)
| Blocked            (* the process sleeps in sem_wait *)
| Halted             (* the loop is over *)
| Fault.             (* undefined behaviour *)

Definition with_pc_p (p : Producer) (pc : PPc) : Producer :=
  mkProducer pc (p_i p) (p_t0 p) (p_msg p) (p_stats p).

Definition with_pc_c (c : Consumer) (pc : CPc) : Consumer :=
  mkConsumer pc (c_i c) (c_t0 c) (c_msg c) (c_seen c) (c_stats c) (c_report c).

(** One statement of the producer loop ([IPC_LINUX.c] lines 200-233,
    [IPC.c] lines 198-223).  [now] is what [now_us()] returns if the
    statement calls it.  [IPC.c] keeps [head] in a signed [LONG] read once
    into [h]; for [h] in [0, RING_CAP) its [(h + 1) % RING_CAP] is the same
    value.  It keeps no latency statistics on this side. *)
Definition step_producer (g_unsafe : bool) (n now : Z) (s : State) : Outcome :=
  let r := ring s in
  let sm := sems s in
  let p := producer s in
  let c := consumer s in
  let tr := trace s in
  match p_pc p with
  | PLoop =>
      if p_i p <? n
      then Next (mkState r sm (mkProducer PWaitEmpty (p_i p) now (p_msg p) (p_stats p)) c tr)
      else Next (mkState r sm (with_pc_p p PDone) c tr)
  | PWaitEmpty =>
      match sem_wait (sem_empty sm) with
      | Some v => Next (mkState r (mkSems v (sem_full sm) (sem_mutex sm))
                                (with_pc_p p PWaitMutex) c tr)
      | None => Blocked
      end
  | PWaitMutex =>
      if g_unsafe then Next (mkState r sm (with_pc_p p PBuild) c tr)
      else match sem_mutex sm with
           | Some mv =>
               match sem_wait mv with
               | Some v => Next (mkState r (mkSems (sem_empty sm) (sem_full sm) (Some v))
                                         (with_pc_p p PBuild) c tr)
               | None => Blocked
               end
           | None => Fault
           end
  | PBuild =>
      Next (mkState r sm
              (mkProducer PWrite (p_i p) (p_t0 p) (make_msg (p_i p) now) (p_stats p)) c tr)
  | PWrite =>
      match buf r !! Z.to_nat (head r) with
      | Some _ =>
          Next (mkState (mkRing (head r) (tail r) (<[Z.to_nat (head r) := p_msg p]> (buf r)))
                        sm (with_pc_p p PAdvance) c tr)
      | None => Fault
      end
  | PAdvance =>
      Next (mkState (mkRing (u32 (head r + 1) mod RING_CAP) (tail r) (buf r))
                    sm (with_pc_p p PPostMutex) c tr)
  | PPostMutex =>
      if g_unsafe then Next (mkState r sm (with_pc_p p PPostFull) c tr)
      else match sem_mutex sm with
           | Some mv => Next (mkState r (mkSems (sem_empty sm) (sem_full sm) (Some (sem_post mv)))
                                      (with_pc_p p PPostFull) c tr)
           | None => Fault
           end
  | PPostFull =>
      Next (mkState r (mkSems (sem_empty sm) (sem_post (sem_full sm)) (sem_mutex sm))
                    (with_pc_p p PStats) c tr)
  | PStats =>
      Next (mkState r sm
              (mkProducer PLoop (p_i p + 1) (p_t0 p) (p_msg p)
                          (stats_add (p_stats p) (p_t0 p) now (p_msg p))) c tr)
  | PDone => Halted
  end.

(** One statement of the consumer loop ([IPC_LINUX.c] lines 93-135,
    [IPC.c] lines 73-109).  Leaving the loop runs the reporting loop. *)
Definition step_consumer (g_unsafe : bool) (n now : Z) (s : State) : Outcome :=
  let r := ring s in
  let sm := sems s in
  let p := producer s in
  let c := consumer s in
  let tr := trace s in
  match c_pc c with
  | CLoop =>
      if c_i c <? n
      then Next (mkState r sm p
                   (mkConsumer CWaitFull (c_i c) now (c_msg c) (c_seen c) (c_stats c) (c_report c)) tr)
      else match integrity_check n (c_seen c) with
           | Some rep =>
               Next (mkState r sm p
                       (mkConsumer CDone (c_i c) (c_t0 c) (c_msg c) (c_seen c) (c_stats c) (Some rep)) tr)
           | None => Fault
           end
  | CWaitFull =>
      match sem_wait (sem_full sm) with
      | Some v => Next (mkState r (mkSems (sem_empty sm) v (sem_mutex sm))
                                p (with_pc_c c CWaitMutex) tr)
      | None => Blocked
      end
  | CWaitMutex =>
      if g_unsafe then Next (mkState r sm p (with_pc_c c CRead) tr)
      else match sem_mutex sm with
           | Some mv =>
               match sem_wait mv with
               | Some v => Next (mkState r (mkSems (sem_empty sm) (sem_full sm) (Some v))
                                         p (with_pc_c c CRead) tr)
               | None => Blocked
               end
           | None => Fault
           end
  | CRead =>
      match buf r !! Z.to_nat (tail r) with
      | Some m =>
          Next (mkState r sm p
                  (mkConsumer CAdvance (c_i c) (c_t0 c) m (c_seen c) (c_stats c) (c_report c)) tr)
      | None => Fault
      end
  | CAdvance =>
      Next (mkState (mkRing (head r) (u32 (tail r + 1) mod RING_CAP) (buf r))
                    sm p (with_pc_c c CPostMutex) tr)
  | CPostMutex =>
      if g_unsafe then Next (mkState r sm p (with_pc_c c CPostEmpty) tr)
      else match sem_mutex sm with
           | Some mv => Next (mkState r (mkSems (sem_empty sm) (sem_full sm) (Some (sem_post mv)))
                                      p (with_pc_c c CPostEmpty) tr)
           | None => Fault
           end
  | CPostEmpty =>
      Next (mkState r (mkSems (sem_post (sem_empty sm)) (sem_full sm) (sem_mutex sm))
                    p (with_pc_c c CStats) tr)
  | CStats =>
      Next (mkState r sm p
              (mkConsumer CAudit (c_i c) (c_t0 c) (c_msg c) (c_seen c)
                          (stats_add (c_stats c) (c_t0 c) now (c_msg c)) (c_report c)) tr)
  | CAudit =>
      match observe n (c_seen c) (tx_id (c_msg c)) with
      | Some seen' =>
          Next (mkState r sm p
                  (mkConsumer CLoop (c_i c + 1) (c_t0 c) (c_msg c) seen' (c_stats c) (c_report c)) tr)
      | None => Fault
      end
  | CDone => Halted
  end.

(* ================================================================== *)
(** ** Interleavings *)

(** A scheduling decision: which process runs its next statement, and the
    clock reading at that moment. *)
Record Tick := mkTick { who : Proc; now : Z }.

Definition log (s s' : State) (l : Label) : State :=
  mkState (ring s') (sems s') (producer s') (consumer s') (trace s ++ [l]).

Definition sys_step (g_unsafe : bool) (n : Z) (t : Tick) (s : State) : Outcome :=
  match who t with
  | Prod =>
      match step_producer g_unsafe n (now t) s with
      | Next s' => Next (log s s' (LProd (p_pc (producer s)) (p_i (producer s)) (now t)
                                         (p_msg (producer s'))))
      | o => o
      end
  | Cons =>
      match step_consumer g_unsafe n (now t) s with
      | Next s' => Next (log s s' (LCons (c_pc (consumer s)) (c_i (consumer s)) (now t)
                                         (c_msg (consumer s'))))
      | o => o
      end
  end.

(** Runs a schedule; [None] as soon as a scheduled process cannot move. *)
Fixpoint run (g_unsafe : bool) (n : Z) (sched : list Tick) (s : State) : option State :=
  match sched with
  | [] => Some s
  | t :: rest =>
      match sys_step g_unsafe n t s with
      | Next s' => run g_unsafe n rest s'
      | _ => None
      end
  end.

(** The state when both loops are about to start: the segment zeroed, the
    semaphores as created by [main], the consumer attached with its
    presence array allocated. *)
Definition init_sems (g_unsafe : bool) : Sems :=
  mkSems RING_CAP 0 (if g_unsafe then None else Some 1).

Definition init (g_unsafe : bool) (n : Z) : State :=
  mkState zero_ring (init_sems g_unsafe)
          (mkProducer PLoop 0 0 zero_msg stats0)
          (mkConsumer CLoop 0 0 zero_msg (calloc_seen n) stats0 None)
          [].

Inductive reachable (g_unsafe : bool) (n : Z) : State -> Prop :=
| reach_init : reachable g_unsafe n (init g_unsafe n)
| reach_step s t s' :
    reachable g_unsafe n s ->
    sys_step g_unsafe n t s = Next s' ->
    reachable g_unsafe n s'.

(** Both processes have left their loops (and the report is printed). *)
Definition final (s : State) : bool :=
  match p_pc (producer s), c_pc (consumer s) with
  | PDone, CDone => true
  | _, _ => false
  end.

(** One process runs [k] statements alone, clock readings [t, t+1, ...]. *)
Definition solo (w : Proc) (t : Z) (k : nat) : list Tick :=
  (fun i => mkTick w i) <$> seqZ t (Z.of_nat k).

(* ================================================================== *)
(** ** Start-up of [main] *)

(** A shared-memory object: of length 0, as [shm_open] with [O_CREAT]
    creates it, or sized to one [Ring] by [ftruncate], with its contents. *)
Inductive Segment :=
| Unsized
| Sized (r : Ring).

(** The named objects of the system (the segment, the value of each
    semaphore; [None] when the name does not exist) and the lines written
    to [stderr]. *)
Record World := mkWorld {
  shm : option Segment;
  named_empty : option Z;
  named_full : option Z;
  named_mutex : option Z;
  err : list string
}.

(** Whether each system call of the set-up succeeds. *)
Record Env := mkEnv {
  shm_open_ok : bool;
  ftruncate_ok : bool;
  mmap_ok : bool;
  sem_empty_ok : bool;
  sem_full_ok : bool;
  sem_mutex_ok : bool;
  fork_ok : bool
}.

Inductive Startup :=
| Exited (code : Z) (w : World)
| Started (n : Z) (w : World).

(** [cleanup_ipc]: unlink the segment and the three semaphores. *)
Definition cleanup_ipc (w : World) : World :=
  mkWorld None None None None (err w).

(** [die(msg)]: [perror(msg); exit(1)].  The line is recorded without the
    text of [errno]. *)
Definition die (msg : string) (w : World) : Startup :=
  Exited 1 (mkWorld (shm w) (named_empty w) (named_full w) (named_mutex w)
                    (err w ++ [msg])).

(** [sem_open(name, O_CREAT, 0600, value)]: creates the semaphore with
    [value] unless it exists already. *)
Definition sem_create (ok : bool) (old : option Z) (value : Z) : option Z :=
  if ok then Some (default value old) else old.

(** [main] of [IPC_LINUX.c] up to the [fork] (lines 159-191).  [input] is
    the integer [scanf("%d", &n)] converted, [None] if it converted none.
    [IPC.c] lines 149-190 differ in having no [cleanup_ipc] and in testing
    the three handles together. *)
Definition main_setup (g_unsafe : bool) (env : Env) (input : option Z) (w : World)
  : Startup :=
  match input with
  | None => Exited 1 (mkWorld (shm w) (named_empty w) (named_full w) (named_mutex w)
                              (err w ++ ["Invalid input."]))
  | Some n =>
      if n <=? 0
      then Exited 1 (mkWorld (shm w) (named_empty w) (named_full w) (named_mutex w)
                             (err w ++ ["Invalid input."]))
      else
        let w0 := cleanup_ipc w in
        if negb (shm_open_ok env) then die "shm_open(producer)" w0 else
        (* the object exists from here on, with length 0 *)
        let w0' := mkWorld (Some Unsized) None None None (err w0) in
        if negb (ftruncate_ok env) then die "ftruncate" w0' else
        (* ftruncate extends it with zero bytes; memset writes zeros again *)
        let w1 := mkWorld (Some (Sized zero_ring)) None None None (err w0) in
        if negb (mmap_ok env) then die "mmap(producer)" w1 else
        let w2 := mkWorld (shm w1)
                          (sem_create (sem_empty_ok env) (named_empty w1) RING_CAP)
                          (sem_create (sem_full_ok env) (named_full w1) 0)
                          (named_mutex w1) (err w1) in
        let w3 := if g_unsafe then w2
                  else mkWorld (shm w2) (named_empty w2) (named_full w2)
                               (sem_create (sem_mutex_ok env) (named_mutex w2) 1) (err w2) in
        if negb g_unsafe && negb (sem_mutex_ok env) then die "sem_open(mutex)" w3 else
        if negb (sem_empty_ok env) || negb (sem_full_ok env)
        then die "sem_open(empty/full)" w3 else
        if negb (fork_ok env) then die "fork" w3 else
        Started n w3
  end.

Definition env_ok : Env := mkEnv true true true true true true true.

Definition world0 : World := mkWorld None None None None [].

(** [seen] holds, for each id of [1, n], the 8-bit image of [f id]. *)
Definition counts (n : Z) (seen : list Z) (f : Z -> Z) : Prop :=
  length seen = Z.to_nat (n + 1) /\
  forall id, 1 <= id <= n -> seen !! Z.to_nat id = Some (u8 (f id)).

(* ================================================================== *)
(** * The synchronisation protocol *)

(** ** Progress counters read off the program points *)

(** Free slots taken by the producer so far. *)
Definition p_acquired (p : Producer) : Z :=
  p_i p + match p_pc p with
          | PWaitMutex | PBuild | PWrite | PAdvance | PPostMutex | PPostFull | PStats => 1
          | _ => 0
          end.

(** Records stored in the ring so far. *)
Definition p_written (p : Producer) : Z :=
  p_i p + match p_pc p with
          | PAdvance | PPostMutex | PPostFull | PStats => 1
          | _ => 0
          end.

(** Times [head] was advanced. *)
Definition p_advanced (p : Producer) : Z :=
  p_i p + match p_pc p with
          | PPostMutex | PPostFull | PStats => 1
          | _ => 0
          end.

(** Filled slots announced to the consumer. *)
Definition p_posted (p : Producer) : Z :=
  p_i p + match p_pc p with PStats => 1 | _ => 0 end.

(** Filled slots taken by the consumer so far. *)
Definition c_taken (c : Consumer) : Z :=
  c_i c + match c_pc c with
          | CWaitMutex | CRead | CAdvance | CPostMutex | CPostEmpty | CStats | CAudit => 1
          | _ => 0
          end.

(** Records copied out of the ring. *)
Definition c_read (c : Consumer) : Z :=
  c_i c + match c_pc c with
          | CAdvance | CPostMutex | CPostEmpty | CStats | CAudit => 1
          | _ => 0
          end.

(** Times [tail] was advanced. *)
Definition c_advanced (c : Consumer) : Z :=
  c_i c + match c_pc c with
          | CPostMutex | CPostEmpty | CStats | CAudit => 1
          | _ => 0
          end.

(** Slots handed back to the producer. *)
Definition c_returned (c : Consumer) : Z :=
  c_i c + match c_pc c with CStats | CAudit => 1 | _ => 0 end.

(** 1 while the process is between its two mutex calls. *)
Definition p_in_cs (p : Producer) : Z :=
  match p_pc p with PBuild | PWrite | PAdvance | PPostMutex => 1 | _ => 0 end.

Definition c_in_cs (c : Consumer) : Z :=
  match c_pc c with CRead | CAdvance | CPostMutex => 1 | _ => 0 end.

(** 1 while an Enqueue (Dequeue) is between its wait and its signal. *)
Definition p_in_flight (p : Producer) : Z := p_acquired p - p_posted p.
Definition c_in_flight (c : Consumer) : Z := c_taken c - c_returned c.

(** ** Invariant of the semaphores and cursors *)

Record Inv_sync (g_unsafe : bool) (s : State) : Prop := mkInvSync {
  is_pi : 0 <= p_i (producer s);
  is_ci : 0 <= c_i (consumer s);
  is_empty : sem_empty (sems s)
             = RING_CAP - p_acquired (producer s) + c_returned (consumer s);
  is_full : sem_full (sems s) = p_posted (producer s) - c_taken (consumer s);
  is_empty_nonneg : 0 <= sem_empty (sems s);
  is_full_nonneg : 0 <= sem_full (sems s);
  is_mutex : sem_mutex (sems s)
             = if g_unsafe then None
               else Some (1 - p_in_cs (producer s) - c_in_cs (consumer s));
  is_mutex_nonneg : g_unsafe = false ->
                    0 <= 1 - p_in_cs (producer s) - c_in_cs (consumer s);
  is_head : head (ring s) = p_advanced (producer s) mod RING_CAP;
  is_tail : tail (ring s) = c_advanced (consumer s) mod RING_CAP;
  is_buf : length (buf (ring s)) = Z.to_nat RING_CAP
}.

(** ** Histories *)

(** The records stored in the ring, in the order of the stores. *)
Fixpoint enqueued (tr : list Label) : list TxMsg :=
  match tr with
  | [] => []
  | LProd PWrite _ _ m :: rest => m :: enqueued rest
  | _ :: rest => enqueued rest
  end.

(** The records copied out of the ring, in the order of the copies. *)
Fixpoint dequeued (tr : list Label) : list TxMsg :=
  match tr with
  | [] => []
  | LCons CRead _ _ m :: rest => m :: dequeued rest
  | _ :: rest => dequeued rest
  end.

(** ** Invariant of the data: ring contents, locals, presence array *)

Definition p_running (p : Producer) : bool :=
  match p_pc p with PLoop | PDone => false | _ => true end.

Definition c_running (c : Consumer) : bool :=
  match c_pc c with CLoop | CDone => false | _ => true end.

Record Inv_data (n : Z) (s : State) : Prop := mkInvData {
  id_pi : p_i (producer s) <= n;
  id_prun : p_running (producer s) = true -> p_i (producer s) < n;
  id_pdone : p_pc (producer s) = PDone -> p_i (producer s) = n;
  id_ci : c_i (consumer s) <= n;
  id_crun : c_running (consumer s) = true -> c_i (consumer s) < n;
  id_cdone : c_pc (consumer s) = CDone -> c_i (consumer s) = n;
  id_enq_len : Z.of_nat (length (enqueued (trace s))) = p_written (producer s);
  id_enq : forall k m, enqueued (trace s) !! k = Some m ->
                       exists t, m = make_msg (Z.of_nat k) t;
  id_pmsg : p_pc (producer s) = PWrite ->
            exists t, p_msg (producer s) = make_msg (p_i (producer s)) t;
  id_slots : forall k, c_returned (consumer s) <= k < p_written (producer s) ->
                       buf (ring s) !! Z.to_nat (k mod RING_CAP)
                       = enqueued (trace s) !! Z.to_nat k;
  id_cmsg : c_read (consumer s) = c_i (consumer s) + 1 ->
            enqueued (trace s) !! Z.to_nat (c_i (consumer s)) = Some (c_msg (consumer s));
  id_deq : dequeued (trace s)
           = take (Z.to_nat (c_read (consumer s))) (enqueued (trace s));
  id_seen_len : length (c_seen (consumer s)) = Z.to_nat (n + 1);
  id_seen : forall id, 1 <= id <= n ->
                       c_seen (consumer s) !! Z.to_nat id
                       = Some (if id <=? c_i (consumer s) then 1 else 0);
  id_report : c_pc (consumer s) = CDone ->
              c_report (consumer s) = integrity_check n (c_seen (consumer s))
}.

(** ** Enabled statements and the length of runs *)

(** The producer can run its next statement. *)
Definition p_enabled (g_unsafe : bool) (s : State) : bool :=
  match p_pc (producer s) with
  | PWaitEmpty => 0 <? sem_empty (sems s)
  | PWaitMutex => g_unsafe || (0 <? default 0 (sem_mutex (sems s)))
  | PDone => false
  | _ => true
  end.

Definition c_enabled (g_unsafe : bool) (s : State) : bool :=
  match c_pc (consumer s) with
  | CWaitFull => 0 <? sem_full (sems s)
  | CWaitMutex => g_unsafe || (0 <? default 0 (sem_mutex (sems s)))
  | CDone => false
  | _ => true
  end.

(** Statements still to run: nine per iteration and the final loop test. *)
Definition p_index (pc : PPc) : Z :=
  match pc with
  | PLoop | PDone => 0 | PWaitEmpty => 1 | PWaitMutex => 2 | PBuild => 3
  | PWrite => 4 | PAdvance => 5 | PPostMutex => 6 | PPostFull => 7 | PStats => 8
  end.

Definition c_index (pc : CPc) : Z :=
  match pc with
  | CLoop | CDone => 0 | CWaitFull => 1 | CWaitMutex => 2 | CRead => 3
  | CAdvance => 4 | CPostMutex => 5 | CPostEmpty => 6 | CStats => 7 | CAudit => 8
  end.

Definition p_todo (n : Z) (p : Producer) : Z :=
  match p_pc p with
  | PDone => 0
  | pc => 9 * (n - p_i p) + 1 - p_index pc
  end.

Definition c_todo (n : Z) (c : Consumer) : Z :=
  match c_pc c with
  | CDone => 0
  | pc => 9 * (n - c_i c) + 1 - c_index pc
  end.

Definition todo (n : Z) (s : State) : Z :=
  p_todo n (producer s) + c_todo n (consumer s).

(** ** Where the send timestamp is taken *)

(** The stamping statement of iteration [i] runs once the wait on
    [sem_empty] of that iteration has returned, and stores the clock
    reading of its own [now_us()] call. *)
Definition stamp_after_wait (tr : list Label) : Prop :=
  forall k i t m,
    tr !! k = Some (LProd PBuild i t m) ->
    t_send_us m = u64 t /\
    exists j t' m', (j < k)%nat /\ tr !! j = Some (LProd PWaitEmpty i t' m').

(** The converse order: the stamp of an iteration comes before that
    iteration's wait on [sem_empty]. *)
Definition stamp_before_wait (tr : list Label) : Prop :=
  forall j k i t t' m m',
    tr !! k = Some (LProd PBuild i t m) ->
    tr !! j = Some (LProd PWaitEmpty i t' m') ->
    (k < j)%nat.

Definition waited (tr : list Label) (i : Z) : Prop :=
  exists j t' m', tr !! j = Some (LProd PWaitEmpty i t' m').

Record Inv_trace (s : State) : Prop := mkInvTrace {
  it_stamp : stamp_after_wait (trace s);
  it_wait : p_acquired (producer s) = p_i (producer s) + 1 ->
            waited (trace s) (p_i (producer s))
}.

(** ** Concrete schedules and states *)

(** The state a schedule leads to from the initial state; the initial state
    itself if the schedule is not a run. *)
Definition state_after (g_unsafe : bool) (n : Z) (sched : list Tick) : State :=
  default (init g_unsafe n) (run g_unsafe n sched (init g_unsafe n)).

Definition other (w : Proc) : Proc :=
  match w with Prod => Cons | Cons => Prod end.

(** Alternates between the two processes, letting the other one run when
    the preferred one cannot; clock readings [t, t+1, ...]. *)
Fixpoint round_robin (g_unsafe : bool) (n : Z) (k : nat) (t : Z) (prefer : Proc)
  (s : State) : list Tick :=
  match k with
  | O => []
  | S k' =>
      match sys_step g_unsafe n (mkTick prefer t) s with
      | Next s' => mkTick prefer t :: round_robin g_unsafe n k' (t + 1) (other prefer) s'
      | _ =>
          match sys_step g_unsafe n (mkTick (other prefer) t) s with
          | Next s' => mkTick (other prefer) t :: round_robin g_unsafe n k' (t + 1) prefer s'
          | _ => []
          end
      end
  end.

(** A complete interleaved run in safe mode with two records. *)
Definition fair_run_2 : list Tick := round_robin false 2 38 0 Prod (init false 2).

(** A consumer about to validate a record whose id is 99, with [n = 2]. *)
Definition garbage_state : State :=
  mkState zero_ring (init_sems false)
          (mkProducer PLoop 1 0 zero_msg stats0)
          (mkConsumer CAudit 0 0 (mkTxMsg 99 7 0 0 "") (calloc_seen 2) stats0 None)
          [].

(* ================================================================== *)
(** * Further definitions: protocol, timing, start-up, arguments *)

(** ** Records in flight *)

(** The records stored in the ring and not yet copied out. *)
Definition pending (s : State) : list TxMsg :=
  drop (length (dequeued (trace s))) (enqueued (trace s)).

(** ** Timing statistics *)

(** Samples the consumer has added to its statistics. *)
Definition c_timed (c : Consumer) : Z :=
  c_i c + match c_pc c with CAudit => 1 | _ => 0 end.

(** After [k] samples each sum lies between [k] times the minimum and [k]
    times the maximum. *)
Definition within (k : Z) (st : Stats) : Prop :=
  k * min_proc st <= proc_sum st <= k * max_proc st /\
  k * min_lat st <= lat_sum st <= k * max_lat st.

(** After [k] samples taken from readings in [0, H] a sum lies in
    [0, k * H]. *)
Definition sums_fit (H k : Z) (st : Stats) : Prop :=
  0 <= proc_sum st <= k * H /\ 0 <= lat_sum st <= k * H.

(** No clock reading of a schedule is above [H]. *)
Definition clock_below (H : Z) (sched : list Tick) : Prop :=
  Forall (fun t => now t <= H) sched.

(** The clock readings of a schedule never go back, starting from [T], and
    fit [long long]. *)
Fixpoint clock_mono (T : Z) (sched : list Tick) : Prop :=
  match sched with
  | [] => True
  | t :: rest => T <= now t < 2 ^ 63 /\ clock_mono (now t) rest
  end.

Record Inv_clock (T : Z) (s : State) : Prop := mkInvClock {
  ic_T : 0 <= T < 2 ^ 63;
  ic_pt0 : 0 <= p_t0 (producer s) <= T;
  ic_ct0 : 0 <= c_t0 (consumer s) <= T;
  ic_pmsg : 0 <= t_send_us (p_msg (producer s)) <= T;
  ic_cmsg : 0 <= t_send_us (c_msg (consumer s)) <= T;
  ic_buf : Forall (fun m => 0 <= t_send_us m <= T) (buf (ring s));
  ic_pstats : 0 <= min_proc (p_stats (producer s)) /\ 0 <= min_lat (p_stats (producer s));
  ic_cstats : 0 <= min_proc (c_stats (consumer s)) /\ 0 <= min_lat (c_stats (consumer s))
}.

(** A complete interleaved run in unsafe mode with two records. *)
Definition fair_run_2_unsafe : list Tick := round_robin true 2 38 0 Prod (init true 2).

(** Unsafe mode: the producer is about to store its second record while
    the consumer is about to copy the first. *)
Definition overlap_run : list Tick :=
  solo Prod 0 9 ++ solo Cons 9 3 ++ solo Prod 12 4.

(** ** A producer without a consumer *)

(** Every scheduling decision of [sched] picks the producer. *)
Definition producer_only (sched : list Tick) : Prop :=
  Forall (fun t => who t = Prod) sched.

(** ** Counting the consumed ids *)

(** Consumed ids that pass the validation [1 <= id <= n]. *)
Fixpoint count_valid (n : Z) (ids : list Z) : Z :=
  match ids with
  | [] => 0
  | id :: rest => (if (1 <=? id) && (id <=? n) then 1 else 0) + count_valid n rest
  end.

(** ** Attaching the consumer, finishing [main] *)

(** Whether the calls of the consumer's set-up succeed (beyond the named
    objects having to exist). *)
Record CEnv := mkCEnv {
  c_shm_open_ok : bool;
  c_mmap_ok : bool;
  c_calloc_ok : bool
}.

Definition cenv_ok : CEnv := mkCEnv true true true.

(** How the consumer's set-up ends: it has exited, it is ready for its
    loop, or it has mapped an object of length 0 (its first access to the
    ring will be a bus error). *)
Inductive Attach :=
| AttachExit (code : Z) (w : World)
| Attached (r : Ring) (sm : Sems) (c : Consumer)
| AttachedUnsized (sm : Sems) (c : Consumer).

Definition die_attach (msg : string) (w : World) : Attach :=
  AttachExit 1 (mkWorld (shm w) (named_empty w) (named_full w) (named_mutex w)
                        (err w ++ [msg])).

(** [consumer_process] up to its loop ([IPC_LINUX.c] lines 72-91):
    [shm_open] without [O_CREAT], [mmap], the three [sem_open(name, 0)],
    [calloc].  A name that does not exist cannot be opened; [mmap] does not
    look at the length of the object; [calloc] fails where the size cannot
    be allocated at all ([calloc_fits]) or the environment says so.
    [run_child] ([IPC.c] lines 51-66) differs in opening the mutex only in
    safe mode. *)
Definition consumer_attach (g_unsafe : bool) (cenv : CEnv) (n : Z) (w : World) : Attach :=
  match shm w with
  | None => die_attach "shm_open(consumer)" w
  | Some seg =>
      if negb (c_shm_open_ok cenv) then die_attach "shm_open(consumer)" w else
      if negb (c_mmap_ok cenv) then die_attach "mmap(consumer)" w else
      match named_empty w, named_full w, (if g_unsafe then Some None else Some <$> named_mutex w) with
      | Some e, Some f, Some m =>
          if negb (c_calloc_ok cenv && calloc_fits n) then die_attach "calloc(seen)" w else
          let c := mkConsumer CLoop 0 0 zero_msg (calloc_seen n) stats0 None in
          match seg with
          | Sized r => Attached r (mkSems e f m) c
          | Unsized => AttachedUnsized (mkSems e f m) c
          end
      | _, _, _ => die_attach "sem_open(consumer)" w
      end
  end.

(** Every call [main] needs has succeeded; the mutex only counts in safe
    mode. *)
Definition all_ok (g_unsafe : bool) (env : Env) : bool :=
  shm_open_ok env && ftruncate_ok env && mmap_ok env &&
  sem_empty_ok env && sem_full_ok env && (g_unsafe || sem_mutex_ok env) && fork_ok env.

Definition world_of (r : Startup) : World :=
  match r with Exited _ w => w | Started _ w => w end.

(** The named objects of a world, without [stderr]. *)
Definition objects (w : World) : option Segment * option Z * option Z * option Z :=
  (shm w, named_empty w, named_full w, named_mutex w).

(** What a whole execution of the POSIX program leaves behind. *)
Record Finished := mkFinished {
  parent_exit : Z;
  child_exit : option Z;            (* [None]: no child was forked *)
  report : option (Z * Z);          (* the consumer's integrity line *)
  world_after : World
}.

(** [main] of [IPC_LINUX.c] from start to [return]: set-up, [fork], the
    child's [consumer_process], the two loops interleaved by [sched], then
    [waitpid] (whose status is not examined), the summary, and
    [cleanup_ipc].  [None]: [sched] does not let the parent reach its
    [return].  A child that died while attaching runs no statement (its
    locals are never looked at). *)
Definition linux_program (g_unsafe : bool) (env : Env) (cenv : CEnv)
  (input : option Z) (sched : list Tick) (w : World) : option Finished :=
  match main_setup g_unsafe env input w with
  | Exited code w' => Some (mkFinished code None None w')
  | Started n w1 =>
      let p0 := mkProducer PLoop 0 0 zero_msg stats0 in
      match consumer_attach g_unsafe cenv n w1 with
      | Attached r sm c =>
          match run g_unsafe n sched (mkState r sm p0 c []) with
          | Some s =>
              if final s
              then Some (mkFinished 0 (Some 0) (c_report (consumer s)) (cleanup_ipc w1))
              else None
          | None => None
          end
      | AttachExit code w2 =>
          match shm w1, named_empty w1, named_full w1 with
          | Some (Sized r), Some e, Some f =>
              let sm := mkSems e f (if g_unsafe then None else named_mutex w1) in
              let c0 := mkConsumer CLoop 0 0 zero_msg (calloc_seen n) stats0 None in
              if forallb (fun t => match who t with Prod => true | Cons => false end) sched
              then match run g_unsafe n sched (mkState r sm p0 c0 []) with
                   | Some s =>
                       match p_pc (producer s) with
                       | PDone => Some (mkFinished 0 (Some code) None (cleanup_ipc w2))
                       | _ => None
                       end
                   | None => None
                   end
              else None
          | _, _, _ => None
          end
      | AttachedUnsized _ _ => None   (* not after [main] has sized the object *)
      end
  end.

(** ** Command line of the Win32 program *)

Definition INT_MIN : Z := - 2147483648.

(** [isspace] in the "C" locale. *)
Definition is_space (c : Ascii.ascii) : bool :=
  let k := Z.of_nat (Ascii.nat_of_ascii c) in
  (k =? 32) || ((9 <=? k) && (k <=? 13)).

Definition digit_of (c : Ascii.ascii) : option Z :=
  let k := Z.of_nat (Ascii.nat_of_ascii c) in
  if (48 <=? k) && (k <=? 57) then Some (k - 48) else None.

Fixpoint skip_spaces (s : string) : string :=
  match s with
  | String c rest => if is_space c then skip_spaces rest else s
  | EmptyString => s
  end.

(** The value of the leading decimal digits of [s], continuing [acc]. *)
Fixpoint digits_val (acc : Z) (s : string) : Z :=
  match s with
  | String c rest =>
      match digit_of c with
      | Some d => digits_val (10 * acc + d) rest
      | None => acc
      end
  | EmptyString => acc
  end.

(** [atoi]: white space, an optional sign, decimal digits; what follows is
    ignored.  [None] when the value does not fit [int] (undefined). *)
Definition atoi (s : string) : option Z :=
  let s1 := skip_spaces s in
  let v := match s1 with
           | String c rest =>
               let k := Z.of_nat (Ascii.nat_of_ascii c) in
               if k =? 45 then - digits_val 0 rest          (* '-' *)
               else if k =? 43 then digits_val 0 rest       (* '+' *)
               else digits_val 0 s1
           | EmptyString => 0
           end in
  if (INT_MIN <=? v) && (v <=? INT_MAX) then Some v else None.

Inductive Role :=
| Parent (g_unsafe : bool)
| Child (g_unsafe : bool) (n : Z).

(** The head of [main] in [IPC.c] (lines 131-147); [argv] includes the
    program name.  [None]: [atoi] was undefined. *)
Definition win_dispatch (argv : list string) : option Role :=
  let g := match argv with
           | [_; a1] => if String.eqb a1 "--unsafe" then true else false
           | _ => false
           end in
  match argv with
  | [_; a1; a2] =>
      if String.eqb a1 "--child" then Child g <$> atoi a2
      else if String.eqb a1 "--unsafe_child" then Child true <$> atoi a2
      else Some (Parent g)
  | _ => Some (Parent g)
  end.

(** The arguments the child is started with: the fields of the command
    line ["exe" --child n] or ["exe" --unsafe_child n] that [main] prints
    with [snprintf] ([IPC.c] lines 175-182), as the C runtime of the child
    separates them. *)
Definition child_argv (exe : string) (g_unsafe : bool) (n : Z) : list string :=
  [exe; if g_unsafe then "--unsafe_child" else "--child"; pretty n].

(* ================================================================== *)
(** * Synchronised transactions

    The second program kept in [IPC_LINUX.c] (lines 422-616): [N_TX] threads
    each deduct an amount from a shared balance under a mutex and record
    three durations.  (The Win32 version at lines 262-419 prints its block
    while it still holds the balance lock and has no second mutex; only its
    [print_avg_min_max], which has the loop of [stats], is covered here.)

    The balance is a [double]; the model takes the number type [F] and its
    subtraction [fsub] as parameters, so that nothing is assumed about
    rounding.  Each thread is a sequence of statements; a run interleaves
    the statements of the threads.  Clock readings are [long long]
    microsecond counts; the three differences a thread takes are kept
    exact, which they are for readings in [0, 2^63). *)

Module Sync.

Definition N_TX : Z := 3.

Record Transaction (F : Type) := mkTransaction {
  tx_id : Z;
  amount : F
}.
Arguments mkTransaction {F}.
Arguments tx_id {F}.
Arguments amount {F}.

Record Metrics := mkMetrics {
  lock_wait_us : Z;
  cs_time_us : Z;
  total_time_us : Z
}.

(** Program points of [process_transaction].  The time-of-day string
    [started_at], taken before the first reading and only printed, is left
    out. *)
Inductive TPc :=
| TStart        (* start = now_us() *)
| TWaitS        (* wait_s = now_us() *)
| TLock         (* pthread_mutex_lock(&balance_lock) *)
| TWaitE        (* wait_e = now_us() *)
| TCsS          (* cs_s = now_us() *)
| TRead         (* before = account_balance *)
| TSleep        (* usleep(2000) *)
| TCompute      (* after = before - tx->amount *)
| TWrite        (* account_balance = after *)
| TCsE          (* cs_e = now_us() *)
| TUnlock       (* pthread_mutex_unlock(&balance_lock) *)
| TEnd          (* end = now_us() *)
| TMetrics      (* metrics[idx] = { wait_e - wait_s, cs_e - cs_s, end - start } *)
| TPrintLock    (* pthread_mutex_lock(&print_lock) *)
| TPrint        (* the block of printf calls *)
| TPrintUnlock  (* pthread_mutex_unlock(&print_lock) *)
| TDone.

Record Thread (F : Type) := mkThread {
  pc : TPc;
  tx : Transaction F;
  start : Z; wait_s : Z; wait_e : Z; cs_s : Z; cs_e : Z; end_ : Z;
  before : F; after : F
}.
Arguments mkThread {F}.
Arguments pc {F}.
Arguments tx {F}.
Arguments start {F}.
Arguments wait_s {F}.
Arguments wait_e {F}.
Arguments cs_s {F}.
Arguments cs_e {F}.
Arguments end_ {F}.
Arguments before {F}.
Arguments after {F}.

(** One printed block: transaction id, amount, balance before and after,
    and the three durations. *)
Record Block (F : Type) := mkBlock {
  b_id : Z; b_amount : F; b_before : F; b_after : F; b_metrics : Metrics
}.
Arguments mkBlock {F}.
Arguments b_id {F}.
Arguments b_amount {F}.
Arguments b_before {F}.
Arguments b_after {F}.
Arguments b_metrics {F}.

(** The globals, the threads, the output, and the amounts in the order
    they were written to the balance (a ghost field). *)
Record State (F : Type) := mkState {
  account_balance : F;
  balance_lock : bool;
  print_lock : bool;
  threads : list (Thread F);
  metrics : list Metrics;
  printed : list (Block F);
  applied : list F
}.
Arguments mkState {F}.
Arguments account_balance {F}.
Arguments balance_lock {F}.
Arguments print_lock {F}.
Arguments threads {F}.
Arguments metrics {F}.
Arguments printed {F}.
Arguments applied {F}.

Inductive Outcome (F : Type) :=
| Next (s : State F)
| Blocked
| Halted
| Fault.
Arguments Next {F}.
Arguments Blocked {F}.
Arguments Halted {F}.
Arguments Fault {F}.

Section Model.
Context {F : Type} (fsub : F -> F -> F).

Definition at_pc (th : Thread F) (p : TPc) : Thread F :=
  mkThread p (tx th) (start th) (wait_s th) (wait_e th) (cs_s th) (cs_e th) (end_ th)
           (before th) (after th).

Definition set_thread (s : State F) (i : nat) (th : Thread F) : State F :=
  mkState (account_balance s) (balance_lock s) (print_lock s)
          (<[i := th]> (threads s)) (metrics s) (printed s) (applied s).

(** One statement of thread [i]; [now] is the clock reading if the
    statement takes one. *)
Definition step (i : nat) (now : Z) (s : State F) : Outcome F :=
  match threads s !! i with
  | None => Halted
  | Some th =>
      match pc th with
      | TStart =>
          Next (set_thread s i (mkThread TWaitS (tx th) now (wait_s th) (wait_e th)
                                  (cs_s th) (cs_e th) (end_ th) (before th) (after th)))
      | TWaitS =>
          Next (set_thread s i (mkThread TLock (tx th) (start th) now (wait_e th)
                                  (cs_s th) (cs_e th) (end_ th) (before th) (after th)))
      | TLock =>
          if balance_lock s then Blocked
          else Next (mkState (account_balance s) true (print_lock s)
                             (<[i := at_pc th TWaitE]> (threads s))
                             (metrics s) (printed s) (applied s))
      | TWaitE =>
          Next (set_thread s i (mkThread TCsS (tx th) (start th) (wait_s th) now
                                  (cs_s th) (cs_e th) (end_ th) (before th) (after th)))
      | TCsS =>
          Next (set_thread s i (mkThread TRead (tx th) (start th) (wait_s th) (wait_e th)
                                  now (cs_e th) (end_ th) (before th) (after th)))
      | TRead =>
          Next (set_thread s i (mkThread TSleep (tx th) (start th) (wait_s th) (wait_e th)
                                  (cs_s th) (cs_e th) (end_ th) (account_balance s) (after th)))
      | TSleep => Next (set_thread s i (at_pc th TCompute))
      | TCompute =>
          Next (set_thread s i (mkThread TWrite (tx th) (start th) (wait_s th) (wait_e th)
                                  (cs_s th) (cs_e th) (end_ th) (before th)
                                  (fsub (before th) (amount (tx th)))))
      | TWrite =>
          Next (mkState (after th) (balance_lock s) (print_lock s)
                        (<[i := at_pc th TCsE]> (threads s))
                        (metrics s) (printed s) (applied s ++ [amount (tx th)]))
      | TCsE =>
          Next (set_thread s i (mkThread TUnlock (tx th) (start th) (wait_s th) (wait_e th)
                                  (cs_s th) now (end_ th) (before th) (after th)))
      | TUnlock =>
          Next (mkState (account_balance s) false (print_lock s)
                        (<[i := at_pc th TEnd]> (threads s))
                        (metrics s) (printed s) (applied s))
      | TEnd =>
          Next (set_thread s i (mkThread TMetrics (tx th) (start th) (wait_s th) (wait_e th)
                                  (cs_s th) (cs_e th) now (before th) (after th)))
      | TMetrics =>
          let idx := tx_id (tx th) - 1 in
          if (0 <=? idx) && (idx <? Z.of_nat (length (metrics s)))
          then Next (mkState (account_balance s) (balance_lock s) (print_lock s)
                             (<[i := at_pc th TPrintLock]> (threads s))
                             (<[Z.to_nat idx :=
                                  mkMetrics (wait_e th - wait_s th) (cs_e th - cs_s th)
                                            (end_ th - start th)]> (metrics s))
                             (printed s) (applied s))
          else Fault
      | TPrintLock =>
          if print_lock s then Blocked
          else Next (mkState (account_balance s) (balance_lock s) true
                             (<[i := at_pc th TPrint]> (threads s))
                             (metrics s) (printed s) (applied s))
      | TPrint =>
          match metrics s !! Z.to_nat (tx_id (tx th) - 1) with
          | Some m =>
              Next (mkState (account_balance s) (balance_lock s) (print_lock s)
                            (<[i := at_pc th TPrintUnlock]> (threads s))
                            (metrics s)
                            (printed s ++ [mkBlock (tx_id (tx th)) (amount (tx th))
                                                   (before th) (after th) m])
                            (applied s))
          | None => Fault
          end
      | TPrintUnlock =>
          Next (mkState (account_balance s) (balance_lock s) false
                        (<[i := at_pc th TDone]> (threads s))
                        (metrics s) (printed s) (applied s))
      | TDone => Halted
      end
  end.

(** Runs a schedule of (thread, clock reading) pairs; [None] as soon as the
    chosen thread cannot move. *)
Fixpoint run (sched : list (nat * Z)) (s : State F) : option (State F) :=
  match sched with
  | [] => Some s
  | (i, now) :: rest =>
      match step i now s with
      | Next s' => run rest s'
      | _ => None
      end
  end.

(** A thread as [pthread_create] starts it; its locals hold no value yet
    ([bal] stands in for the two [double]s). *)
Definition new_thread (bal : F) (t : Transaction F) : Thread F :=
  mkThread TStart t 0 0 0 0 0 0 bal bal.

(** [main] after its [pthread_create] loop, every call having succeeded:
    balance [bal], both mutexes free, [metrics] zeroed, one thread per
    transaction. *)
Definition init (bal : F) (txs : list (Transaction F)) : State F :=
  mkState bal false false (new_thread bal <$> txs)
          (replicate (Z.to_nat N_TX) (mkMetrics 0 0 0)) [] [].

Inductive reachable (bal : F) (txs : list (Transaction F)) : State F -> Prop :=
| reach_init : reachable bal txs (init bal txs)
| reach_step s i now s' :
    reachable bal txs s -> step i now s = Next s' -> reachable bal txs s'.

(** Every thread has returned ([pthread_join] lets [main] go on). *)
Definition all_done (s : State F) : bool :=
  forallb (fun th => match pc th with TDone => true | _ => false end) (threads s).

(** The thread holds [balance_lock]. *)
Definition in_cs (th : Thread F) : bool :=
  match pc th with
  | TWaitE | TCsS | TRead | TSleep | TCompute | TWrite | TCsE | TUnlock => true
  | _ => false
  end.

(** The thread holds [print_lock]. *)
Definition in_print (th : Thread F) : bool :=
  match pc th with TPrint | TPrintUnlock => true | _ => false end.

(** The thread has not yet written its deduction. *)
Definition unwritten (th : Thread F) : bool :=
  match pc th with
  | TStart | TWaitS | TLock | TWaitE | TCsS | TRead | TSleep | TCompute | TWrite => true
  | _ => false
  end.

(** Amounts still to be deducted, in thread order. *)
Definition to_apply (l : list (Thread F)) : list F :=
  (fun th => amount (tx th)) <$> filter (fun th => unwritten th = true) l.

Definition holders (f : Thread F -> bool) (l : list (Thread F)) : nat :=
  length (filter (fun th => f th = true) l).

(** Statements a thread still has to run. *)
Definition t_todo (th : Thread F) : Z :=
  match pc th with
  | TStart => 16 | TWaitS => 15 | TLock => 14 | TWaitE => 13 | TCsS => 12
  | TRead => 11 | TSleep => 10 | TCompute => 9 | TWrite => 8 | TCsE => 7
  | TUnlock => 6 | TEnd => 5 | TMetrics => 4 | TPrintLock => 3 | TPrint => 2
  | TPrintUnlock => 1 | TDone => 0
  end.

(** Statements all threads together still have to run. *)
Definition total_todo (s : State F) : Z :=
  foldr (fun th acc => t_todo th + acc) 0 (threads s).

(** The clock readings of a schedule never go back and stay between [lo]
    and [hi]. *)
Fixpoint clock_ok (lo hi : Z) (sched : list (nat * Z)) : bool :=
  match sched with
  | [] => lo <=? hi
  | (_, now) :: rest => (lo <=? now) && clock_ok now hi rest
  end.

(** What holds of every state the threads can reach: the mutexes are held
    by exactly the threads between lock and unlock, the balance is the
    initial one less the amounts written so far, the amounts written and
    those still to come make up the table, a value read under the lock is
    still the balance, and a thread past its [metrics] store finds its
    record there. *)
Record SInv (bal : F) (txs : list (Transaction F)) (s : State F) : Prop := mkSInv {
  si_txs : tx <$> threads s = txs;
  si_lock : holders in_cs (threads s) = (if balance_lock s then 1 else 0)%nat;
  si_plock : holders in_print (threads s) = (if print_lock s then 1 else 0)%nat;
  si_bal : account_balance s = fold_left fsub (applied s) bal;
  si_perm : applied s ++ to_apply (threads s) ≡ₚ amount <$> txs;
  si_local : forall i th, threads s !! i = Some th ->
               match pc th with
               | TSleep | TCompute => before th = account_balance s
               | TWrite => after th = fsub (account_balance s) (amount (tx th))
               | _ => True
               end;
  si_mlen : length (metrics s) = Z.to_nat N_TX;
  si_mrec : forall i th, threads s !! i = Some th ->
              match pc th with
              | TPrintLock | TPrint | TPrintUnlock | TDone =>
                  metrics s !! i
                  = Some (mkMetrics (wait_e th - wait_s th) (cs_e th - cs_s th)
                                    (end_ th - start th))
              | _ => True
              end
}.

(** The thread has not yet printed its block. *)
Definition unprinted (th : Thread F) : bool :=
  match pc th with TPrintUnlock | TDone => false | _ => true end.

(** Ids of the blocks still to be printed, in thread order. *)
Definition to_print (l : list (Thread F)) : list Z :=
  (fun th => tx_id (tx th)) <$> filter (fun th => unprinted th = true) l.

(** The thread has computed [after]. *)
Definition computed (th : Thread F) : bool :=
  match pc th with
  | TWrite | TCsE | TUnlock | TEnd | TMetrics | TPrintLock | TPrint | TPrintUnlock
  | TDone => true
  | _ => false
  end.

(** The figures of a block agree: after is before less the amount. *)
Definition block_ok (b : Block F) : Prop :=
  b_after b = fsub (b_before b) (b_amount b).

(** What holds of the output: the blocks printed and those still to come
    are one per transaction, and every block's figures agree. *)
Record PInv (txs : list (Transaction F)) (s : State F) : Prop := mkPInv {
  pi_txs : tx <$> threads s = txs;
  pi_ids : (b_id <$> printed s) ++ to_print (threads s) ≡ₚ tx_id <$> txs;
  pi_blocks : Forall block_ok (printed s);
  pi_thread : Forall (fun th => computed th = true ->
                                after th = fsub (before th) (amount (tx th)))
                     (threads s)
}.

(** The readings a thread has taken so far are in the order it took them,
    between [lo] and the latest reading [last] of the clock. *)
Definition timed (lo last : Z) (th : Thread F) : Prop :=
  match pc th with
  | TStart => True
  | TWaitS => lo <= start th <= last
  | TLock | TWaitE => lo <= start th /\ start th <= wait_s th <= last
  | TCsS => lo <= start th /\ start th <= wait_s th /\ wait_s th <= wait_e th <= last
  | TRead | TSleep | TCompute | TWrite | TCsE =>
      lo <= start th /\ start th <= wait_s th /\ wait_s th <= wait_e th /\
      wait_e th <= cs_s th <= last
  | TUnlock | TEnd =>
      lo <= start th /\ start th <= wait_s th /\ wait_s th <= wait_e th /\
      wait_e th <= cs_s th /\ cs_s th <= cs_e th <= last
  | TMetrics | TPrintLock | TPrint | TPrintUnlock | TDone =>
      lo <= start th /\ start th <= wait_s th /\ wait_s th <= wait_e th /\
      wait_e th <= cs_s th /\ cs_s th <= cs_e th /\ cs_e th <= end_ th <= last
  end.

End Model.

(** A record of durations that fits a run of length at most [d]. *)
Definition mgood (d : Z) (m : Metrics) : Prop :=
  0 <= lock_wait_us m /\ 0 <= cs_time_us m /\
  lock_wait_us m + cs_time_us m <= total_time_us m /\ total_time_us m <= d.

(** [main]'s table: three transactions on a balance of 10000. *)
Definition txs_Z : list (Transaction Z) :=
  [mkTransaction 1 1000; mkTransaction 2 500; mkTransaction 3 1200].

(** The three threads one after the other, clock readings [0, 1, ...]. *)
Definition one_by_one : list (nat * Z) :=
  (fun k => (Z.to_nat (k / 16), k)) <$> seqZ 0 48.

(** The first thread takes the lock and goes to sleep in its critical
    section while the second one arrives at the lock. *)
Definition contended : list (nat * Z) :=
  [(0%nat, 0); (0%nat, 1); (0%nat, 2); (1%nat, 3); (1%nat, 4);
   (0%nat, 5); (0%nat, 6); (0%nat, 7)].

(** ** The summary: [stats] / [print_avg_min_max] *)

Definition LLONG_MIN : Z := - 2 ^ 63.

(** [long long] addition; [None] stands for signed overflow. *)
Definition ll_add (a b : Z) : option Z :=
  if (LLONG_MIN <=? a + b) && (a + b <=? LLONG_MAX) then Some (a + b) else None.

(** The loop of [stats] (lines 485-495; the same loop is in
    [print_avg_min_max], lines 355-364) over [arr[i .. i+k)]. *)
Fixpoint stats_loop (k : nat) (i : Z) (arr : list Z) (sum mn mx : Z)
  : option (Z * Z * Z) :=
  match k with
  | O => Some (sum, mn, mx)
  | S k' =>
      x ← arr !! Z.to_nat i;
      sum' ← ll_add sum x;
      stats_loop k' (i + 1) arr sum'
                 (if x <? mn then x else mn) (if mx <? x then x else mx)
  end.

(** [stats(arr, n, &avg, &mn, &mx)]: average, minimum, maximum.  [None]:
    an access outside [arr], an overflow of [sum], or the division by
    [n = 0]. *)
Definition stats (arr : list Z) (n : Z) : option (Z * Z * Z) :=
  a0 ← arr !! 0%nat;
  r ← stats_loop (Z.to_nat n) 0 arr 0 a0 a0;
  let '(sum, mn, mx) := r in
  if n =? 0 then None else Some (Z.quot sum n, mn, mx).

(** An (average, minimum, maximum) triple of durations that fits a run of
    length at most [d]. *)
Definition in_order (d : Z) (r : Z * Z * Z) : Prop :=
  let '(avg, mn, mx) := r in 0 <= mn /\ mn <= avg /\ avg <= mx /\ mx <= d.

(** The summary [main] computes after the joins (lines 592-604): the three
    columns of [metrics], each through [stats]. *)
Definition summary {F : Type} (s : State F)
  : option ((Z * Z * Z) * (Z * Z * Z) * (Z * Z * Z)) :=
  lw ← stats (lock_wait_us <$> metrics s) N_TX;
  cs ← stats (cs_time_us <$> metrics s) N_TX;
  tt ← stats (total_time_us <$> metrics s) N_TX;
  Some (lw, cs, tt).

End Sync.


(* ================================================================== *)
(** * Properties of the integrity auditor *)

Lemma u8_range x : 0 <= u8 x < 256.
Proof. unfold u8. apply Z.mod_pos_bound. lia. Qed.

Lemma u8_small x : 0 <= x < 256 -> u8 x = x.
Proof. intros H. unfold u8. apply Z.mod_small. lia. Qed.

Lemma u8_succ x : u8 (u8 x + 1) = u8 (1 + x).
Proof.
  unfold u8. rewrite Zplus_mod_idemp_l. f_equal. lia.
Qed.

Lemma u32_small x : 0 <= x <= INT_MAX -> u32 x = x.
Proof. intros H. unfold u32. apply Z.mod_small. unfold INT_MAX in H. lia. Qed.

Lemma occurrences_nonneg id ids : 0 <= occurrences id ids.
Proof. induction ids as [|x r IH]; simpl; [lia|]. destruct (x =? id); lia. Qed.

Lemma occurrences_le_length id ids : occurrences id ids <= Z.of_nat (length ids).
Proof. induction ids as [|x r IH]; simpl; [lia|]. destruct (x =? id); lia. Qed.

Lemma occurrences_replicate id k : occurrences id (replicate k id) = Z.of_nat k.
Proof. induction k as [|k IH]; simpl; [done|]. rewrite Z.eqb_refl. lia. Qed.

Lemma sum_over_ext f g l :
  (forall id, id ∈ l -> f id = g id) -> sum_over f l = sum_over g l.
Proof.
  induction l as [|x l IH]; intros H; simpl; [done|].
  rewrite (H x) by apply list_elem_of_here.
  rewrite IH; [done|]. intros id Hid. apply H. by apply list_elem_of_further.
Qed.

Lemma sum_over_le f g l :
  (forall id, id ∈ l -> f id <= g id) -> sum_over f l <= sum_over g l.
Proof.
  induction l as [|x l IH]; intros H; simpl; [lia|].
  specialize (H x (list_elem_of_here _ _)) as Hx.
  assert (sum_over f l <= sum_over g l).
  { apply IH. intros id Hid. apply H. by apply list_elem_of_further. }
  lia.
Qed.

Lemma sum_over_nonneg f l : (forall id, 0 <= f id) -> 0 <= sum_over f l.
Proof. intros H. induction l as [|x l IH]; simpl; [lia|]. specialize (H x). lia. Qed.

Lemma sum_over_plus f g l :
  sum_over (fun id => f id + g id) l = sum_over f l + sum_over g l.
Proof. induction l as [|x l IH]; simpl; [done|]. rewrite IH. lia. Qed.

Lemma sum_over_zero f l : (forall id, id ∈ l -> f id = 0) -> sum_over f l = 0.
Proof.
  intros H. induction l as [|x l IH]; simpl; [done|].
  rewrite (H x) by apply list_elem_of_here. rewrite IH; [done|].
  intros id Hid. apply H. by apply list_elem_of_further.
Qed.

(** An id is counted at most once along a duplicate-free list. *)
Lemma sum_over_indicator x l :
  NoDup l -> sum_over (fun id => if x =? id then 1 else 0) l <= 1.
Proof.
  induction 1 as [|y l Hy Hnd IH]; simpl; [lia|].
  destruct (x =? y) eqn:E; [|lia].
  apply Z.eqb_eq in E. subst y.
  rewrite sum_over_zero; [lia|].
  intros id Hid. destruct (x =? id) eqn:E'; [|done].
  apply Z.eqb_eq in E'. subst id. contradiction.
Qed.

(** The occurrences of pairwise different ids add up to at most the length
    of the sequence. *)
Lemma sum_occurrences_le l ids :
  NoDup l -> sum_over (fun id => occurrences id ids) l <= Z.of_nat (length ids).
Proof.
  intros Hnd. induction ids as [|x r IH]; simpl.
  - rewrite sum_over_zero; [lia|done].
  - rewrite sum_over_plus. pose proof (sum_over_indicator x l Hnd). lia.
Qed.

Lemma sum_duplicate_wrapped_le l ids :
  NoDup l -> sum_duplicate (wrapped ids) l <= Z.of_nat (length ids).
Proof.
  intros Hnd. etrans; [|apply (sum_occurrences_le l ids Hnd)].
  apply sum_over_le. intros id _. unfold wrapped, u8.
  pose proof (occurrences_nonneg id ids).
  pose proof (Z.mod_le (occurrences id ids) (2 ^ 8)).
  pose proof (Z.mod_pos_bound (occurrences id ids) (2 ^ 8)). lia.
Qed.

Lemma calloc_size_int n : 0 <= n <= INT_MAX -> calloc_size n = n + 1.
Proof.
  intros H. unfold calloc_size, u64, INT_MAX in *.
  rewrite (Z.mod_small n) by lia. apply Z.mod_small. lia.
Qed.

Lemma calloc_fits_size n :
  - INT_MAX - 1 <= n <= INT_MAX -> calloc_fits n = (calloc_size n <=? 2 ^ 63 - 1).
Proof.
  intros H. unfold calloc_fits, calloc_size, u64, INT_MAX in *.
  destruct (Z_le_gt_dec 0 n) as [H0|H0].
  - rewrite (Z.mod_small n) by lia. rewrite (Z.mod_small (n + 1)) by lia. lia.
  - replace (n mod 2 ^ 64) with (n + 2 ^ 64)
      by (apply (Z.mod_unique _ _ (-1)); lia).
    destruct (Z.eq_dec n (-1)) as [->|Hne]; [reflexivity|].
    rewrite (Z.mod_small (n + 2 ^ 64 + 1)) by lia. lia.
Qed.

Lemma counts_calloc n : 0 <= n <= INT_MAX -> counts n (calloc_seen n) (fun _ => 0).
Proof.
  intros Hn. unfold calloc_seen. rewrite calloc_size_int by done.
  split; [apply length_replicate|].
  intros id Hid. rewrite lookup_replicate_2 by lia. done.
Qed.

(** A record whose id is not in [1, n] leaves the presence array alone. *)
Lemma observe_out_of_range n seen id :
  0 < n <= INT_MAX -> ~ (1 <= id <= n) -> observe n seen id = Some seen.
Proof.
  intros Hn Hid. unfold observe. rewrite u32_small by lia.
  destruct (1 <=? id) eqn:E1; [|done].
  destruct (id <=? n) eqn:E2; [|done]. lia.
Qed.

Lemma observe_in_range n seen id c :
  0 < n <= INT_MAX -> 1 <= id <= n -> seen !! Z.to_nat id = Some c ->
  observe n seen id = Some (<[Z.to_nat id := u8 (c + 1)]> seen).
Proof.
  intros Hn Hid Hc. unfold observe, seen_incr. rewrite u32_small by lia.
  replace (1 <=? id) with true by lia. replace (id <=? n) with true by lia.
  simpl. by rewrite Hc.
Qed.

Lemma observe_counts n seen f x :
  0 < n <= INT_MAX -> counts n seen f ->
  exists seen', observe n seen x = Some seen' /\
                counts n seen' (fun id => (if x =? id then 1 else 0) + f id).
Proof.
  intros Hn [Hlen Hf].
  destruct (decide (1 <= x <= n)) as [Hx|Hx].
  - exists (<[Z.to_nat x := u8 (u8 (f x) + 1)]> seen). split.
    + apply observe_in_range; auto.
    + split; [by rewrite length_insert|].
      intros id Hid. destruct (x =? id) eqn:E.
      * apply Z.eqb_eq in E. subst id.
        rewrite list_lookup_insert_eq by lia. by rewrite u8_succ.
      * apply Z.eqb_neq in E. rewrite list_lookup_insert_ne by lia.
        rewrite Hf by done. done.
  - exists seen. split; [by apply observe_out_of_range|].
    split; [done|]. intros id Hid.
    replace (x =? id) with false by lia. by rewrite Hf.
Qed.

Lemma observe_all_counts n ids : forall seen f,
  0 < n <= INT_MAX -> counts n seen f ->
  exists seen', observe_all n seen ids = Some seen' /\
                counts n seen' (fun id => occurrences id ids + f id).
Proof.
  induction ids as [|x r IH]; intros seen f Hn Hc; simpl.
  - exists seen. split; [done|]. destruct Hc as [Hl Hf]. split; [done|].
    intros id Hid. by rewrite Hf.
  - destruct (observe_counts n seen f x Hn Hc) as (seen1 & -> & Hc1).
    destruct (IH seen1 _ Hn Hc1) as (seen2 & -> & [Hl2 Hf2]).
    exists seen2. split; [done|]. split; [done|].
    intros id Hid. rewrite Hf2 by done. f_equal. f_equal. lia.
Qed.

Lemma count_missing_cons cnt x l :
  count_missing cnt (x :: l) = (if cnt x =? 0 then 1 else 0) + count_missing cnt l.
Proof. reflexivity. Qed.

Lemma sum_duplicate_cons cnt x l :
  sum_duplicate cnt (x :: l) = Z.max (cnt x - 1) 0 + sum_duplicate cnt l.
Proof. reflexivity. Qed.

Lemma sum_duplicate_nonneg cnt l : 0 <= sum_duplicate cnt l.
Proof. apply sum_over_nonneg. intros id. lia. Qed.

Lemma int_add_ok a b : a + b <= INT_MAX -> int_add a b = Some (a + b).
Proof. intros H. unfold int_add. by replace (a + b <=? INT_MAX) with true by lia. Qed.

(** The reporting loop computes the two sums over the stored counters, and
    stays inside [int] as long as the results do. *)
Lemma audit_loop_sums cnt seen : forall k id missing duplicates,
  (forall j, id <= j < id + Z.of_nat k -> seen !! Z.to_nat j = Some (cnt j)) ->
  (forall j, 0 <= cnt j) ->
  id + Z.of_nat k <= INT_MAX ->
  missing + Z.of_nat k <= INT_MAX ->
  duplicates + sum_duplicate cnt (seqZ id (Z.of_nat k)) <= INT_MAX ->
  audit_loop k id seen missing duplicates =
    Some (missing + count_missing cnt (seqZ id (Z.of_nat k)),
          duplicates + sum_duplicate cnt (seqZ id (Z.of_nat k))).
Proof.
  induction k as [|k IH]; intros id missing duplicates Hs Hc Hid Hm Hd.
  - simpl. f_equal. f_equal; unfold count_missing, sum_duplicate; simpl; lia.
  - rewrite seqZ_cons in * by lia.
    replace (Z.pred (Z.of_nat (S k))) with (Z.of_nat k) in * by lia.
    rewrite count_missing_cons, sum_duplicate_cons in *.
    pose proof (sum_duplicate_nonneg cnt (seqZ (Z.succ id) (Z.of_nat k))) as Hnn.
    pose proof (Hc id) as Hcid.
    cbn [audit_loop]. rewrite (Hs id) by lia. cbn [mbind option_bind].
    rewrite (int_add_ok id 1) by lia.
    assert (forall j, Z.succ id <= j < Z.succ id + Z.of_nat k ->
                      seen !! Z.to_nat j = Some (cnt j)) as Hs'.
    { intros j Hj. apply Hs. lia. }
    destruct (cnt id =? 0) eqn:E0; destruct (1 <? cnt id) eqn:E1; try lia.
    + rewrite int_add_ok by lia. cbn [mbind option_bind].
      replace (id + 1) with (Z.succ id) by lia.
      rewrite IH by (done || lia). f_equal. f_equal; lia.
    + rewrite int_add_ok by lia. cbn [mbind option_bind].
      replace (id + 1) with (Z.succ id) by lia.
      rewrite IH by (done || lia). f_equal. f_equal; lia.
    + cbn [mbind option_bind].
      replace (id + 1) with (Z.succ id) by lia.
      rewrite IH by (done || lia). f_equal. f_equal; lia.
Qed.

Lemma count_missing_bounds cnt l :
  0 <= count_missing cnt l <= Z.of_nat (length l).
Proof.
  unfold count_missing. induction l as [|x l IH]; simpl; [lia|].
  destruct (cnt x =? 0); lia.
Qed.

(** What the auditor reports: the two sums over the 8-bit counters.  It
    never faults and never overflows [int]. *)
Lemma auditor_code n ids :
  0 < n < INT_MAX -> Z.of_nat (length ids) <= INT_MAX ->
  auditor n ids = Some (code_missing n ids, code_duplicate n ids).
Proof.
  intros Hn Hlen. unfold auditor.
  destruct (observe_all_counts n ids (calloc_seen n) (fun _ => 0)) as (seen & -> & [Hl Hf]);
    [lia | apply counts_calloc; lia |].
  simpl. unfold integrity_check.
  pose proof (sum_duplicate_wrapped_le (seqZ 1 n) ids (NoDup_seqZ 1 n)) as Hsum.
  rewrite (audit_loop_sums (wrapped ids)); rewrite ?Z2Nat.id by lia; try lia.
  - done.
  - intros j Hj. rewrite Hf by lia. unfold wrapped. do 2 f_equal. lia.
  - intros j. apply u8_range.
Qed.

(** When no id is seen more than 255 times the 8-bit counters are exact and
    the report is the one the contract asks for. *)
Lemma auditor_exact n ids :
  0 < n < INT_MAX -> Z.of_nat (length ids) <= INT_MAX ->
  (forall id, 1 <= id <= n -> occurrences id ids <= 255) ->
  auditor n ids = Some (spec_missing n ids, spec_duplicate n ids).
Proof.
  intros Hn Hlen Hocc. rewrite auditor_code by done.
  unfold code_missing, code_duplicate, spec_missing, spec_duplicate,
    count_missing, sum_duplicate.
  f_equal. f_equal; apply sum_over_ext; intros id Hid;
    apply elem_of_seqZ in Hid; unfold wrapped;
    (rewrite u8_small; [done|]);
    pose proof (occurrences_nonneg id ids); specialize (Hocc id); lia.
Qed.

Lemma advance_cursor x :
  u32 (x mod RING_CAP + 1) mod RING_CAP = (x + 1) mod RING_CAP.
Proof.
  unfold u32, RING_CAP.
  pose proof (Z.mod_pos_bound x 1024 ltac:(lia)).
  rewrite (Z.mod_small (x mod 1024 + 1)) by lia.
  rewrite Zplus_mod_idemp_l. done.
Qed.

Lemma sem_wait_Some v v' : sem_wait v = Some v' -> 0 < v /\ v' = v - 1.
Proof. unfold sem_wait. destruct (0 <? v) eqn:E; [|done]. intros [= <-]. lia. Qed.

Lemma sem_wait_None v : sem_wait v = None -> v <= 0.
Proof. unfold sem_wait. destruct (0 <? v) eqn:E; [done|]. lia. Qed.

Lemma Inv_sync_init g n : Inv_sync g (init g n).
Proof.
  constructor; simpl; try done; try lia.
Qed.

Ltac inv_step H :=
  repeat match type of H with
         | (if ?b then _ else _) = _ => destruct b eqn:?
         | match ?x with _ => _ end = _ => destruct x eqn:?
         | Next _ = Next _ => injection H as <-
         | _ => discriminate H
         end.

Ltac unfold_counters :=
  unfold p_in_flight, c_in_flight, p_acquired, p_written, p_advanced, p_posted,
    p_in_cs, c_taken, c_read, c_advanced, c_returned, c_in_cs,
    sem_post in *.

Ltac sync_case :=
  repeat match goal with
         | H : sem_wait _ = Some _ |- _ => apply sem_wait_Some in H
         end;
  constructor; unfold_counters; simpl in *; simplify_eq;
  rewrite ?length_insert, ?advance_cursor;
  first [ done | lia | f_equal; lia | intros; lia ].

Lemma Inv_sync_producer g n t s s' :
  Inv_sync g s -> step_producer g n t s = Next s' -> Inv_sync g s'.
Proof.
  intros [] Hstep. destruct s as [[h tl b] [se sf sm] [ppc pi pt0 pm pst] c tr].
  unfold step_producer in Hstep. simpl in *.
  destruct ppc; inv_step Hstep; sync_case.
Qed.

Lemma Inv_sync_consumer g n t s s' :
  Inv_sync g s -> step_consumer g n t s = Next s' -> Inv_sync g s'.
Proof.
  intros [] Hstep. destruct s as [[h tl b] [se sf sm] p [cpc ci ct0 cm cseen cst crep] tr].
  unfold step_consumer in Hstep. simpl in *.
  destruct cpc; inv_step Hstep; sync_case.
Qed.

Lemma sys_step_cases g n t s s' :
  sys_step g n t s = Next s' ->
  exists s1, (step_producer g n (now t) s = Next s1 \/ step_consumer g n (now t) s = Next s1) /\
             ring s' = ring s1 /\ sems s' = sems s1 /\
             producer s' = producer s1 /\ consumer s' = consumer s1.
Proof.
  unfold sys_step. intros H.
  destruct (who t).
  - destruct (step_producer g n (now t) s) as [s1| | |] eqn:E; try done.
    injection H as <-. exists s1. auto.
  - destruct (step_consumer g n (now t) s) as [s1| | |] eqn:E; try done.
    injection H as <-. exists s1. auto.
Qed.

Lemma Inv_sync_same g s s' :
  ring s' = ring s -> sems s' = sems s ->
  producer s' = producer s -> consumer s' = consumer s ->
  Inv_sync g s -> Inv_sync g s'.
Proof. intros Hr Hs Hp Hc []. constructor; rewrite ?Hr, ?Hs, ?Hp, ?Hc; done. Qed.

Lemma Inv_sync_reachable g n s : reachable g n s -> Inv_sync g s.
Proof.
  induction 1 as [|s t s' _ IH Hstep]; [apply Inv_sync_init|].
  apply sys_step_cases in Hstep as (s1 & Hs1 & Hr & Hs & Hp & Hc).
  apply (Inv_sync_same g s1); try done.
  destruct Hs1; [by eapply Inv_sync_producer | by eapply Inv_sync_consumer].
Qed.

Lemma enqueued_app tr1 tr2 : enqueued (tr1 ++ tr2) = enqueued tr1 ++ enqueued tr2.
Proof.
  induction tr1 as [|l tr1 IH]; simpl; [done|].
  destruct l as [[] ? ? ?|? ? ? ?]; simpl; by rewrite IH.
Qed.

Lemma dequeued_app tr1 tr2 : dequeued (tr1 ++ tr2) = dequeued tr1 ++ dequeued tr2.
Proof.
  induction tr1 as [|l tr1 IH]; simpl; [done|].
  destruct l as [? ? ? ?|[] ? ? ?]; simpl; by rewrite IH.
Qed.

Arguments make_msg : simpl never.
Arguments integrity_check : simpl never.
Arguments observe : simpl never.
Arguments zero_ring : simpl never.
Arguments calloc_seen : simpl never.

Lemma make_msg_fields i t :
  0 <= i < INT_MAX ->
  tx_id (make_msg i t) = i + 1 /\
  type (make_msg i t) = i mod 5 /\
  amount_pence (make_msg i t) = (1000 + i mod 500) * 100.
Proof.
  intros Hi. unfold make_msg, INT_MAX in *. simpl.
  pose proof (Z.mod_pos_bound i 5 ltac:(lia)).
  pose proof (Z.mod_pos_bound i 500 ltac:(lia)).
  unfold u32, u64.
  rewrite (Z.mod_small (i + 1)), (Z.mod_small (i mod 5) (2 ^ 32)),
    (Z.mod_small (1000 + i mod 500)), (Z.mod_small ((1000 + i mod 500) * 100)) by lia.
  done.
Qed.

Lemma Inv_data_init g n : 0 < n <= INT_MAX -> Inv_data n (init g n).
Proof.
  intros Hn. constructor; cbn -[zero_ring calloc_seen]; try done; try lia.
  - intros k Hk. unfold c_returned, p_written in Hk. simpl in Hk. lia.
  - unfold calloc_seen. rewrite calloc_size_int by lia. apply length_replicate.
  - intros id Hid. unfold calloc_seen. rewrite calloc_size_int by lia.
    rewrite lookup_replicate_2 by lia.
    by replace (id <=? 0) with false by lia.
Qed.

(** Two positions less than a ring apart do not share a slot. *)
Lemma slots_differ j k :
  0 < k - j < RING_CAP -> Z.to_nat (j mod RING_CAP) <> Z.to_nat (k mod RING_CAP).
Proof.
  unfold RING_CAP. intros H E.
  pose proof (Z.mod_pos_bound j 1024 ltac:(lia)).
  pose proof (Z.mod_pos_bound k 1024 ltac:(lia)).
  assert (j mod 1024 = k mod 1024) as E' by lia.
  pose proof (Z.div_mod j 1024 ltac:(lia)).
  pose proof (Z.div_mod k 1024 ltac:(lia)).
  assert (k - j = 1024 * (k / 1024 - j / 1024)) by lia.
  nia.
Qed.

Lemma slot_in_range {A} k (b : list A) :
  length b = Z.to_nat RING_CAP -> (Z.to_nat (k mod RING_CAP) < length b)%nat.
Proof.
  intros ->. unfold RING_CAP. pose proof (Z.mod_pos_bound k 1024 ltac:(lia)). lia.
Qed.

Lemma producer_chain p :
  p_i p <= p_posted p <= p_advanced p /\ p_advanced p <= p_written p
  /\ p_written p <= p_acquired p <= p_i p + 1.
Proof. destruct p as [[] ? ? ? ?]; unfold_counters; simpl; lia. Qed.

Lemma consumer_chain c :
  c_i c <= c_returned c <= c_advanced c /\ c_advanced c <= c_read c
  /\ c_read c <= c_taken c <= c_i c + 1.
Proof. destruct c as [[] ? ? ? ? ? ?]; unfold_counters; simpl; lia. Qed.

Lemma Inv_data_producer g n t s s1 :
  0 < n <= INT_MAX -> Inv_sync g s -> Inv_data n s ->
  step_producer g n t s = Next s1 ->
  Inv_data n (log s s1 (LProd (p_pc (producer s)) (p_i (producer s)) t
                              (p_msg (producer s1)))).
Proof.
  intros Hn Hsync [] Hstep.
  destruct s as [[h tl b] [se sf sm] [ppc pi pt0 pm pst] c tr].
  destruct Hsync as [Hpi Hci He Hf Hen Hfn Hm Hmn Hh Ht Hb].
  pose proof (consumer_chain c) as Hcc.
  unfold step_producer in Hstep. unfold log. simpl in *.
  destruct ppc; inv_step Hstep; simpl;
    (constructor; simpl; rewrite ?enqueued_app, ?dequeued_app; simpl; rewrite ?app_nil_r;
     unfold p_running, p_written, p_posted, p_advanced, p_acquired in *; simpl in *;
     first [ done | lia | intros; lia | idtac ]).
  all: try (intros; by eauto).
  - (* the store: one more record in the history *)
    rewrite length_app. simpl. lia.
  - intros k m Hk. destruct (decide (k < length (enqueued tr))%nat) as [Hlt|Hge].
    + rewrite lookup_app_l in Hk by done. eauto.
    + rewrite lookup_app_r in Hk by lia.
      destruct (k - length (enqueued tr))%nat as [|k'] eqn:Ek; [|done].
      injection Hk as <-. destruct (id_pmsg0 eq_refl) as [ts ->].
      exists ts. f_equal. lia.
  - (* the store leaves every unread slot alone *)
    intros k Hk. subst h.
    replace (pi + 0) with pi by lia.
    destruct (decide (k = pi)) as [->|Hne].
    + rewrite list_lookup_insert_eq by (by apply slot_in_range).
      rewrite lookup_app_r by lia.
      by replace (Z.to_nat pi - length (enqueued tr))%nat with 0%nat by lia.
    + rewrite list_lookup_insert_ne by (apply not_eq_sym, slots_differ; lia).
      rewrite lookup_app_l by lia. apply id_slots0. lia.
  - intros Hr. rewrite lookup_app_l by lia. auto.
  - rewrite take_app_le by lia. done.
  - intros k Hk. apply id_slots0. lia.
Qed.

(** Every id of [1, n] seen exactly once: nothing missing, nothing repeated. *)
Lemma integrity_check_all_once n seen :
  0 < n < INT_MAX ->
  (forall id, 1 <= id <= n -> seen !! Z.to_nat id = Some 1) ->
  integrity_check n seen = Some (0, 0).
Proof.
  intros Hn Hseen. unfold integrity_check.
  assert (count_missing (fun _ => 1) (seqZ 1 n) = 0) as Hm.
  { apply sum_over_zero. done. }
  assert (sum_duplicate (fun _ => 1) (seqZ 1 n) = 0) as Hd.
  { apply sum_over_zero. done. }
  rewrite (audit_loop_sums (fun _ => 1)); rewrite ?Z2Nat.id by lia;
    rewrite ?Hm, ?Hd; try done; try lia.
  intros j Hj. apply Hseen. lia.
Qed.

Lemma Inv_data_consumer g n t s s1 :
  0 < n <= INT_MAX -> Inv_sync g s -> Inv_data n s ->
  step_consumer g n t s = Next s1 ->
  Inv_data n (log s s1 (LCons (c_pc (consumer s)) (c_i (consumer s)) t
                              (c_msg (consumer s1)))).
Proof.
  intros Hn Hsync [] Hstep.
  destruct s as [[h tl b] [se sf sm] p [cpc ci ct0 cm cseen cst crep] tr].
  destruct Hsync as [Hpi Hci He Hf Hen Hfn Hm Hmn Hh Ht Hb].
  pose proof (producer_chain p) as Hpc.
  unfold step_consumer in Hstep. unfold log. simpl in *.
  destruct cpc; inv_step Hstep; simpl;
    (constructor; simpl; rewrite ?enqueued_app, ?dequeued_app; simpl; rewrite ?app_nil_r;
     unfold c_running, c_read, c_taken, c_advanced, c_returned in *; simpl in *;
     first [ done | lia | intros; lia | idtac ]).
  all: try (intros; by eauto).
  - (* the copy reads the oldest unread record *)
    intros _. rewrite <- id_slots0 by lia. subst tl.
    replace (ci + 0) with ci in * by lia. done.
  - assert (enqueued tr !! Z.to_nat ci = Some t0) as Hlk.
    { rewrite <- id_slots0 by lia. subst tl. by replace (ci + 0) with ci in * by lia. }
    replace (Z.to_nat (ci + 1)) with (S (Z.to_nat ci)) by lia.
    rewrite (take_S_r _ _ _ Hlk). rewrite id_deq0. do 2 f_equal. lia.
  - intros k Hk. apply id_slots0. lia.
  - intros k Hk. apply id_slots0. lia.
  - rewrite id_deq0. do 2 f_equal. lia.
  - (* validation: the record read in iteration ci carries id ci + 1 *)
    destruct (id_enq0 _ _ (id_cmsg0 eq_refl)) as [ts Hcm].
    assert (tx_id cm = ci + 1) as Hid.
    { rewrite Hcm, Z2Nat.id by lia. apply make_msg_fields. specialize (id_crun0 eq_refl). lia. }
    specialize (id_crun0 eq_refl).
    match goal with H : observe _ _ _ = Some _ |- _ =>
      rewrite Hid in H;
      rewrite (observe_in_range n cseen (ci + 1) 0) in H;
        [injection H as <- | lia | lia |] end.
    + by rewrite length_insert.
    + rewrite id_seen0 by lia. by replace (ci + 1 <=? ci) with false by lia.
  - destruct (id_enq0 _ _ (id_cmsg0 eq_refl)) as [ts Hcm].
    assert (tx_id cm = ci + 1) as Hid.
    { rewrite Hcm, Z2Nat.id by lia. apply make_msg_fields. specialize (id_crun0 eq_refl). lia. }
    specialize (id_crun0 eq_refl).
    match goal with H : observe _ _ _ = Some _ |- _ =>
      rewrite Hid in H;
      rewrite (observe_in_range n cseen (ci + 1) 0) in H;
        [injection H as <- | lia | lia |] end.
    + intros id Hr. destruct (decide (id = ci + 1)) as [->|Hne].
      * rewrite list_lookup_insert_eq by lia.
        by replace (ci + 1 <=? ci + 1) with true by lia.
      * rewrite list_lookup_insert_ne by lia. rewrite id_seen0 by done.
        destruct (id <=? ci) eqn:E1; destruct (id <=? ci + 1) eqn:E2; try done; lia.
    + rewrite id_seen0 by lia. by replace (ci + 1 <=? ci) with false by lia.
Qed.

Lemma Inv_data_reachable g n s :
  0 < n <= INT_MAX -> reachable g n s -> Inv_data n s.
Proof.
  intros Hn. induction 1 as [|s t s' Hr IH Hstep]; [apply Inv_data_init; lia|].
  pose proof (Inv_sync_reachable g n s Hr) as Hsync.
  unfold sys_step in Hstep. destruct (who t).
  - destruct (step_producer g n (now t) s) as [s1| | |] eqn:E; try done.
    injection Hstep as <-. by eapply Inv_data_producer.
  - destruct (step_consumer g n (now t) s) as [s1| | |] eqn:E; try done.
    injection Hstep as <-. by eapply Inv_data_consumer.
Qed.

(** ** No undefined behaviour, no deadlock, termination *)

Lemma producer_no_fault g n t s :
  Inv_sync g s -> step_producer g n t s <> Fault.
Proof.
  intros [Hpi Hci He Hf Hen Hfn Hm Hmn Hh Ht Hb].
  destruct s as [[h tl b] [se sf sm] [ppc pi pt0 pm pst] c tr].
  unfold step_producer. simpl in *.
  destruct ppc; simpl; try done.
  - by destruct (pi <? n).
  - by destruct (sem_wait se).
  - destruct g; [done|]. rewrite Hm. by destruct (sem_wait _).
  - destruct (lookup_lt_is_Some_2 b (Z.to_nat h)) as [m ->]; [|done].
    subst h. by apply slot_in_range.
  - destruct g; [done|]. by rewrite Hm.
Qed.

Lemma consumer_no_fault g n t s :
  0 < n < INT_MAX -> Inv_sync g s -> Inv_data n s ->
  step_consumer g n t s <> Fault.
Proof.
  intros Hn [Hpi Hci He Hf Hen Hfn Hm Hmn Hh Ht Hb] Hd.
  destruct s as [[h tl b] [se sf sm] p [cpc ci ct0 cm cseen cst crep] tr].
  destruct Hd. unfold step_consumer. simpl in *.
  destruct cpc; simpl; try done.
  - destruct (ci <? n) eqn:E; [done|].
    rewrite integrity_check_all_once; [done|done|].
    intros id Hid. rewrite id_seen0 by done. by replace (id <=? ci) with true by lia.
  - by destruct (sem_wait sf).
  - destruct g; [done|]. rewrite Hm. by destruct (sem_wait _).
  - destruct (lookup_lt_is_Some_2 b (Z.to_nat tl)) as [m ->]; [|done].
    subst tl. by apply slot_in_range.
  - destruct g; [done|]. by rewrite Hm.
  - destruct (id_enq0 _ _ (id_cmsg0 eq_refl)) as [ts Hcm].
    specialize (id_crun0 eq_refl).
    assert (tx_id cm = ci + 1) as Hid.
    { rewrite Hcm, Z2Nat.id by lia. apply make_msg_fields. lia. }
    rewrite Hid, (observe_in_range n cseen (ci + 1) 0); [done|lia|lia|].
    rewrite id_seen0 by lia. by replace (ci + 1 <=? ci) with false by lia.
Qed.

Lemma p_enabled_step g n t s :
  Inv_sync g s -> p_enabled g s = true -> exists s', step_producer g n t s = Next s'.
Proof.
  intros Hs He. pose proof (producer_no_fault g n t s Hs) as Hnf.
  destruct s as [[h tl b] [se sf sm] [ppc pi pt0 pm pst] c tr].
  unfold p_enabled, step_producer in *. simpl in *.
  destruct ppc; simpl in *; try done; unfold sem_wait in *;
    repeat match goal with
           | |- context [if ?b then _ else _] => destruct b eqn:?
           | |- context [match ?x with _ => _ end] => destruct x eqn:?
           end; simpl in *; try done; try congruence; eauto.
Qed.

Lemma c_enabled_step g n t s :
  0 < n < INT_MAX -> Inv_sync g s -> Inv_data n s ->
  c_enabled g s = true -> exists s', step_consumer g n t s = Next s'.
Proof.
  intros Hn Hs Hd He. pose proof (consumer_no_fault g n t s Hn Hs Hd) as Hnf.
  destruct s as [[h tl b] [se sf sm] p [cpc ci ct0 cm cseen cst crep] tr].
  unfold c_enabled, step_consumer in *. simpl in *.
  destruct cpc; simpl in *; try done; unfold sem_wait in *;
    repeat match goal with
           | |- context [if ?b then _ else _] => destruct b eqn:?
           | |- context [match ?x with _ => _ end] => destruct x eqn:?
           end; simpl in *; try done; try congruence; eauto.
Qed.

(** Unless both loops are over, one of the two processes can move. *)
Lemma someone_enabled g n s :
  0 < n < INT_MAX -> Inv_sync g s -> Inv_data n s ->
  final s = false -> p_enabled g s = true \/ c_enabled g s = true.
Proof.
  intros Hn [Hpi Hci He Hf Hen Hfn Hm Hmn Hh Ht Hb] Hd Hfin.
  destruct Hd.
  destruct s as [[h tl b] [se sf sm] [ppc pi pt0 pm pst] [cpc ci ct0 cm cseen cst crep] tr].
  unfold p_enabled, c_enabled, final, p_running, c_running in *.
  unfold_counters. unfold RING_CAP in *. simpl in *.
  destruct ppc; auto; destruct cpc; auto; simpl in *; try done;
    try specialize (id_prun0 eq_refl); try specialize (id_crun0 eq_refl);
    try specialize (id_pdone0 eq_refl); try specialize (id_cdone0 eq_refl);
    destruct g; simpl in *; subst; simpl; try specialize (Hmn eq_refl);
    try (left; lia); try (right; lia); try lia; auto.
Qed.

Lemma todo_nonneg n s : Inv_data n s -> 0 <= p_todo n (producer s) /\ 0 <= c_todo n (consumer s).
Proof.
  intros []. destruct s as [r sm [ppc pi pt0 pm pst] [cpc ci ct0 cm cseen cst crep] tr].
  unfold p_todo, c_todo, p_running, c_running in *. simpl in *.
  split; [destruct ppc | destruct cpc]; simpl;
    try specialize (id_prun0 eq_refl); try specialize (id_crun0 eq_refl); lia.
Qed.

Lemma todo_final n s : Inv_data n s -> (final s = true <-> todo n s = 0).
Proof.
  intros Hd. pose proof (todo_nonneg n s Hd) as [Hp Hc]. destruct Hd.
  destruct s as [r sm [ppc pi pt0 pm pst] [cpc ci ct0 cm cseen cst crep] tr].
  unfold todo, final, p_todo, c_todo, p_running, c_running in *. simpl in *.
  destruct ppc; destruct cpc; simpl in *; split; intros H; try done;
    try specialize (id_prun0 eq_refl); try specialize (id_crun0 eq_refl); lia.
Qed.

Lemma sys_step_inv g n t s s' :
  sys_step g n t s = Next s' ->
  (exists s1, who t = Prod /\ step_producer g n (now t) s = Next s1 /\
              s' = log s s1 (LProd (p_pc (producer s)) (p_i (producer s)) (now t)
                                   (p_msg (producer s1)))) \/
  (exists s1, who t = Cons /\ step_consumer g n (now t) s = Next s1 /\
              s' = log s s1 (LCons (c_pc (consumer s)) (c_i (consumer s)) (now t)
                                   (c_msg (consumer s1)))).
Proof.
  unfold sys_step. intros H. destruct (who t).
  - destruct (step_producer g n (now t) s) as [s1| | |] eqn:E; try done.
    injection H as <-. left. by exists s1.
  - destruct (step_consumer g n (now t) s) as [s1| | |] eqn:E; try done.
    injection H as <-. right. by exists s1.
Qed.

(** Every statement brings the run one step closer to its end. *)
Lemma sys_step_todo g n t s s' :
  Inv_data n s -> sys_step g n t s = Next s' -> todo n s' = todo n s - 1.
Proof.
  intros [] Hstep.
  apply sys_step_inv in Hstep as [(s1 & _ & Hstep & ->)|(s1 & _ & Hstep & ->)];
    destruct s as [[h tl b] [se sf sm] [ppc pi pt0 pm pst] [cpc ci ct0 cm cseen cst crep] tr];
    unfold todo, p_todo, c_todo, step_producer, step_consumer, log, p_running, c_running in *;
    simpl in *.
  - destruct ppc; simpl in *; inv_step Hstep; simpl; lia.
  - destruct cpc; simpl in *; inv_step Hstep; simpl; lia.
Qed.

Lemma run_app g n sched1 : forall sched2 s,
  run g n (sched1 ++ sched2) s = run g n sched1 s ≫= run g n sched2.
Proof.
  induction sched1 as [|t r IH]; intros sched2 s; simpl; [done|].
  destruct (sys_step g n t s); auto.
Qed.

Lemma run_reachable g n sched : forall s s',
  reachable g n s -> run g n sched s = Some s' -> reachable g n s'.
Proof.
  induction sched as [|t r IH]; intros s s' Hr Hrun; simpl in Hrun.
  - by injection Hrun as <-.
  - destruct (sys_step g n t s) as [s1| | |] eqn:E; try done.
    apply (IH s1); [by eapply reach_step|done].
Qed.

Lemma reachable_run g n s :
  reachable g n s -> exists sched, run g n sched (init g n) = Some s.
Proof.
  induction 1 as [|s t s' _ [sched IH] Hstep].
  - by exists [].
  - exists (sched ++ [t]). rewrite run_app, IH. simpl. by rewrite Hstep.
Qed.

(** A run of [k] statements from [s] uses up [k] units of [todo]. *)
Lemma run_length g n sched : forall s s',
  0 < n <= INT_MAX -> reachable g n s -> run g n sched s = Some s' ->
  Z.of_nat (length sched) = todo n s - todo n s'.
Proof.
  induction sched as [|t r IH]; intros s s' Hn Hr Hrun; simpl in Hrun.
  - injection Hrun as <-. simpl. lia.
  - destruct (sys_step g n t s) as [s1| | |] eqn:E; try done.
    pose proof (sys_step_todo g n t s s1 (Inv_data_reachable g n s Hn Hr) E).
    assert (Z.of_nat (length r) = todo n s1 - todo n s') as Hlen.
    { apply IH; [done| by eapply reach_step |done]. }
    simpl length. lia.
Qed.

Lemma state_after_reachable g n sched : reachable g n (state_after g n sched).
Proof.
  unfold state_after. destruct (run g n sched (init g n)) as [s|] eqn:E; simpl.
  - eapply run_reachable; [apply reach_init|done].
  - apply reach_init.
Qed.

Lemma waited_snoc tr l i : waited tr i -> waited (tr ++ [l]) i.
Proof.
  intros (j & t' & m' & Hj). exists j, t', m'.
  rewrite lookup_app_l; [done|]. by eapply lookup_lt_Some.
Qed.

Lemma waited_here tr i t m : waited (tr ++ [LProd PWaitEmpty i t m]) i.
Proof.
  exists (length tr), t, m. rewrite lookup_app_r by lia.
  by replace (length tr - length tr)%nat with 0%nat by lia.
Qed.

Lemma stamp_after_wait_snoc tr l :
  stamp_after_wait tr ->
  (forall i t m, l = LProd PBuild i t m -> t_send_us m = u64 t /\ waited tr i) ->
  stamp_after_wait (tr ++ [l]).
Proof.
  intros Hold Hnew k i t m Hk.
  destruct (decide (k < length tr)%nat) as [Hlt|Hge].
  - rewrite lookup_app_l in Hk by done.
    destruct (Hold k i t m Hk) as (Hts & j & t' & m' & Hj & Hlk).
    split; [done|]. exists j, t', m'. split; [done|].
    rewrite lookup_app_l by lia. done.
  - rewrite lookup_app_r in Hk by lia.
    destruct (k - length tr)%nat as [|k'] eqn:Ek; [|done].
    injection Hk as ->. destruct (Hnew i t m eq_refl) as (Hts & j & t' & m' & Hlk).
    split; [done|]. exists j, t', m'.
    pose proof (lookup_lt_Some _ _ _ Hlk).
    split; [lia|]. by rewrite lookup_app_l.
Qed.

Lemma make_msg_stamp i t : t_send_us (make_msg i t) = u64 t.
Proof. reflexivity. Qed.

Lemma Inv_trace_step g n t s s' :
  Inv_trace s -> sys_step g n t s = Next s' -> Inv_trace s'.
Proof.
  intros [Hst Hw] Hstep.
  apply sys_step_inv in Hstep as [(s1 & _ & Hstep & ->)|(s1 & _ & Hstep & ->)].
  - destruct s as [[h tl b] [se sf sm] [ppc pi pt0 pm pst] c tr].
    unfold step_producer, log, p_acquired in *. simpl in *.
    destruct ppc; inv_step Hstep; simpl in *; constructor;
      unfold p_acquired, with_pc_p; simpl;
      try (apply stamp_after_wait_snoc; [done|]; intros i ts m [= <- <- <-];
           split; [apply make_msg_stamp | apply Hw; lia]);
      try (apply stamp_after_wait_snoc; [done|]; by intros i ts m [=]);
      try (intros; lia);
      try (intros _; apply waited_snoc, Hw; lia);
      try (intros _; apply waited_here).
  - destruct s as [[h tl b] [se sf sm] p [cpc ci ct0 cm cseen cst crep] tr].
    unfold step_consumer, log in *. simpl in *.
    destruct cpc; inv_step Hstep; simpl in *; constructor; simpl;
      try (apply stamp_after_wait_snoc; [done|]; by intros i ts m [=]);
      try (intros Ha; apply waited_snoc, Hw, Ha).
Qed.

Lemma Inv_trace_reachable g n s : reachable g n s -> Inv_trace s.
Proof.
  induction 1 as [|s t s' _ IH Hstep].
  - constructor; simpl.
    + intros k i t m Hk. done.
    + unfold p_acquired. simpl. lia.
  - by eapply Inv_trace_step.
Qed.

(* ================================================================== *)
(** * The specification's claims *)

(** ** C1 *)

(** The report in any mode: shared by the safe-mode statement below. *)
Lemma complete_run_report g n s :
  0 < n < INT_MAX -> reachable g n s -> final s = true ->
  p_i (producer s) = n /\ c_i (consumer s) = n /\
  Z.of_nat (length (enqueued (trace s))) = n /\
  dequeued (trace s) = enqueued (trace s) /\
  c_report (consumer s) = Some (0, 0).
Proof.
  intros Hn Hr Hfin.
  destruct (Inv_data_reachable g n s ltac:(lia) Hr).
  destruct s as [r sm [ppc pi pt0 pm pst] [cpc ci ct0 cm cseen cst crep] tr].
  unfold final, c_read, p_written in *. simpl in *.
  destruct ppc; try done. destruct cpc; try done. simpl in *.
  specialize (id_pdone0 eq_refl). specialize (id_cdone0 eq_refl). subst pi ci.
  repeat split; try lia.
  - rewrite id_deq0. apply take_ge. lia.
  - rewrite id_report0 by done. apply integrity_check_all_once; [done|].
    intros id Hid. rewrite id_seen0 by done. by replace (id <=? n) with true by lia.
Qed.

Lemma run_progress g n s :
  0 < n < INT_MAX -> reachable g n s -> final s = false ->
  exists w, forall t, exists s', sys_step g n (mkTick w t) s = Next s'.
Proof.
  intros Hn Hr Hfin.
  pose proof (Inv_sync_reachable g n s Hr) as Hs.
  pose proof (Inv_data_reachable g n s ltac:(lia) Hr) as Hd.
  destruct (someone_enabled g n s Hn Hs Hd Hfin) as [He|He].
  - exists Prod. intros t. destruct (p_enabled_step g n t s Hs He) as [s' Hs'].
    unfold sys_step. simpl. rewrite Hs'. eauto.
  - exists Cons. intros t. destruct (c_enabled_step g n t s Hn Hs Hd He) as [s' Hs'].
    unfold sys_step. simpl. rewrite Hs'. eauto.
Qed.

Lemma run_no_fault g n s t :
  0 < n < INT_MAX -> reachable g n s -> sys_step g n t s <> Fault.
Proof.
  intros Hn Hr.
  pose proof (Inv_sync_reachable g n s Hr) as Hs.
  pose proof (Inv_data_reachable g n s ltac:(lia) Hr) as Hd.
  unfold sys_step. destruct (who t).
  - pose proof (producer_no_fault g n (now t) s Hs).
    by destruct (step_producer g n (now t) s).
  - pose proof (consumer_no_fault g n (now t) s Hn Hs Hd).
    by destruct (step_consumer g n (now t) s).
Qed.

Lemma todo_init g n : todo n (init g n) = 18 * n + 2.
Proof. unfold todo, p_todo, c_todo. simpl. lia. Qed.

(** From every reachable state some schedule leads to the end of both
    loops. *)
Lemma run_can_complete g n : forall (k : nat) s,
  0 < n < INT_MAX -> reachable g n s -> todo n s = Z.of_nat k ->
  exists sched s', run g n sched s = Some s' /\ final s' = true.
Proof.
  induction k as [|k IH]; intros s Hn Hr Hk.
  - exists [], s. split; [done|].
    apply (todo_final n s); [apply (Inv_data_reachable g n s); [lia|done] | lia].
  - pose proof (Inv_data_reachable g n s ltac:(lia) Hr) as Hd.
    destruct (final s) eqn:Hfin.
    { apply (todo_final n s Hd) in Hfin. lia. }
    destruct (run_progress g n s Hn Hr Hfin) as [w Hw].
    destruct (Hw 0) as [s1 Hs1].
    pose proof (sys_step_todo g n _ s s1 Hd Hs1) as Ht.
    destruct (IH s1 Hn (reach_step g n s _ s1 Hr Hs1) ltac:(lia)) as (sched & s' & Hrun & Hf).
    exists (mkTick w 0 :: sched), s'. simpl. rewrite Hs1. done.
Qed.

Lemma complete_run_exists g n :
  0 < n < INT_MAX ->
  exists sched s, run g n sched (init g n) = Some s /\ final s = true.
Proof.
  intros Hn. apply (run_can_complete g n (Z.to_nat (18 * n + 2))); [done|apply reach_init|].
  rewrite todo_init. lia.
Qed.

(** X29.  Safe mode, [n] records with [0 < n < INT_MAX], any interleaving
    [sched] of the two processes leading to a state [s]:
    - the run has at most [18 n + 2] statements, and exactly that many iff
      both loops are over;
    - no statement is undefined, as long as a loop is still running one
      of the processes can move (no deadlock), and the run can always be
      continued to the end of both loops;
    - once both loops are over, the producer has stored [n] records, the
      consumer has copied out the same records in the same order, and the
      auditor reports [missing = 0] and [duplicate = 0].
    The count [INT_MAX] is left out: see C1 below. *)
Theorem safe_mode_no_loss_no_duplicate n sched s :
  0 < n < INT_MAX ->
  run false n sched (init false n) = Some s ->
  Z.of_nat (length sched) <= 18 * n + 2 /\
  (final s = true <-> Z.of_nat (length sched) = 18 * n + 2) /\
  (forall t, sys_step false n t s <> Fault) /\
  (final s = false ->
   exists w, forall t, exists s', sys_step false n (mkTick w t) s = Next s') /\
  (exists rest s', run false n rest s = Some s' /\ final s' = true) /\
  (final s = true ->
   p_i (producer s) = n /\ c_i (consumer s) = n /\
   Z.of_nat (length (enqueued (trace s))) = n /\
   dequeued (trace s) = enqueued (trace s) /\
   c_report (consumer s) = Some (0, 0)).
Proof.
  intros Hn Hrun.
  assert (reachable false n s) as Hr by (eapply run_reachable; [apply reach_init|done]).
  pose proof (Inv_data_reachable false n s ltac:(lia) Hr) as Hd.
  pose proof (run_length false n sched _ _ ltac:(lia) (reach_init false n) Hrun) as Hlen.
  rewrite (todo_init false n) in Hlen.
  pose proof (todo_nonneg n s Hd) as [Hp Hc].
  pose proof (todo_final n s Hd) as Hfin. unfold todo in *.
  split; [lia|]. split; [rewrite Hfin; lia|].
  split; [intros t; by apply run_no_fault|].
  split; [by apply run_progress|].
  split; [|by apply (complete_run_report false)].
  apply (run_can_complete false n (Z.to_nat (todo n s))); [done|done|unfold todo; lia].
Qed.

Lemma safe_mode_no_loss_no_duplicate_witness :
  final (state_after false 2 fair_run_2) = true /\
  c_report (consumer (state_after false 2 fair_run_2)) = Some (0, 0).
Proof.
  assert (run false 2 fair_run_2 (init false 2) = Some (state_after false 2 fair_run_2)) as Hrun
    by (vm_compute; reflexivity).
  assert (0 < 2 < INT_MAX) as Hn by (unfold INT_MAX; lia).
  destruct (safe_mode_no_loss_no_duplicate 2 fair_run_2 _ Hn Hrun)
    as (_ & _ & _ & _ & _ & Hfin).
  assert (final (state_after false 2 fair_run_2) = true) as Hf by (vm_compute; reflexivity).
  split; [exact Hf|]. exact (proj2 (proj2 (proj2 (proj2 (Hfin Hf))))).
Defined.

(** At [n = INT_MAX] the reporting loop cannot be left: its last
    iteration evaluates [id++] with [id = INT_MAX]. *)
Lemma audit_loop_overflows seen : forall (k : nat) id missing duplicates,
  (0 < k)%nat -> id + Z.of_nat k = INT_MAX + 1 ->
  audit_loop k id seen missing duplicates = None.
Proof.
  induction k as [|k IH]; intros id missing duplicates Hk Hid; [lia|].
  cbn [audit_loop].
  destruct (seen !! Z.to_nat id) as [c|]; [|done]. cbn [mbind option_bind].
  destruct (if c =? 0 then int_add missing 1 else Some missing) as [m'|]; [|done].
  cbn [mbind option_bind].
  destruct (if 1 <? c then int_add duplicates (c - 1) else Some duplicates) as [d'|];
    [|done].
  cbn [mbind option_bind]. unfold int_add at 1.
  destruct (id + 1 <=? INT_MAX) eqn:E; [|done]. cbn [mbind option_bind].
  apply IH; lia.
Qed.

Lemma integrity_check_int_max seen : integrity_check INT_MAX seen = None.
Proof.
  unfold integrity_check. apply audit_loop_overflows; unfold INT_MAX; lia.
Qed.

Lemma never_done_at_int_max g s :
  reachable g INT_MAX s -> c_pc (consumer s) <> CDone.
Proof.
  induction 1 as [|s t s' Hr IH Hstep]; [done|].
  apply sys_step_inv in Hstep as [(s1 & _ & Hstep & ->)|(s1 & _ & Hstep & ->)].
  - destruct s as [r sm [ppc pi pt0 pm pst] c tr].
    unfold step_producer, log in *. simpl in *.
    destruct ppc; inv_step Hstep; simpl; done.
  - destruct s as [r sm p [cpc ci ct0 cm cseen cst crep] tr].
    unfold step_consumer, log in *. simpl in *.
    rewrite integrity_check_int_max in Hstep.
    destruct cpc; inv_step Hstep; simpl; done.
Qed.

(** C1, at the count [INT_MAX].  [main] accepts it ([scanf] converts it
    and it is positive), the set-up succeeds, and the loops run as for any
    other count; but the reporting loop
    [for (int id = 1; id <= n; id++)] can only be left after [id++] has
    overflowed, so the integrity check is undefined whatever was consumed:
    in either mode no interleaving reaches the end of the consumer, the
    statement after the consumer's loop is undefined, and the report
    [missing = 0], [duplicate = 0] of the claim is never produced. *)
Theorem report_is_undefined_at_int_max :
  (exists w, main_setup false env_ok (Some INT_MAX) world0 = Started INT_MAX w) /\
  (forall seen, integrity_check INT_MAX seen = None) /\
  (forall ids, auditor INT_MAX ids = None) /\
  (forall g now r sm p t0 m seen st rep tr,
     step_consumer g INT_MAX now
       (mkState r sm p (mkConsumer CLoop INT_MAX t0 m seen st rep) tr) = Fault) /\
  (forall g sched s, run g INT_MAX sched (init g INT_MAX) = Some s -> final s = false).
Proof.
  split; [eexists; reflexivity|].
  split; [apply integrity_check_int_max|].
  split.
  { intros ids. unfold auditor.
    destruct (observe_all INT_MAX (calloc_seen INT_MAX) ids); [|done].
    apply integrity_check_int_max. }
  split.
  { intros g now r sm p t0 m seen st rep tr. unfold step_consumer.
    cbn -[integrity_check]. by rewrite integrity_check_int_max. }
  intros g sched s Hrun.
  assert (reachable g INT_MAX s) as Hr by (eapply run_reachable; [apply reach_init|done]).
  pose proof (never_done_at_int_max g s Hr) as Hd.
  unfold final. destruct (p_pc (producer s)); try done.
  destruct (c_pc (consumer s)); done.
Qed.

(** ** C2 *)

(** C2.  In every run with [n] records, the [i]-th record the producer
    stores (counting from 0) has [tx_id = i + 1],
    [type = (tx_id - 1) mod 5] and
    [amount_pence = (1000 + i mod 500) * 100]; once the producer's loop is
    over exactly [n] records have been stored. *)
Theorem producer_emits_ids_in_order g n s :
  0 < n <= INT_MAX -> reachable g n s ->
  (forall (i : nat) m,
     enqueued (trace s) !! i = Some m ->
     Z.of_nat i < n /\
     tx_id m = Z.of_nat i + 1 /\
     type m = (tx_id m - 1) mod 5 /\
     amount_pence m = (1000 + Z.of_nat i mod 500) * 100 /\
     amount_pence m = (1000 + (tx_id m - 1) mod 500) * 100) /\
  (p_pc (producer s) = PDone -> length (enqueued (trace s)) = Z.to_nat n).
Proof.
  intros Hn Hr. destruct (Inv_data_reachable g n s Hn Hr).
  pose proof (producer_chain (producer s)) as Hch.
  split.
  - intros i m Hi. pose proof (lookup_lt_Some _ _ _ Hi) as Hlt.
    destruct (id_enq0 i m Hi) as [t ->].
    assert (Z.of_nat i < n) as Hin.
    { destruct (p_running (producer s)) eqn:E.
      - specialize (id_prun0 eq_refl). lia.
      - unfold p_running, p_written in *.
        destruct (p_pc (producer s)); try done; lia. }
    destruct (make_msg_fields (Z.of_nat i) t ltac:(lia)) as (-> & -> & ->).
    replace (Z.of_nat i + 1 - 1) with (Z.of_nat i) by lia. done.
  - intros Hdone. specialize (id_pdone0 Hdone).
    unfold p_written in *. rewrite Hdone in *. lia.
Qed.

Lemma producer_emits_ids_in_order_witness :
  exists m, enqueued (trace (state_after false 2 fair_run_2)) !! 1%nat = Some m /\
            tx_id m = 2 /\ type m = 1 /\ amount_pence m = 100100.
Proof.
  assert (0 < 2 <= INT_MAX) as Hn by (unfold INT_MAX; lia).
  destruct (producer_emits_ids_in_order false 2 _ Hn (state_after_reachable false 2 fair_run_2))
    as [Hrec _].
  destruct (enqueued (trace (state_after false 2 fair_run_2)) !! 1%nat) as [m|] eqn:E.
  - exists m. destruct (Hrec 1%nat m E) as (_ & Hid & Hty & Ham & _).
    split; [reflexivity|]. rewrite Hty, Ham, Hid. repeat split; reflexivity.
  - exfalso. revert E. vm_compute. discriminate.
Defined.

(** ** C3 *)

(** C3 as stated fails: in the run where the producer executes its first
    four statements, the wait on [sem_empty] is statement 1 and the stamp
    is statement 3. *)
Lemma stamp_is_not_before_wait :
  exists s, reachable false 1 s /\ ~ stamp_before_wait (trace s).
Proof.
  exists (state_after false 1 (solo Prod 0 4)).
  split; [apply state_after_reachable|].
  intros H.
  specialize (H 1%nat 3%nat 0 3 1 (make_msg 0 3) zero_msg eq_refl eq_refl). lia.
Qed.

(** C3, amended.  In every run, the statement that stamps the record of
    iteration [i] runs after the wait on [sem_empty] of iteration [i] has
    returned, and [t_send_us] is the clock reading of that statement's own
    [now_us()] call. *)
Theorem stamp_taken_after_wait g n s :
  reachable g n s -> stamp_after_wait (trace s).
Proof. intros Hr. by destruct (Inv_trace_reachable g n s Hr). Qed.

Lemma stamp_taken_after_wait_witness :
  stamp_after_wait (trace (state_after false 1 (solo Prod 0 4))).
Proof.
  exact (stamp_taken_after_wait false 1 _ (state_after_reachable false 1 (solo Prod 0 4))).
Defined.

(** ** C4 *)

(** C4.  With 256 records that all carry id 1 and [n = 256], the code
    reports [missing = 256], [duplicate = 0]; the contract's counters give
    [missing = 255], [duplicate = 255]. *)
Theorem auditor_loses_256_repeats :
  auditor 256 (replicate 256 1) = Some (256, 0) /\
  spec_missing 256 (replicate 256 1) = 255 /\
  spec_duplicate 256 (replicate 256 1) = 255.
Proof. repeat split; vm_compute; reflexivity. Qed.

(** ** C5 *)

(** C5.  In every reachable state, in either mode, [head] and [tail] lie
    in [0, RING_CAP), and [RING_CAP] is 1024. *)
Theorem cursors_stay_in_range g n s :
  reachable g n s ->
  RING_CAP = 1024 /\
  0 <= head (ring s) < RING_CAP /\ 0 <= tail (ring s) < RING_CAP.
Proof.
  intros Hr. destruct (Inv_sync_reachable g n s Hr).
  split; [done|]. rewrite is_head0, is_tail0.
  split; apply Z.mod_pos_bound; done.
Qed.

Lemma cursors_stay_in_range_witness :
  0 <= head (ring (state_after false 2 fair_run_2)) < RING_CAP /\
  0 <= tail (ring (state_after false 2 fair_run_2)) < RING_CAP.
Proof.
  exact (proj2 (cursors_stay_in_range false 2 _ (state_after_reachable false 2 fair_run_2))).
Defined.

(** ** C6 *)

(** C6.  From any state, whatever the ring holds: when the consumer
    validates a record whose [tx_id] is outside [1, n], the statement is
    defined (no access to [seen]), [seen] is unchanged, and the loop index
    advances by one like for any other record. *)
Theorem out_of_range_id_is_skipped g n t s :
  0 < n <= INT_MAX ->
  c_pc (consumer s) = CAudit ->
  ~ (1 <= tx_id (c_msg (consumer s)) <= n) ->
  exists s', step_consumer g n t s = Next s' /\
             c_seen (consumer s') = c_seen (consumer s) /\
             c_i (consumer s') = c_i (consumer s) + 1 /\
             c_pc (consumer s') = CLoop /\
             ring s' = ring s /\ sems s' = sems s.
Proof.
  intros Hn Hpc Hid.
  destruct s as [r sm p [cpc ci ct0 cm cseen cst crep] tr]. simpl in *. subst cpc.
  unfold step_consumer. simpl.
  rewrite observe_out_of_range by done. eauto 10.
Qed.

Lemma out_of_range_id_is_skipped_witness :
  exists s', step_consumer false 2 0 garbage_state = Next s' /\
             c_seen (consumer s') = calloc_seen 2 /\ c_i (consumer s') = 1.
Proof.
  assert (0 < 2 <= INT_MAX) as Hn by (unfold INT_MAX; lia).
  assert (~ (1 <= tx_id (c_msg (consumer garbage_state)) <= 2)) as Hid by (simpl; lia).
  destruct (out_of_range_id_is_skipped false 2 0 garbage_state Hn eq_refl Hid)
    as (s' & Hs & Hseen & Hi & _).
  exists s'. split; [exact Hs|]. split; [exact Hseen|exact Hi].
Defined.

(** ** C7 *)

(** C7.  If the record count cannot be converted or is not positive,
    [main] writes "Invalid input." to [stderr] and returns 1, and the named
    segment and semaphores are exactly as they were before the call. *)
Theorem invalid_count_exits_before_setup g env input w :
  (input = None \/ exists n, input = Some n /\ n <= 0) ->
  exists w', main_setup g env input w = Exited 1 w' /\
             shm w' = shm w /\
             named_empty w' = named_empty w /\
             named_full w' = named_full w /\
             named_mutex w' = named_mutex w /\
             err w' = err w ++ ["Invalid input."].
Proof.
  intros [->|(n & -> & Hn)]; unfold main_setup.
  - eexists. split; [reflexivity|]. simpl. auto.
  - replace (n <=? 0) with true by lia. eexists. split; [reflexivity|]. simpl. auto.
Qed.

Lemma invalid_count_exits_before_setup_witness :
  exists w', main_setup false env_ok (Some 0) world0 = Exited 1 w' /\ shm w' = None /\
             named_empty w' = None /\ named_full w' = None.
Proof.
  destruct (invalid_count_exits_before_setup false env_ok (Some 0) world0)
    as (w' & Hm & Hs & He & Hf & _).
  - right. exists 0. split; [reflexivity|lia].
  - exists w'. split; [exact Hm|]. split; [exact Hs|]. split; [exact He|exact Hf].
Defined.

(** ** C8 *)

(** With a valid count and every call succeeding, [main] leaves a zeroed
    segment, [sem_empty] at [RING_CAP], [sem_full] at 0 and, in safe mode,
    [sem_mutex] at 1: the objects the initial state of the runs starts
    from. *)
Lemma main_setup_creates g n w :
  0 < n ->
  exists w', main_setup g env_ok (Some n) w = Started n w' /\
             shm w' = Some (Sized (ring (init g n))) /\
             named_empty w' = Some (sem_empty (sems (init g n))) /\
             named_full w' = Some (sem_full (sems (init g n))) /\
             named_mutex w' = sem_mutex (sems (init g n)).
Proof.
  intros Hn. unfold main_setup. replace (n <=? 0) with false by lia.
  destruct g; simpl; eexists; (split; [reflexivity|]); simpl; auto.
Qed.

(** C8 as stated fails: after the producer's wait on [sem_empty] and before
    its post on [sem_full] the two values add up to [RING_CAP - 1]. *)
Lemma occupancy_sum_drops_mid_operation :
  exists s, reachable false 1 s /\
            sem_full (sems s) + sem_empty (sems s) <> RING_CAP.
Proof.
  exists (state_after false 1 (solo Prod 0 2)).
  split; [apply state_after_reachable|]. vm_compute. discriminate.
Qed.

(** C8, amended.  [main] creates [sem_empty] with value [RING_CAP] (1024)
    and [sem_full] with value 0.  In every reachable state the two values plus the number of
    operations between their wait and their signal (0 or 1 per process)
    add up to [RING_CAP]; so the sum never exceeds [RING_CAP], is at
    least [RING_CAP - 2], and equals [RING_CAP] whenever neither process is
    inside an operation. *)
Theorem occupancy_counts_in_flight g n s :
  0 < n -> reachable g n s ->
  (exists w', main_setup g env_ok (Some n) world0 = Started n w' /\
              named_empty w' = Some RING_CAP /\ named_full w' = Some 0) /\
  sem_empty (sems (init g n)) = RING_CAP /\ RING_CAP = 1024 /\
  sem_full (sems (init g n)) = 0 /\
  sem_full (sems s) + sem_empty (sems s)
    + p_in_flight (producer s) + c_in_flight (consumer s) = RING_CAP /\
  0 <= p_in_flight (producer s) <= 1 /\
  0 <= c_in_flight (consumer s) <= 1 /\
  0 <= sem_empty (sems s) <= RING_CAP /\ 0 <= sem_full (sems s) <= RING_CAP /\
  (p_in_flight (producer s) = 0 -> c_in_flight (consumer s) = 0 ->
   sem_full (sems s) + sem_empty (sems s) = RING_CAP).
Proof.
  intros Hn Hr. destruct (Inv_sync_reachable g n s Hr).
  pose proof (producer_chain (producer s)).
  pose proof (consumer_chain (consumer s)).
  unfold p_in_flight, c_in_flight.
  split.
  { destruct (main_setup_creates g n world0 Hn) as (w' & Hm & _ & He & Hf & _).
    exists w'. by repeat split. }
  repeat split; try done; lia.
Qed.

Lemma occupancy_counts_in_flight_witness :
  sem_full (sems (state_after false 1 (solo Prod 0 2)))
    + sem_empty (sems (state_after false 1 (solo Prod 0 2))) + 1 + 0 = RING_CAP.
Proof.
  exact (proj1 (proj2 (proj2 (proj2 (proj2
    (occupancy_counts_in_flight false 1 _ ltac:(lia)
       (state_after_reachable false 1 (solo Prod 0 2)))))))).
Defined.

(** ** C9 *)

(** C9.  A statement of the producer leaves [tail] and every slot other
    than [buf[head]] as they were; a statement of the consumer leaves
    [head] and the whole of [buf] as they were.  Hence only the producer
    moves [head] and only the consumer moves [tail]. *)
Theorem cursor_ownership g n t s s' :
  sys_step g n t s = Next s' ->
  match who t with
  | Prod =>
      tail (ring s') = tail (ring s) /\
      length (buf (ring s')) = length (buf (ring s)) /\
      forall k, k <> Z.to_nat (head (ring s)) ->
                buf (ring s') !! k = buf (ring s) !! k
  | Cons =>
      head (ring s') = head (ring s) /\
      buf (ring s') = buf (ring s)
  end.
Proof.
  intros Hstep.
  apply sys_step_inv in Hstep as [(s1 & -> & Hstep & ->)|(s1 & -> & Hstep & ->)].
  - destruct s as [[h tl b] sm [ppc pi pt0 pm pst] c tr].
    unfold step_producer, log in *. simpl in *.
    destruct ppc; inv_step Hstep; simpl; repeat split; try done.
    + apply length_insert.
    + intros k Hk. by apply list_lookup_insert_ne.
  - destruct s as [[h tl b] sm p [cpc ci ct0 cm cseen cst crep] tr].
    unfold step_consumer, log in *. simpl in *.
    destruct cpc; inv_step Hstep; simpl; by split.
Qed.

Lemma cursor_ownership_witness :
  tail (ring (state_after false 1 (solo Prod 0 5))) = tail (ring (state_after false 1 (solo Prod 0 4))) /\
  forall k, k <> Z.to_nat (head (ring (state_after false 1 (solo Prod 0 4)))) ->
            buf (ring (state_after false 1 (solo Prod 0 5))) !! k
            = buf (ring (state_after false 1 (solo Prod 0 4))) !! k.
Proof.
  assert (sys_step false 1 (mkTick Prod 4) (state_after false 1 (solo Prod 0 4))
          = Next (state_after false 1 (solo Prod 0 5))) as Hstep
    by (vm_compute; reflexivity).
  pose proof (cursor_ownership false 1 _ _ _ Hstep) as H. simpl in H.
  destruct H as (Ht & _ & Hb). split; [exact Ht|exact Hb].
Defined.

(** ** C10 *)

(** C10.  Each presence counter holds the number of valid observations of
    its id modulo 256, so it lies in [0, 255] and adds at most 254 to
    [duplicate]; the report is made of these 8-bit counters.  With 256
    records that all carry id 1 the counter of id 1 is back at 0: id 1 is
    counted as missing and adds nothing to [duplicate]. *)
Theorem presence_counter_wraps_at_256 n ids :
  0 < n < INT_MAX -> Z.of_nat (length ids) <= INT_MAX ->
  (exists seen,
     observe_all n (calloc_seen n) ids = Some seen /\
     forall id, 1 <= id <= n ->
       exists c, seen !! Z.to_nat id = Some c /\
                 c = occurrences id ids mod 256 /\
                 0 <= c <= 255 /\
                 Z.max (c - 1) 0 <= 254) /\
  auditor n ids = Some (code_missing n ids, code_duplicate n ids) /\
  (exists seen256,
     observe_all 256 (calloc_seen 256) (replicate 256 1) = Some seen256 /\
     occurrences 1 (replicate 256 1) = 256 /\
     seen256 !! 1%nat = Some 0 /\
     auditor 256 (replicate 256 1) = Some (256, 0)).
Proof.
  intros Hn Hlen. split; [|split].
  - destruct (observe_all_counts n ids (calloc_seen n) (fun _ => 0))
      as (seen & Hobs & [Hl Hf]); [lia|apply counts_calloc; lia|].
    exists seen. split; [done|]. intros id Hid.
    exists (u8 (occurrences id ids + 0)). split; [by apply Hf|].
    pose proof (u8_range (occurrences id ids + 0)).
    rewrite Z.add_0_r in *. unfold u8 in *. repeat split; lia.
  - by apply auditor_code.
  - eexists. split; [vm_compute; reflexivity|].
    repeat split; vm_compute; reflexivity.
Qed.

Lemma presence_counter_wraps_at_256_witness :
  auditor 3 [1; 1; 7] = Some (code_missing 3 [1; 1; 7], code_duplicate 3 [1; 1; 7]).
Proof.
  assert (0 < 3 < INT_MAX) as Hn by (unfold INT_MAX; lia).
  assert (Z.of_nat (length [1; 1; 7]) <= INT_MAX) as Hl by (unfold INT_MAX; simpl; lia).
  exact (proj1 (proj2 (presence_counter_wraps_at_256 3 [1; 1; 7] Hn Hl))).
Defined.

(* ================================================================== *)
(** * Further properties of the protocol *)

(** ** Order and capacity *)

(** X1.  In every reachable state of either mode the records stored so far
    are the records copied out so far, in the same order, followed by the
    records still in the ring; there are never more than [RING_CAP] of the
    latter. *)
Theorem ring_is_fifo_and_bounded g n s :
  0 < n <= INT_MAX -> reachable g n s ->
  enqueued (trace s) = dequeued (trace s) ++ pending s /\
  Z.of_nat (length (pending s)) <= RING_CAP.
Proof.
  intros Hn Hr. destruct (Inv_data_reachable g n s Hn Hr).
  destruct (Inv_sync_reachable g n s Hr).
  pose proof (producer_chain (producer s)). pose proof (consumer_chain (consumer s)).
  unfold pending. rewrite id_deq0 at 1. rewrite id_deq0.
  rewrite length_take. split.
  - rewrite <- (take_drop (Z.to_nat (c_read (consumer s))) (enqueued (trace s))) at 1.
    f_equal. f_equal. lia.
  - rewrite length_drop. lia.
Qed.

Lemma ring_is_fifo_and_bounded_witness :
  enqueued (trace (state_after true 2 overlap_run))
  = dequeued (trace (state_after true 2 overlap_run)) ++ pending (state_after true 2 overlap_run).
Proof.
  assert (0 < 2 <= INT_MAX) as Hn by (unfold INT_MAX; lia).
  exact (proj1 (ring_is_fifo_and_bounded true 2 _ Hn (state_after_reachable true 2 overlap_run))).
Defined.

(** X2.  A record stays in its slot until it is copied out: in every
    reachable state the [j]-th record in flight is the content of slot
    [(d + j) mod RING_CAP], [d] being the number of records copied so far. *)
Theorem unread_slots_are_not_overwritten g n s (j : nat) m :
  0 < n <= INT_MAX -> reachable g n s ->
  pending s !! j = Some m ->
  buf (ring s) !! Z.to_nat ((Z.of_nat (length (dequeued (trace s))) + Z.of_nat j) mod RING_CAP)
  = Some m.
Proof.
  intros Hn Hr Hj. destruct (Inv_data_reachable g n s Hn Hr).
  destruct (Inv_sync_reachable g n s Hr).
  pose proof (producer_chain (producer s)). pose proof (consumer_chain (consumer s)).
  unfold pending in Hj. rewrite lookup_drop in Hj.
  pose proof (lookup_lt_Some _ _ _ Hj) as Hlt.
  assert (length (dequeued (trace s)) = Z.to_nat (c_read (consumer s))) as Hlen.
  { rewrite id_deq0 at 1. rewrite length_take. lia. }
  rewrite id_slots0 by lia. rewrite <- Hj. f_equal. lia.
Qed.

Lemma unread_slots_are_not_overwritten_witness :
  buf (ring (state_after true 2 overlap_run)) !! 0%nat
  = Some (make_msg 0 3).
Proof.
  assert (0 < 2 <= INT_MAX) as Hn by (unfold INT_MAX; lia).
  exact (unread_slots_are_not_overwritten true 2 (state_after true 2 overlap_run) 0%nat
           (make_msg 0 3) Hn (state_after_reachable true 2 overlap_run) eq_refl).
Defined.

(** X3.  Safe mode: the two processes are never both between their
    [sem_wait(sem_mutex)] and [sem_post(sem_mutex)], and the semaphore's
    value is 1 when neither is and 0 when one is. *)
Theorem mutex_excludes g n s :
  g = false -> reachable g n s ->
  ~ (p_in_cs (producer s) = 1 /\ c_in_cs (consumer s) = 1) /\
  sem_mutex (sems s)
  = Some (if decide (p_in_cs (producer s) = 0 /\ c_in_cs (consumer s) = 0) then 1 else 0).
Proof.
  intros -> Hr. destruct (Inv_sync_reachable false n s Hr).
  specialize (is_mutex_nonneg0 eq_refl).
  assert (0 <= p_in_cs (producer s) <= 1) by (unfold p_in_cs; destruct (p_pc _); lia).
  assert (0 <= c_in_cs (consumer s) <= 1) by (unfold c_in_cs; destruct (c_pc _); lia).
  split; [lia|]. rewrite is_mutex0. f_equal. case_decide; lia.
Qed.

Lemma mutex_excludes_witness :
  sem_mutex (sems (state_after false 1 (solo Prod 0 4))) = Some 0.
Proof.
  exact (proj2 (mutex_excludes false 1 _ eq_refl
                  (state_after_reachable false 1 (solo Prod 0 4)))).
Defined.

(** X4.  In either mode, so also without the mutex: whenever the producer
    is about to store into [buf[head]] while the consumer is about to copy
    [buf[tail]], [head] and [tail] differ. *)
Theorem store_and_copy_use_different_slots g n s :
  reachable g n s ->
  p_pc (producer s) = PWrite -> c_pc (consumer s) = CRead ->
  head (ring s) <> tail (ring s).
Proof.
  intros Hr Hp Hc. destruct (Inv_sync_reachable g n s Hr).
  unfold_counters. rewrite Hp, Hc in *.
  rewrite is_head0, is_tail0. intros E.
  apply (slots_differ (c_i (consumer s) + 0) (p_i (producer s) + 0)); [|by rewrite E].
  unfold RING_CAP in *. lia.
Qed.

Lemma store_and_copy_use_different_slots_witness :
  head (ring (state_after true 2 overlap_run)) <> tail (ring (state_after true 2 overlap_run)).
Proof.
  exact (store_and_copy_use_different_slots true 2 _
           (state_after_reachable true 2 overlap_run) eq_refl eq_refl).
Defined.

(** X5.  Unsafe mode, interleaving statement by statement, for a count
    [n] with [0 < n < INT_MAX]: every run is free of undefined statements
    and of deadlock, and when both loops are over the consumer has copied
    out the [n] records in the order they were stored and the report is
    [missing = 0], [duplicate = 0].  (At [n = INT_MAX] the reporting loop
    is undefined: see C1.) *)
Theorem unsafe_mode_statement_interleavings_lose_nothing n sched s :
  0 < n < INT_MAX ->
  run true n sched (init true n) = Some s ->
  (forall t, sys_step true n t s <> Fault) /\
  (final s = false ->
   exists w, forall t, exists s', sys_step true n (mkTick w t) s = Next s') /\
  (final s = true ->
   Z.of_nat (length sched) = 18 * n + 2 /\
   Z.of_nat (length (enqueued (trace s))) = n /\
   dequeued (trace s) = enqueued (trace s) /\
   c_report (consumer s) = Some (0, 0)).
Proof.
  intros Hn Hrun.
  assert (reachable true n s) as Hr by (eapply run_reachable; [apply reach_init|done]).
  pose proof (Inv_data_reachable true n s ltac:(lia) Hr) as Hd.
  pose proof (run_length true n sched _ _ ltac:(lia) (reach_init true n) Hrun) as Hlen.
  rewrite (todo_init true n) in Hlen.
  split; [intros t; by apply run_no_fault|].
  split; [by apply run_progress|].
  intros Hfin. destruct (complete_run_report true n s Hn Hr Hfin) as (_ & _ & He & Hdq & Hrep).
  apply (todo_final n s Hd) in Hfin. repeat split; try done. lia.
Qed.

Lemma unsafe_mode_statement_interleavings_lose_nothing_witness :
  c_report (consumer (state_after true 2 fair_run_2_unsafe)) = Some (0, 0).
Proof.
  assert (run true 2 fair_run_2_unsafe (init true 2) = Some (state_after true 2 fair_run_2_unsafe))
    as Hrun by (vm_compute; reflexivity).
  assert (0 < 2 < INT_MAX) as Hn by (unfold INT_MAX; lia).
  destruct (unsafe_mode_statement_interleavings_lose_nothing 2 fair_run_2_unsafe _ Hn Hrun)
    as (_ & _ & Hfin).
  assert (final (state_after true 2 fair_run_2_unsafe) = true) as Hf by (vm_compute; reflexivity).
  exact (proj2 (proj2 (proj2 (Hfin Hf)))).
Defined.

(* ================================================================== *)
(** * Timing statistics *)

Lemma stats_add_within k st t0 t1 m :
  0 <= k -> within k st -> within (k + 1) (stats_add st t0 t1 m).
Proof.
  intros Hk [[H1 H2] [H3 H4]]. unfold within, stats_add. simpl.
  repeat split;
    repeat match goal with |- context [if ?b then _ else _] => destruct b eqn:? end;
    nia.
Qed.

Lemma within_init : within 0 stats0.
Proof. unfold within, stats0. simpl. lia. Qed.

Lemma within_reachable g n s :
  reachable g n s ->
  within (p_i (producer s)) (p_stats (producer s)) /\
  within (c_timed (consumer s)) (c_stats (consumer s)).
Proof.
  induction 1 as [|s t s' Hr [IHp IHc] Hstep].
  - split; apply within_init.
  - destruct (Inv_sync_reachable g n s Hr) as [Hpi Hci _ _ _ _ _ _ _ _ _].
    apply sys_step_inv in Hstep as [(s1 & _ & Hstep & ->)|(s1 & _ & Hstep & ->)].
    + destruct s as [[h tl b] [se sf sm] [ppc pi pt0 pm pst] c tr].
      unfold step_producer, log in *. simpl in *.
      destruct ppc; inv_step Hstep; simpl; split; try done.
      by apply stats_add_within.
    + destruct s as [[h tl b] [se sf sm] p [cpc ci ct0 cm cseen cst crep] tr].
      unfold step_consumer, log, c_timed in *. simpl in *.
      destruct cpc; inv_step Hstep; simpl; split; try done;
        rewrite ?Z.add_0_r in *; try done.
      by apply stats_add_within.
Qed.

Lemma to_i64_small x : 0 <= x < 2 ^ 63 -> to_i64 x = x.
Proof. intros H. unfold to_i64. by replace (x <? 2 ^ 63) with true by lia. Qed.

Lemma Inv_clock_later T T' s :
  Inv_clock T s -> T <= T' < 2 ^ 63 -> Inv_clock T' s.
Proof.
  intros [] HT. constructor; try lia.
  eapply Forall_impl; [done|]. simpl. intros m Hm. lia.
Qed.

Lemma stats_add_nonneg st t0 t1 m :
  0 <= min_proc st -> 0 <= min_lat st ->
  0 <= t0 <= t1 -> 0 <= t_send_us m <= t1 -> t1 < 2 ^ 63 ->
  0 <= min_proc (stats_add st t0 t1 m) /\ 0 <= min_lat (stats_add st t0 t1 m).
Proof.
  intros H1 H2 H3 H4 H5. unfold stats_add. simpl. rewrite to_i64_small by lia.
  split; match goal with |- context [if ?b then _ else _] => destruct b eqn:? end; lia.
Qed.

Lemma Inv_clock_init g n : Inv_clock 0 (init g n).
Proof.
  constructor; cbn -[zero_ring calloc_seen Z.pow]; try lia.
  - change (buf zero_ring) with (replicate (Z.to_nat RING_CAP) zero_msg).
    apply Forall_replicate. simpl. lia.
  - unfold LLONG_MAX. lia.
  - unfold LLONG_MAX. lia.
Qed.

Lemma Inv_clock_step g n T t s s' :
  Inv_clock T s -> T <= now t < 2 ^ 63 -> sys_step g n t s = Next s' ->
  Inv_clock (now t) s'.
Proof.
  intros Hi HT Hstep. apply (Inv_clock_later T (now t)) in Hi; [|done].
  destruct Hi.
  apply sys_step_inv in Hstep as [(s1 & _ & Hstep & ->)|(s1 & _ & Hstep & ->)].
  - destruct s as [[h tl b] [se sf sm] [ppc pi pt0 pm pst] c tr].
    unfold step_producer, log in *. simpl in *.
    destruct ppc; inv_step Hstep; simpl; constructor; simpl; try done; try lia;
      first [ unfold u64; rewrite Z.mod_small by lia; lia
            | by apply Forall_insert
            | apply stats_add_nonneg; try tauto; lia ].
  - destruct s as [[h tl b] [se sf sm] p [cpc ci ct0 cm cseen cst crep] tr].
    unfold step_consumer, log in *. simpl in *.
    destruct cpc; inv_step Hstep; simpl; constructor; simpl; try done; try lia;
      first [ match goal with H : b !! _ = Some _ |- _ =>
                apply (Forall_lookup_1 _ _ _ _ ic_buf0) in H; simpl in H; exact H end
            | apply stats_add_nonneg; try tauto; lia ].
Qed.

Lemma Inv_clock_run g n sched : forall T s s',
  Inv_clock T s -> clock_mono T sched -> run g n sched s = Some s' ->
  exists T', Inv_clock T' s'.
Proof.
  induction sched as [|t r IH]; intros T s s' Hi Hm Hrun; simpl in *.
  - injection Hrun as <-. eauto.
  - destruct Hm as [HT Hm].
    destruct (sys_step g n t s) as [s1| | |] eqn:E; try done.
    eapply IH; [by eapply Inv_clock_step|done|done].
Qed.

(** X7.  If the clock readings of a run never go back (and fit
    [long long]), no measured time is negative: the minimum processing
    time and the minimum latency of both processes are [>= 0], in
    particular the one-way latency [t1 - t_send_us] of every record. *)
Theorem latencies_nonnegative_with_monotone_clock g n sched s :
  clock_mono 0 sched -> run g n sched (init g n) = Some s ->
  0 <= min_proc (p_stats (producer s)) /\ 0 <= min_lat (p_stats (producer s)) /\
  0 <= min_proc (c_stats (consumer s)) /\ 0 <= min_lat (c_stats (consumer s)).
Proof.
  intros Hm Hrun.
  destruct (Inv_clock_run g n sched 0 _ _ (Inv_clock_init g n) Hm Hrun) as [T []].
  tauto.
Qed.

Lemma latencies_nonnegative_with_monotone_clock_witness :
  0 <= min_lat (c_stats (consumer (state_after false 2 fair_run_2))).
Proof.
  assert (run false 2 fair_run_2 (init false 2) = Some (state_after false 2 fair_run_2))
    as Hrun by (vm_compute; reflexivity).
  assert (clock_mono 0 fair_run_2) as Hm by (vm_compute; repeat split; discriminate).
  exact (proj2 (proj2 (proj2
    (latencies_nonnegative_with_monotone_clock false 2 fair_run_2 _ Hm Hrun)))).
Defined.

(** ** The sums stay in [long long] *)

Lemma stats_add_fit H k st t0 t1 m :
  0 <= k -> sums_fit H k st ->
  0 <= t0 <= t1 -> 0 <= t_send_us m <= t1 -> t1 <= H -> t1 < 2 ^ 63 ->
  sums_fit H (k + 1) (stats_add st t0 t1 m).
Proof.
  intros Hk [H1 H2] Ht0 Hm HH Ht1. unfold sums_fit, stats_add. simpl.
  rewrite to_i64_small by lia. split; nia.
Qed.

Lemma sums_fit_step g n H T t s s' :
  Inv_clock T s -> T <= now t < 2 ^ 63 -> now t <= H ->
  0 <= p_i (producer s) -> 0 <= c_i (consumer s) ->
  sums_fit H (p_i (producer s)) (p_stats (producer s)) ->
  sums_fit H (c_timed (consumer s)) (c_stats (consumer s)) ->
  sys_step g n t s = Next s' ->
  sums_fit H (p_i (producer s')) (p_stats (producer s')) /\
  sums_fit H (c_timed (consumer s')) (c_stats (consumer s')).
Proof.
  intros Hi HT HH Hpi Hci Hp Hc Hstep.
  apply (Inv_clock_later T (now t)) in Hi; [|done]. destruct Hi.
  apply sys_step_inv in Hstep as [(s1 & _ & Hstep & ->)|(s1 & _ & Hstep & ->)].
  - destruct s as [[h tl b] [se sf sm] [ppc pi pt0 pm pst] c tr].
    unfold step_producer, log in *. simpl in *.
    destruct ppc; inv_step Hstep; simpl; split; try done.
    apply stats_add_fit; try done; lia.
  - destruct s as [[h tl b] [se sf sm] p [cpc ci ct0 cm cseen cst crep] tr].
    unfold step_consumer, log, c_timed in *. simpl in *.
    destruct cpc; inv_step Hstep; simpl; split; try done;
      rewrite ?Z.add_0_r in *; try done.
    apply stats_add_fit; try done; lia.
Qed.

Lemma sums_fit_run g n H sched : forall T s s',
  reachable g n s -> Inv_clock T s -> clock_mono T sched -> clock_below H sched ->
  sums_fit H (p_i (producer s)) (p_stats (producer s)) ->
  sums_fit H (c_timed (consumer s)) (c_stats (consumer s)) ->
  run g n sched s = Some s' ->
  sums_fit H (p_i (producer s')) (p_stats (producer s')) /\
  sums_fit H (c_timed (consumer s')) (c_stats (consumer s')).
Proof.
  induction sched as [|t r IH]; intros T s s' Hr Hi Hm Hb Hp Hc Hrun; simpl in *.
  - by injection Hrun as <-.
  - destruct Hm as [HT Hm]. apply Forall_cons in Hb as [Hb1 Hb].
    destruct (sys_step g n t s) as [s1| | |] eqn:E; try done.
    destruct (Inv_sync_reachable g n s Hr) as [Hpi Hci _ _ _ _ _ _ _ _ _].
    destruct (sums_fit_step g n H T t s s1 Hi HT Hb1 Hpi Hci Hp Hc E) as [Hp1 Hc1].
    apply (IH (now t) s1 s'); try done.
    + by eapply reach_step.
    + by eapply Inv_clock_step.
Qed.

Lemma forallb_clock_below H sched :
  forallb (fun t => now t <=? H) sched = true -> clock_below H sched.
Proof.
  unfold clock_below. induction sched as [|t r IH]; simpl; intros Hb; [by constructor|].
  apply andb_prop in Hb as [H1 H2]. constructor; [lia|by apply IH].
Qed.

(** X6.  Statistics of both processes, either mode, for a clock that never
    goes back and stays in [0, H] with [n * H <= LLONG_MAX]: at every point
    of a run each of the four sums (processing time and latency, producer
    and consumer) is in [0, k * H] for the [k <= n] samples taken, so no
    addition leaves [long long], and lies between [k] times the minimum and
    [k] times the maximum; when the loops are over [k = n] and each printed
    minimum is at most its maximum. *)
Theorem averages_lie_between_min_and_max g n H sched s :
  0 < n <= INT_MAX ->
  clock_mono 0 sched -> clock_below H sched -> n * H <= LLONG_MAX ->
  run g n sched (init g n) = Some s ->
  (sums_fit H (p_i (producer s)) (p_stats (producer s)) /\
   sums_fit H (c_timed (consumer s)) (c_stats (consumer s)) /\
   within (p_i (producer s)) (p_stats (producer s)) /\
   within (c_timed (consumer s)) (c_stats (consumer s)) /\
   p_i (producer s) <= n /\ c_timed (consumer s) <= n) /\
  (sched <> [] ->
   proc_sum (p_stats (producer s)) <= LLONG_MAX /\
   lat_sum (p_stats (producer s)) <= LLONG_MAX /\
   proc_sum (c_stats (consumer s)) <= LLONG_MAX /\
   lat_sum (c_stats (consumer s)) <= LLONG_MAX) /\
  (final s = true ->
   p_i (producer s) = n /\ c_timed (consumer s) = n /\
   min_proc (p_stats (producer s)) <= max_proc (p_stats (producer s)) /\
   min_lat (p_stats (producer s)) <= max_lat (p_stats (producer s)) /\
   min_proc (c_stats (consumer s)) <= max_proc (c_stats (consumer s)) /\
   min_lat (c_stats (consumer s)) <= max_lat (c_stats (consumer s))).
Proof.
  intros Hn Hm Hb Hcap Hrun.
  assert (reachable g n s) as Hr by (eapply run_reachable; [apply reach_init|done]).
  destruct (within_reachable g n s Hr) as [Hp Hc].
  destruct (sums_fit_run g n H sched 0 (init g n) s (reach_init g n)
              (Inv_clock_init g n) Hm Hb) as [Fp Fc]; try done;
    try (unfold sums_fit, c_timed; simpl; lia).
  destruct (Inv_data_reachable g n s Hn Hr).
  destruct (Inv_sync_reachable g n s Hr) as [Hpi Hci _ _ _ _ _ _ _ _ _].
  assert (c_timed (consumer s) <= n) as Hct.
  { unfold c_timed. destruct (c_pc (consumer s)) eqn:Ec; try lia.
    assert (c_i (consumer s) < n) by (apply id_crun0; unfold c_running; by rewrite Ec). lia. }
  assert (0 <= c_timed (consumer s)) as Hct0
    by (unfold c_timed; destruct (c_pc (consumer s)); lia).
  split; [tauto|]. split.
  - intros Hne. assert (0 <= H) as HH.
    { destruct sched as [|t r]; [done|]. apply Forall_cons in Hb as [Hb _].
      destruct Hm as [Ht _]. lia. }
    destruct Fp as [? ?], Fc as [? ?]. repeat split; nia.
  - intros Hfin. unfold final, c_timed in *.
    destruct (p_pc (producer s)) eqn:Ep; try done.
    destruct (c_pc (consumer s)) eqn:Ec; try done.
    rewrite (id_pdone0 eq_refl) in Hp. rewrite (id_cdone0 eq_refl), Z.add_0_r in Hc.
    split; [by apply id_pdone0|]. split; [rewrite Z.add_0_r; by apply id_cdone0|].
    destruct Hp as [[? ?] [? ?]], Hc as [[? ?] [? ?]]. repeat split; nia.
Qed.

Lemma averages_lie_between_min_and_max_witness :
  proc_sum (c_stats (consumer (state_after false 2 fair_run_2))) <= LLONG_MAX /\
  min_lat (c_stats (consumer (state_after false 2 fair_run_2)))
  <= max_lat (c_stats (consumer (state_after false 2 fair_run_2))).
Proof.
  assert (0 < 2 <= INT_MAX) as Hn by (unfold INT_MAX; lia).
  assert (run false 2 fair_run_2 (init false 2) = Some (state_after false 2 fair_run_2))
    as Hrun by (vm_compute; reflexivity).
  assert (clock_mono 0 fair_run_2) as Hm by (vm_compute; repeat split; discriminate).
  assert (clock_below 100 fair_run_2) as Hb
    by (apply forallb_clock_below; vm_compute; reflexivity).
  assert (2 * 100 <= LLONG_MAX) as Hcap by (unfold LLONG_MAX; lia).
  destruct (averages_lie_between_min_and_max false 2 100 fair_run_2 _ Hn Hm Hb Hcap Hrun)
    as (_ & Hs & Hf).
  split; [apply Hs; vm_compute; discriminate|].
  apply Hf. vm_compute. reflexivity.
Defined.
(* ================================================================== *)
(** * Back-pressure *)

Lemma step_producer_consumer g n t s s1 :
  step_producer g n t s = Next s1 -> consumer s1 = consumer s.
Proof.
  destruct s as [r sm [ppc pi pt0 pm pst] c tr]. unfold step_producer. simpl.
  intros Hstep. destruct ppc; inv_step Hstep; done.
Qed.

Lemma producer_only_run g n sched : forall s s',
  producer_only sched -> run g n sched s = Some s' -> consumer s' = consumer s.
Proof.
  induction sched as [|t r IH]; intros s s' Hp Hrun; simpl in Hrun.
  - by injection Hrun as <-.
  - apply Forall_cons in Hp as [Ht Hp].
    destruct (sys_step g n t s) as [s1| | |] eqn:E; try done.
    rewrite (IH s1 s' Hp Hrun).
    apply sys_step_inv in E as [(s2 & _ & Hs & ->)|(s2 & Hw & _)]; [|congruence].
    simpl. by eapply step_producer_consumer.
Qed.

(** Alone, the producer moves until its loop is over or it has to wait. *)
Lemma producer_runs_until_disabled g n : forall (k : nat) s,
  0 < n <= INT_MAX -> reachable g n s ->
  p_todo n (producer s) = Z.of_nat k ->
  exists rest s', producer_only rest /\ run g n rest s = Some s' /\ p_enabled g s' = false.
Proof.
  induction k as [|k IH]; intros s Hn Hr Hk;
    pose proof (Inv_data_reachable g n s Hn Hr) as Hd;
    pose proof (Inv_sync_reachable g n s Hr) as Hs;
    destruct (p_enabled g s) eqn:He;
    try (exists [], s; split; [by apply Forall_nil|done]);
    destruct (p_enabled_step g n 0 s Hs He) as [s1 Hs1];
    assert (sys_step g n (mkTick Prod 0) s
            = Next (log s s1 (LProd (p_pc (producer s)) (p_i (producer s)) 0
                                    (p_msg (producer s1))))) as Hstep
      by (unfold sys_step; simpl; by rewrite Hs1);
    pose proof (sys_step_todo g n _ s _ Hd Hstep) as Ht;
    pose proof (reach_step g n s _ _ Hr Hstep) as Hr1;
    pose proof (todo_nonneg n _ (Inv_data_reachable g n _ Hn Hr1)) as [Hp1 _];
    unfold todo in Ht; simpl in Ht, Hp1;
    rewrite (step_producer_consumer g n 0 s s1 Hs1) in Ht.
  - lia.
  - destruct (IH _ Hn Hr1) as (rest & s' & Hpo & Hrun & Hdis); [simpl; lia|].
    exists (mkTick Prod 0 :: rest), s'. split; [by apply Forall_cons|].
    simpl. unfold sys_step in Hstep. simpl in Hstep. unfold sys_step. simpl.
    rewrite Hs1 in *. done.
Qed.

(** X8.  A producer whose consumer never runs (it died while attaching,
    say) stores at most [RING_CAP] records.  With [n <= RING_CAP] it can
    finish its loop alone; with [n > RING_CAP] it never finishes: it comes
    to rest in [sem_wait(sem_empty)] with exactly [RING_CAP] records
    stored, and only a consumer could wake it. *)
Theorem producer_alone_fills_the_ring_and_waits g n :
  0 < n <= INT_MAX ->
  (forall sched s,
     producer_only sched -> run g n sched (init g n) = Some s ->
     Z.of_nat (length (enqueued (trace s))) <= RING_CAP /\
     (RING_CAP < n -> p_pc (producer s) <> PDone)) /\
  (exists sched s,
     producer_only sched /\ run g n sched (init g n) = Some s /\
     if n <=? RING_CAP
     then p_pc (producer s) = PDone /\ Z.of_nat (length (enqueued (trace s))) = n
     else p_pc (producer s) = PWaitEmpty /\
          Z.of_nat (length (enqueued (trace s))) = RING_CAP /\
          forall t, step_producer g n t s = Blocked).
Proof.
  intros Hn.
  assert (forall sched s,
            producer_only sched -> run g n sched (init g n) = Some s ->
            reachable g n s /\ p_acquired (producer s) <= RING_CAP /\
            sem_empty (sems s) = RING_CAP - p_acquired (producer s) /\
            c_in_cs (consumer s) = 0) as Hsolo.
  { intros sched s Hpo Hrun.
    assert (reachable g n s) as Hr by (eapply run_reachable; [apply reach_init|done]).
    pose proof (producer_only_run g n sched _ _ Hpo Hrun) as Hc.
    destruct (Inv_sync_reachable g n s Hr).
    rewrite Hc in *. unfold c_returned, c_in_cs in *. simpl in *.
    repeat split; try done; lia. }
  split.
  - intros sched s Hpo Hrun. destruct (Hsolo sched s Hpo Hrun) as (Hr & Hacq & _).
    destruct (Inv_data_reachable g n s ltac:(lia) Hr).
    pose proof (producer_chain (producer s)).
    split; [lia|]. intros Hbig Hdone. specialize (id_pdone0 Hdone). lia.
  - destruct (producer_runs_until_disabled g n (Z.to_nat (p_todo n (producer (init g n))))
                (init g n) Hn (reach_init g n)) as (sched & s & Hpo & Hrun & Hdis).
    { unfold p_todo. simpl. lia. }
    exists sched, s. split; [done|]. split; [done|].
    destruct (Hsolo sched s Hpo Hrun) as (Hr & Hacq & Hse & Hcs).
    destruct (Inv_data_reachable g n s ltac:(lia) Hr).
    destruct (Inv_sync_reachable g n s Hr).
    pose proof (producer_chain (producer s)) as Hch.
    unfold p_enabled, p_running in *.
    destruct s as [r [se sf sm] [ppc pi pt0 pm pst] c tr]. unfold_counters. simpl in *.
    destruct ppc; simpl in *; try done.
    + (* waiting for a free slot *)
      specialize (id_prun0 eq_refl).
      destruct (n <=? RING_CAP) eqn:E; [lia|].
      split; [done|]. split; [lia|].
      intros t. unfold step_producer, sem_wait. simpl.
      by replace (0 <? se) with false by lia.
    + (* waiting for the mutex: it is free *)
      destruct g; [done|]. rewrite is_mutex0 in Hdis. simpl in Hdis. lia.
    + (* loop over *)
      specialize (id_pdone0 eq_refl).
      destruct (n <=? RING_CAP) eqn:E; [split; [done|lia]|lia].
Qed.

Lemma producer_alone_fills_the_ring_and_waits_witness :
  exists sched s,
    producer_only sched /\ run false 1025 sched (init false 1025) = Some s /\
    p_pc (producer s) = PWaitEmpty /\
    Z.of_nat (length (enqueued (trace s))) = RING_CAP.
Proof.
  assert (0 < 1025 <= INT_MAX) as Hn by (unfold INT_MAX; lia).
  destruct (producer_alone_fills_the_ring_and_waits false 1025 Hn)
    as (_ & sched & s & Hpo & Hrun & Hend).
  exists sched, s. simpl in Hend. destruct Hend as (Hpc & Hlen & _).
  split; [exact Hpo|]. split; [exact Hrun|]. split; [exact Hpc|exact Hlen].
Defined.

(* ================================================================== *)
(** * Further properties of the integrity auditor *)

Lemma sum_over_indicator_in x l :
  NoDup l -> x ∈ l -> sum_over (fun id => if x =? id then 1 else 0) l = 1.
Proof.
  induction 1 as [|y l Hy Hnd IH]; intros Hx; [by apply elem_of_nil in Hx|].
  simpl. apply elem_of_cons in Hx as [->|Hx].
  - rewrite Z.eqb_refl, sum_over_zero; [lia|].
    intros id Hid. destruct (y =? id) eqn:E; [|done].
    apply Z.eqb_eq in E. by subst.
  - destruct (x =? y) eqn:E; [apply Z.eqb_eq in E; by subst|].
    rewrite IH by done. lia.
Qed.

Lemma sum_over_indicator_notin x l :
  x ∉ l -> sum_over (fun id => if x =? id then 1 else 0) l = 0.
Proof.
  intros Hx. apply sum_over_zero. intros id Hid.
  destruct (x =? id) eqn:E; [|done]. apply Z.eqb_eq in E. by subst.
Qed.

(** The occurrences of the ids of [1, n] add up to the number of valid
    records. *)
Lemma sum_occurrences_valid n ids :
  sum_over (fun id => occurrences id ids) (seqZ 1 n) = count_valid n ids.
Proof.
  induction ids as [|x r IH]; simpl.
  - by apply sum_over_zero.
  - rewrite sum_over_plus, IH. f_equal.
    destruct ((1 <=? x) && (x <=? n)) eqn:E.
    + apply sum_over_indicator_in; [apply NoDup_seqZ|]. apply elem_of_seqZ. lia.
    + apply sum_over_indicator_notin. rewrite elem_of_seqZ. lia.
Qed.

Lemma count_valid_le_length n ids : 0 <= count_valid n ids <= Z.of_nat (length ids).
Proof.
  induction ids as [|x r IH]; simpl; [lia|].
  destruct ((1 <=? x) && (x <=? n)); lia.
Qed.

Lemma sum_over_const c l : sum_over (fun _ => c) l = c * Z.of_nat (length l).
Proof. induction l as [|x l IH]; simpl; [lia|]. rewrite IH. lia. Qed.

(** Distinct ids seen plus repeats make up the sum of the counters. *)
Lemma seen_plus_repeats cnt l :
  (forall id, 0 <= cnt id) ->
  (Z.of_nat (length l) - count_missing cnt l) + sum_duplicate cnt l = sum_over cnt l.
Proof.
  intros Hc. unfold count_missing, sum_duplicate.
  induction l as [|x l IH]; simpl; [lia|].
  specialize (Hc x). destruct (cnt x =? 0) eqn:E; lia.
Qed.

(** X9.  The report accounts for the valid records: the number of distinct
    ids seen ([n - missing]) plus [duplicate] never exceeds the number of
    consumed records with an id in [1, n], and equals it when no id is
    consumed more than 255 times.  Records with an id outside [1, n] are
    counted nowhere. *)
Theorem report_accounts_for_valid_records n ids :
  0 < n < INT_MAX -> Z.of_nat (length ids) <= INT_MAX ->
  exists missing duplicate,
    auditor n ids = Some (missing, duplicate) /\
    0 <= missing <= n /\ 0 <= duplicate /\
    (n - missing) + duplicate <= count_valid n ids /\
    count_valid n ids <= Z.of_nat (length ids) /\
    ((forall id, 1 <= id <= n -> occurrences id ids <= 255) ->
     (n - missing) + duplicate = count_valid n ids).
Proof.
  intros Hn Hlen. exists (code_missing n ids), (code_duplicate n ids).
  split; [by apply auditor_code|].
  pose proof (count_missing_bounds (wrapped ids) (seqZ 1 n)) as Hm.
  rewrite length_seqZ, Z2Nat.id in Hm by lia.
  pose proof (sum_duplicate_nonneg (wrapped ids) (seqZ 1 n)) as Hd.
  pose proof (seen_plus_repeats (wrapped ids) (seqZ 1 n)
                (fun id => proj1 (u8_range (occurrences id ids)))) as Hacc.
  rewrite length_seqZ, Z2Nat.id in Hacc by lia.
  pose proof (count_valid_le_length n ids) as Hv.
  unfold code_missing, code_duplicate.
  assert (sum_over (wrapped ids) (seqZ 1 n) <= count_valid n ids) as Hle.
  { rewrite <- sum_occurrences_valid. apply sum_over_le. intros id _.
    unfold wrapped, u8. pose proof (occurrences_nonneg id ids).
    apply Z.mod_le; lia. }
  repeat split; try lia.
  intros Hsmall. rewrite Hacc, <- sum_occurrences_valid.
  apply sum_over_ext. intros id Hid. apply elem_of_seqZ in Hid.
  unfold wrapped. apply u8_small.
  pose proof (occurrences_nonneg id ids). specialize (Hsmall id). lia.
Qed.

Lemma report_accounts_for_valid_records_witness :
  exists missing duplicate,
    auditor 5 [1; 2; 2; 9; 0] = Some (missing, duplicate) /\
    (5 - missing) + duplicate = count_valid 5 [1; 2; 2; 9; 0].
Proof.
  assert (0 < 5 < INT_MAX) as Hn by (unfold INT_MAX; lia).
  assert (Z.of_nat (length [1; 2; 2; 9; 0]) <= INT_MAX) as Hl by (unfold INT_MAX; simpl; lia).
  destruct (report_accounts_for_valid_records 5 [1; 2; 2; 9; 0] Hn Hl)
    as (m & d & Ha & _ & _ & _ & _ & Heq).
  exists m, d. split; [exact Ha|]. apply Heq.
  intros id Hid. pose proof (occurrences_le_length id [1; 2; 2; 9; 0]). simpl in *. lia.
Defined.

Lemma sum_over_all_one f l :
  (forall id, id ∈ l -> 1 <= f id) -> sum_over f l <= Z.of_nat (length l) ->
  forall id, id ∈ l -> f id = 1.
Proof.
  induction l as [|x l IH]; intros Hf Hsum id Hid; [by apply elem_of_nil in Hid|].
  simpl in Hsum.
  assert (Z.of_nat (length l) <= sum_over f l).
  { rewrite <- (Z.mul_1_l (Z.of_nat (length l))), <- sum_over_const.
    apply sum_over_le. intros y Hy. apply Hf. by apply list_elem_of_further. }
  pose proof (Hf x (list_elem_of_here _ _)).
  apply elem_of_cons in Hid as [->|Hid]; [lia|].
  apply IH; [|lia|done]. intros y Hy. apply Hf. by apply list_elem_of_further.
Qed.

(** X10.  The audit is sound for a full run: if [n] records were consumed
    and the report says [missing = 0], then every id of [1, n] was consumed
    exactly once, no record had an id outside [1, n], and [duplicate] is 0
    as well (the 8-bit counters cannot hide anything here). *)
Theorem nothing_missing_means_each_id_once n ids duplicate :
  0 < n < INT_MAX -> Z.of_nat (length ids) = n ->
  auditor n ids = Some (0, duplicate) ->
  (forall id, 1 <= id <= n -> occurrences id ids = 1) /\
  count_valid n ids = n /\ duplicate = 0.
Proof.
  intros Hn Hlen Ha. rewrite auditor_code in Ha by lia.
  injection Ha as Hm Hd.
  assert (forall id, id ∈ seqZ 1 n -> 1 <= occurrences id ids) as Hpos.
  { intros id Hid. pose proof (occurrences_nonneg id ids).
    destruct (decide (occurrences id ids = 0)) as [E|]; [|lia]. exfalso.
    assert (1 <= code_missing n ids); [|lia].
    unfold code_missing, count_missing.
    apply list_elem_of_split in Hid as (l1 & l2 & ->).
    assert (forall f l1 l2, sum_over f (l1 ++ l2) = sum_over f l1 + sum_over f l2) as Happ.
    { intros f k1 k2. induction k1 as [|y k1 IH]; simpl; [lia|]. rewrite IH. lia. }
    rewrite Happ. simpl. unfold wrapped at 2. rewrite E. simpl.
    assert (forall l, 0 <= sum_over (fun id0 => if wrapped ids id0 =? 0 then 1 else 0) l) as Hnn.
    { intros l. apply sum_over_nonneg. intros y. destruct (_ =? _); lia. }
    pose proof (Hnn l1). pose proof (Hnn l2). lia. }
  assert (forall id, id ∈ seqZ 1 n -> occurrences id ids = 1) as Hone.
  { apply sum_over_all_one; [done|].
    rewrite sum_occurrences_valid, length_seqZ, Z2Nat.id by lia.
    pose proof (count_valid_le_length n ids). lia. }
  split; [intros id Hid; apply Hone, elem_of_seqZ; lia|].
  split.
  - rewrite <- sum_occurrences_valid.
    rewrite (sum_over_ext _ (fun _ => 1)) by done.
    rewrite sum_over_const, length_seqZ, Z2Nat.id by lia. lia.
  - subst duplicate. unfold code_duplicate, sum_duplicate.
    apply sum_over_zero. intros id Hid. unfold wrapped. rewrite (Hone id Hid). done.
Qed.

Lemma nothing_missing_means_each_id_once_witness :
  occurrences 2 [3; 1; 2] = 1.
Proof.
  assert (0 < 3 < INT_MAX) as Hn by (unfold INT_MAX; lia).
  assert (1 <= 2 <= 3) as Hid by lia.
  exact (proj1 (nothing_missing_means_each_id_once 3 [3; 1; 2] 0 Hn eq_refl eq_refl) 2 Hid).
Defined.

Lemma occurrences_perm id ids ids' :
  Permutation ids ids' -> occurrences id ids = occurrences id ids'.
Proof. induction 1; simpl; lia. Qed.

(** X11.  The report depends only on how often each id was consumed, not
    on the order: a reordering of the consumed records gives the same
    report, so the auditor does not notice records delivered out of
    order. *)
Theorem report_ignores_order n ids ids' :
  0 < n < INT_MAX -> Z.of_nat (length ids) <= INT_MAX ->
  Permutation ids ids' ->
  auditor n ids = auditor n ids'.
Proof.
  intros Hn Hlen Hp.
  rewrite !auditor_code by (rewrite <- ?Hp; done).
  unfold code_missing, code_duplicate, count_missing, sum_duplicate.
  f_equal. f_equal; apply sum_over_ext; intros id _; unfold wrapped;
    by rewrite (occurrences_perm id ids ids' Hp).
Qed.

Lemma report_ignores_order_witness :
  auditor 3 [1; 2; 3] = auditor 3 [3; 1; 2].
Proof.
  assert (0 < 3 < INT_MAX) as Hn by (unfold INT_MAX; lia).
  assert (Z.of_nat (length [1; 2; 3]) <= INT_MAX) as Hl by (unfold INT_MAX; simpl; lia).
  apply (report_ignores_order 3 [1; 2; 3] [3; 1; 2] Hn Hl).
  apply (Permutation_cons_app (l := [2; 3]) [3] [2] 1).
  apply (Permutation_cons_app (l := [3]) [3] [] 2). reflexivity.
Defined.

(* ================================================================== *)
(** * Start-up, attach and the whole program *)

(** X12.  [main] with a valid count starts the two loops exactly when
    every call it needs succeeds (the mutex only counts in safe mode).
    Then the segment is sized and zeroed, [sem_empty] is [RING_CAP],
    [sem_full] is 0 and the mutex is 1 or absent, whatever objects of the
    same names existed before.  Otherwise it exits with code 1 after one
    line on [stderr], and what it had created by then stays behind: the
    segment with length 0 if [ftruncate] failed, sized and zeroed if a
    later call failed, and the two counting semaphores if their
    [sem_open] was reached and succeeded. *)
Theorem setup_starts_iff_all_calls_succeed g env n w :
  0 < n ->
  match main_setup g env (Some n) w with
  | Started m w' =>
      all_ok g env = true /\ m = n /\ err w' = err w /\
      objects w' = (Some (Sized zero_ring), Some RING_CAP, Some 0,
                    if g then None else Some 1)
  | Exited code w' =>
      all_ok g env = false /\ code = 1 /\
      (exists line, err w' = err w ++ [line]) /\
      objects w' = objects (world_of (main_setup g env (Some n) world0)) /\
      shm w' = (if shm_open_ok env
                then Some (if ftruncate_ok env then Sized zero_ring else Unsized)
                else None) /\
      named_empty w' = (if shm_open_ok env && ftruncate_ok env && mmap_ok env
                           && sem_empty_ok env
                        then Some RING_CAP else None) /\
      named_full w' = (if shm_open_ok env && ftruncate_ok env && mmap_ok env
                          && sem_full_ok env
                       then Some 0 else None)
  end.
Proof.
  intros Hn. unfold main_setup. replace (n <=? 0) with false by lia.
  destruct env as [[] [] [] [] [] [] []], g; cbn -[zero_ring RING_CAP];
    repeat split; try done; eauto.
Qed.

Lemma setup_starts_iff_all_calls_succeed_witness :
  exists w', main_setup false (mkEnv true false true true true true true) (Some 3)
               (mkWorld None (Some 7) None None []) = Exited 1 w' /\
             shm w' = Some Unsized /\ named_empty w' = None.
Proof.
  pose proof (setup_starts_iff_all_calls_succeed false
                (mkEnv true false true true true true true) 3
                (mkWorld None (Some 7) None None []) ltac:(lia)) as H.
  destruct (main_setup false (mkEnv true false true true true true true) (Some 3)
              (mkWorld None (Some 7) None None [])) as [code w'|m w'] eqn:E.
  - destruct H as (_ & -> & _ & _ & Hshm & He & _). exists w'.
    split; [reflexivity|]. split; [exact Hshm|exact He].
  - destruct H as (Hok & _). discriminate Hok.
Defined.

(** X13.  The consumer attaches to exactly what a successful [main]
    created: the loops start in the state [init].  Attaching where no
    segment of that name exists ends the consumer with code 1 and creates
    nothing. *)
Theorem consumer_attaches_to_what_main_created g env n w w1 :
  main_setup g env (Some n) w = Started n w1 ->
  consumer_attach g cenv_ok n w1
  = Attached (ring (init g n)) (sems (init g n)) (consumer (init g n)) /\
  (forall g' cenv w0,
     shm w0 = None ->
     exists w', consumer_attach g' cenv n w0 = AttachExit 1 w' /\ objects w' = objects w0).
Proof.
  intros Hs. split.
  - unfold main_setup in Hs. destruct (n <=? 0) eqn:En; [done|].
    assert (calloc_fits n = true) as Hfit by (unfold calloc_fits; lia).
    destruct env as [[] [] [] [] [] [] []], g; cbn -[zero_ring RING_CAP] in Hs;
      try done; injection Hs as <-; unfold consumer_attach;
      cbn -[zero_ring RING_CAP calloc_seen calloc_fits]; rewrite Hfit; reflexivity.
  - intros g' cenv w0 Hw. unfold consumer_attach. rewrite Hw.
    eexists. split; [reflexivity|]. unfold objects. simpl. by rewrite Hw.
Qed.

Lemma consumer_attaches_to_what_main_created_witness :
  exists w1, main_setup true env_ok (Some 2) world0 = Started 2 w1 /\
             consumer_attach true cenv_ok 2 w1
             = Attached (ring (init true 2)) (sems (init true 2)) (consumer (init true 2)).
Proof.
  destruct (main_setup true env_ok (Some 2) world0) as [code w'|m w1] eqn:E.
  - exfalso. revert E. vm_compute. discriminate.
  - assert (m = 2) as -> by (revert E; vm_compute; intros [= <- _]; reflexivity).
    exists w1. split; [reflexivity|].
    exact (proj1 (consumer_attaches_to_what_main_created true env_ok 2 world0 w1 E)).
Defined.

Lemma forallb_producer_only sched :
  forallb (fun t => match who t with Prod => true | Cons => false end) sched = true ->
  producer_only sched.
Proof.
  induction sched as [|t r IH]; simpl; intros H; [by apply Forall_nil|].
  apply andb_prop in H as [Ht Hr]. apply Forall_cons. split; [|by apply IH].
  by destruct (who t).
Qed.

Lemma producer_only_forallb sched :
  producer_only sched ->
  forallb (fun t => match who t with Prod => true | Cons => false end) sched = true.
Proof.
  induction 1 as [|t r Ht _ IH]; simpl; [done|]. by rewrite Ht, IH.
Qed.

Lemma started_state g env n w w1 :
  main_setup g env (Some n) w = Started n w1 ->
  shm w1 = Some (Sized zero_ring) /\ named_empty w1 = Some RING_CAP /\ named_full w1 = Some 0 /\
  named_mutex w1 = (if g then None else Some 1) /\ 0 < n.
Proof.
  intros Hs. unfold main_setup in Hs. destruct (n <=? 0) eqn:En; [done|].
  destruct env as [[] [] [] [] [] [] []], g; cbn -[zero_ring RING_CAP] in Hs;
    try done; injection Hs as <-; repeat split; try done; lia.
Qed.

(** X14.  A whole execution with a count [n], [0 < n < INT_MAX], and no
    failing call: for every interleaving that lets [main] return, both
    processes end with code 0, the integrity line reads [missing = 0],
    [duplicate = 0], the run took [18 n + 2] statements, and no named
    object is left; and such an interleaving exists.  (At [n = INT_MAX]
    the child's reporting loop is undefined: see C1.) *)
Theorem program_completes_and_cleans_up g env n w :
  0 < n < INT_MAX -> all_ok g env = true ->
  (forall sched f,
     linux_program g env cenv_ok (Some n) sched w = Some f ->
     parent_exit f = 0 /\ child_exit f = Some 0 /\ report f = Some (0, 0) /\
     objects (world_after f) = (None, None, None, None) /\
     Z.of_nat (length sched) = 18 * n + 2) /\
  (exists sched f, linux_program g env cenv_ok (Some n) sched w = Some f).
Proof.
  intros Hn Hok.
  pose proof (setup_starts_iff_all_calls_succeed g env n w ltac:(lia)) as Hset.
  destruct (main_setup g env (Some n) w) as [code w'|m w1] eqn:Es.
  { destruct Hset as (Hf & _). congruence. }
  destruct Hset as (_ & -> & _ & _).
  pose proof (consumer_attaches_to_what_main_created g env n w w1 Es) as [Hatt _].
  assert (forall sched, linux_program g env cenv_ok (Some n) sched w
          = match run g n sched (init g n) with
            | Some s => if final s
                        then Some (mkFinished 0 (Some 0) (c_report (consumer s)) (cleanup_ipc w1))
                        else None
            | None => None
            end) as Hprog.
  { intros sched. unfold linux_program. rewrite Es, Hatt. reflexivity. }
  split.
  - intros sched f Hf. rewrite Hprog in Hf.
    destruct (run g n sched (init g n)) as [s|] eqn:Hrun; [|done].
    destruct (final s) eqn:Hfin; [|done]. injection Hf as <-. simpl.
    assert (reachable g n s) as Hr by (eapply run_reachable; [apply reach_init|done]).
    destruct (complete_run_report g n s Hn Hr Hfin) as (_ & _ & _ & _ & Hrep).
    pose proof (run_length g n sched _ _ ltac:(lia) (reach_init g n) Hrun) as Hlen.
    rewrite (todo_init g n) in Hlen.
    apply (todo_final n s (Inv_data_reachable g n s ltac:(lia) Hr)) in Hfin.
    repeat split; try done. lia.
  - destruct (complete_run_exists g n Hn) as (sched & s & Hrun & Hfin).
    exists sched. rewrite Hprog, Hrun, Hfin. eauto.
Qed.

Lemma program_completes_and_cleans_up_witness :
  exists f, linux_program false env_ok cenv_ok (Some 2) fair_run_2 world0 = Some f /\
            parent_exit f = 0 /\ report f = Some (0, 0).
Proof.
  assert (0 < 2 < INT_MAX) as Hn by (unfold INT_MAX; lia).
  destruct (linux_program false env_ok cenv_ok (Some 2) fair_run_2 world0) as [f|] eqn:E.
  - destruct (proj1 (program_completes_and_cleans_up false env_ok 2 world0 Hn eq_refl)
                fair_run_2 f E) as (Hp & _ & Hr & _).
    exists f. split; [reflexivity|]. split; [exact Hp|exact Hr].
  - exfalso. revert E. vm_compute. discriminate.
Defined.

(** X15.  A consumer that dies in its set-up (here: [calloc] fails) is not
    noticed by [main]: if [main] returns at all it returns 0, with the
    child's exit code 1 unexamined and no integrity line printed.  It
    returns only when [n <= RING_CAP]; with more records it waits for a
    free slot for ever. *)
Theorem dead_consumer_goes_unnoticed g env n w :
  0 < n <= INT_MAX -> all_ok g env = true ->
  (forall sched f,
     linux_program g env (mkCEnv true true false) (Some n) sched w = Some f ->
     parent_exit f = 0 /\ child_exit f = Some 1 /\ report f = None /\
     objects (world_after f) = (None, None, None, None) /\ n <= RING_CAP) /\
  (n <= RING_CAP ->
   exists sched f, linux_program g env (mkCEnv true true false) (Some n) sched w = Some f).
Proof.
  intros Hn Hok.
  pose proof (setup_starts_iff_all_calls_succeed g env n w ltac:(lia)) as Hset.
  destruct (main_setup g env (Some n) w) as [code w'|m w1] eqn:Es.
  { destruct Hset as (Hf & _). congruence. }
  destruct Hset as (_ & -> & _ & _).
  destruct (started_state g env n w w1 Es) as (Hshm & He & Hfu & Hmu & _).
  assert (forall sched, linux_program g env (mkCEnv true true false) (Some n) sched w
          = if forallb (fun t => match who t with Prod => true | Cons => false end) sched
            then match run g n sched (init g n) with
                 | Some s =>
                     match p_pc (producer s) with
                     | PDone => Some (mkFinished 0 (Some 1) None
                                        (cleanup_ipc (mkWorld (shm w1) (named_empty w1)
                                           (named_full w1) (named_mutex w1)
                                           (err w1 ++ ["calloc(seen)"]))))
                     | _ => None
                     end
                 | None => None
                 end
            else None) as Hprog.
  { intros sched. unfold linux_program, consumer_attach, die_attach. rewrite Es.
    rewrite Hshm, He, Hfu, Hmu. destruct g; reflexivity. }
  destruct (producer_alone_fills_the_ring_and_waits g n Hn) as (Hall & sched0 & s0 & Hpo0 & Hrun0 & Hend).
  split.
  - intros sched f Hf. rewrite Hprog in Hf.
    destruct (forallb _ sched) eqn:Hfb; [|done].
    destruct (run g n sched (init g n)) as [s|] eqn:Hrun; [|done].
    destruct (p_pc (producer s)) eqn:Hpc; try done. injection Hf as <-. simpl.
    destruct (Hall sched s (forallb_producer_only sched Hfb) Hrun) as (_ & Hnot).
    repeat split; try done.
    destruct (decide (n <= RING_CAP)); [done|]. exfalso. apply Hnot; [lia|done].
  - intros Hsmall. replace (n <=? RING_CAP) with true in Hend by lia.
    destruct Hend as (Hpc & _). exists sched0.
    rewrite Hprog, (producer_only_forallb sched0 Hpo0), Hrun0, Hpc. eauto.
Qed.

Lemma dead_consumer_goes_unnoticed_witness :
  exists sched f,
    linux_program false env_ok (mkCEnv true true false) (Some 2) sched world0 = Some f /\
    parent_exit f = 0 /\ child_exit f = Some 1.
Proof.
  assert (0 < 2 <= INT_MAX) as Hn by (unfold INT_MAX; lia).
  destruct (dead_consumer_goes_unnoticed false env_ok 2 world0 Hn eq_refl) as (Hall & Hex).
  destruct (Hex ltac:(unfold RING_CAP; lia)) as (sched & f & Hf).
  exists sched, f. destruct (Hall sched f Hf) as (Hp & Hc & _).
  split; [exact Hf|]. split; [exact Hp|exact Hc].
Defined.

(* ================================================================== *)
(** * Command line of the Win32 program *)

Lemma digit_of_pretty_char d :
  (d < 10)%N -> digit_of (pretty_N_char d) = Some (Z.of_N d) /\
                is_space (pretty_N_char d) = false /\
                Z.of_nat (Ascii.nat_of_ascii (pretty_N_char d)) <> 45 /\
                Z.of_nat (Ascii.nat_of_ascii (pretty_N_char d)) <> 43.
Proof.
  intros Hd.
  assert (d = 0 \/ d = 1 \/ d = 2 \/ d = 3 \/ d = 4 \/ d = 5 \/ d = 6 \/ d = 7
          \/ d = 8 \/ d = 9)%N as Hc by lia.
  repeat (destruct Hc as [->|Hc]); try subst d; vm_compute; repeat split; discriminate.
Qed.

(** Reading back the digits written for [x] continues the accumulator by
    the decimal digits of [x]. *)
Lemma digits_val_pretty_go x :
  exists k : Z, 0 <= k /\ forall s acc,
    digits_val acc (pretty_N_go x s) = digits_val (acc * 10 ^ k + Z.of_N x) s.
Proof.
  induction (N.lt_wf_0 x) as [x _ IH].
  destruct (decide (x = 0)%N) as [->|Hx].
  - exists 0. split; [lia|]. intros s acc. rewrite pretty_N_go_0. f_equal. lia.
  - destruct (IH (x `div` 10)%N) as (k & Hk & Hgo); [apply N.div_lt; lia|].
    exists (k + 1). split; [lia|]. intros s acc.
    rewrite pretty_N_go_step by lia. rewrite Hgo. simpl.
    destruct (digit_of_pretty_char (x `mod` 10)%N) as (-> & _).
    { apply N.mod_lt. lia. }
    f_equal. rewrite Z.pow_add_r by lia.
    pose proof (N.div_mod x 10 ltac:(lia)) as Hdm.
    assert (Z.of_N x = 10 * Z.of_N (x `div` 10) + Z.of_N (x `mod` 10)) by lia.
    lia.
Qed.

(** The text written for a positive number starts with a digit. *)
Lemma pretty_go_head x s :
  (0 < x)%N ->
  exists c rest, pretty_N_go x s = String c rest /\
                 is_space c = false /\
                 Z.of_nat (Ascii.nat_of_ascii c) <> 45 /\
                 Z.of_nat (Ascii.nat_of_ascii c) <> 43.
Proof.
  revert s. induction (N.lt_wf_0 x) as [x _ IH]. intros s Hx.
  rewrite pretty_N_go_step by done.
  destruct (decide (x `div` 10 = 0)%N) as [E|E].
  - rewrite E, pretty_N_go_0.
    destruct (digit_of_pretty_char (x `mod` 10)%N) as (_ & H1 & H2 & H3).
    { apply N.mod_lt. lia. }
    eauto 10.
  - apply IH; [apply N.div_lt; lia|by apply N.neq_0_lt_0].
Qed.

Lemma atoi_pretty_pos (p : positive) :
  Z.pos p <= INT_MAX ->
  skip_spaces (pretty (N.pos p)) = pretty (N.pos p) /\
  digits_val 0 (pretty (N.pos p)) = Z.pos p /\
  exists c rest, pretty (N.pos p) = String c rest /\
                 Z.of_nat (Ascii.nat_of_ascii c) <> 45 /\
                 Z.of_nat (Ascii.nat_of_ascii c) <> 43.
Proof.
  intros Hp. unfold pretty, pretty_N. rewrite decide_False by done.
  destruct (pretty_go_head (N.pos p) "" ltac:(lia)) as (c & rest & E & Hsp & H1 & H2).
  destruct (digits_val_pretty_go (N.pos p)) as (k & Hk & Hgo).
  split; [rewrite E; simpl; by rewrite Hsp|].
  split; [rewrite Hgo; simpl; lia|]. eauto.
Qed.

Lemma atoi_minus rest :
  atoi ("-" +:+ rest)
  = if (INT_MIN <=? - digits_val 0 rest) && (- digits_val 0 rest <=? INT_MAX)
    then Some (- digits_val 0 rest) else None.
Proof. reflexivity. Qed.

(** [atoi] reads back what ["%d"] prints. *)
Lemma atoi_pretty n :
  INT_MIN <= n <= INT_MAX -> atoi (pretty n) = Some n.
Proof.
  unfold INT_MIN, INT_MAX. intros Hn. destruct n as [|p|p].
  - reflexivity.
  - destruct (atoi_pretty_pos p) as (Hsk & Hv & c & rest & E & H1 & H2);
      [unfold INT_MAX; lia|].
    unfold atoi. change (pretty (Z.pos p)) with (pretty (N.pos p)).
    rewrite Hsk. rewrite E in *.
    apply Z.eqb_neq in H1, H2. cbv zeta. rewrite H1, H2, Hv.
    unfold INT_MIN, INT_MAX.
    by replace ((-2147483648 <=? Z.pos p) && (Z.pos p <=? 2147483647)) with true by lia.
  - assert (Z.pos p <= 2147483648) as Hp by lia.
    change (pretty (Z.neg p)) with ("-" +:+ pretty (N.pos p)).
    rewrite atoi_minus.
    unfold pretty, pretty_N. rewrite decide_False by done.
    destruct (digits_val_pretty_go (N.pos p)) as (k & Hk & Hgo).
    rewrite Hgo. simpl digits_val. unfold INT_MIN, INT_MAX.
    replace (- (0 * 10 ^ k + Z.pos p)) with (Z.neg p) by lia.
    clear Hgo Hk k.
    destruct (-2147483648 <=? Z.neg p) eqn:E1; [|apply Z.leb_gt in E1; lia].
    destruct (Z.neg p <=? 2147483647) eqn:E2; [done|apply Z.leb_gt in E2; lia].
Qed.

(** X16.  The child runs in the parent's mode with the parent's count: the
    arguments [main] starts the child with are read back by the child's
    [main] as the same mode and the same [n], for every [int] value. *)
Theorem child_receives_mode_and_count exe g n :
  INT_MIN <= n <= INT_MAX ->
  win_dispatch (child_argv exe g n) = Some (Child g n).
Proof.
  intros Hn. unfold win_dispatch, child_argv.
  destruct g; cbn -[atoi pretty]; by rewrite atoi_pretty.
Qed.

Lemma child_receives_mode_and_count_witness :
  win_dispatch (child_argv "IPC.exe" true 100000) = Some (Child true 100000).
Proof.
  apply child_receives_mode_and_count. unfold INT_MIN, INT_MAX. lia.
Defined.

(** X17.  A child started by hand with a count that is not positive is
    not turned away as the parent's input would be.  With a count of -2 or
    less its set-up cannot succeed: at the latest [calloc((size_t)n + 1, 1)]
    fails, and the child exits with code 1 without an integrity line,
    leaving the named objects as they were.  With 0 or -1 (0 is also what
    [atoi] makes of text that is not a number), if the set-up succeeds, the
    loop body never runs, the child takes nothing from the ring or the
    semaphores, and it reports [missing = 0], [duplicate = 0]. *)
Theorem child_with_nonpositive_count g cenv n w :
  n <= 0 ->
  win_dispatch ["IPC.exe"; "--child"; "abc"] = Some (Child false 0) /\
  (n <= -2 ->
   exists w', consumer_attach g cenv n w = AttachExit 1 w' /\ objects w' = objects w) /\
  (forall r sm c,
     consumer_attach g cenv n w = Attached r sm c ->
     -1 <= n /\
     forall p tr t,
     exists s', step_consumer g n t (mkState r sm p c tr) = Next s' /\
                c_pc (consumer s') = CDone /\
                c_report (consumer s') = Some (0, 0) /\
                ring s' = r /\ sems s' = sm /\
                step_consumer g n t s' = Halted).
Proof.
  intros Hn. split; [reflexivity|]. split.
  - intros H2. unfold consumer_attach, calloc_fits.
    replace (-1 <=? n) with false by lia. rewrite andb_false_r.
    destruct (shm w); [|by eexists].
    destruct (c_shm_open_ok cenv); [|by eexists].
    destruct (c_mmap_ok cenv); [|by eexists].
    destruct (named_empty w), (named_full w), g, (named_mutex w); by eexists.
  - intros r sm c Ha. unfold consumer_attach, calloc_fits in Ha.
    destruct (shm w) as [seg|]; [|done].
    destruct (c_shm_open_ok cenv); [|done]. destruct (c_mmap_ok cenv); [|done]. simpl in Ha.
    destruct (named_empty w), (named_full w),
      (if g then Some None else Some <$> named_mutex w); try done.
    destruct (-1 <=? n) eqn:E1; [|by rewrite andb_false_r in Ha].
    split; [lia|].
    destruct (c_calloc_ok cenv); [|done]. simpl in Ha.
    destruct seg; [done|]. injection Ha as <- <- <-.
    intros p tr t. unfold step_consumer. cbn -[calloc_seen].
    replace (0 <? n) with false by lia.
    unfold integrity_check. replace (Z.to_nat n) with 0%nat by lia. simpl.
    eexists. repeat split.
Qed.

Lemma child_with_nonpositive_count_witness :
  exists w', consumer_attach false cenv_ok (-5)
               (mkWorld (Some (Sized zero_ring)) (Some 1024) (Some 0) (Some 1) [])
             = AttachExit 1 w' /\
             objects w' = (Some (Sized zero_ring), Some 1024, Some 0, Some 1).
Proof.
  destruct (child_with_nonpositive_count false cenv_ok (-5)
              (mkWorld (Some (Sized zero_ring)) (Some 1024) (Some 0) (Some 1) [])
              ltac:(lia)) as (_ & H & _).
  exact (H ltac:(lia)).
Defined.
(* ================================================================== *)
(** * The summary statistics of the synchronised program *)

Lemma ll_add_ok a b :
  Sync.LLONG_MIN <= a + b <= LLONG_MAX -> Sync.ll_add a b = Some (a + b).
Proof.
  intros H. unfold Sync.ll_add.
  replace (Sync.LLONG_MIN <=? a + b) with true by lia.
  by replace (a + b <=? LLONG_MAX) with true by lia.
Qed.

Lemma stats_loop_spec B arr : forall (k : nat) i sum mn mx,
  0 <= i -> 0 <= B ->
  (Z.to_nat i + k <= length arr)%nat ->
  Forall (fun x => - B <= x <= B) arr ->
  (i + Z.of_nat k) * B <= LLONG_MAX ->
  - (i * B) <= sum <= i * B ->
  i * mn <= sum <= i * mx -> mn <= mx ->
  exists sum' mn' mx',
    Sync.stats_loop k i arr sum mn mx = Some (sum', mn', mx') /\
    (i + Z.of_nat k) * mn' <= sum' <= (i + Z.of_nat k) * mx' /\
    mn' <= mn /\ mx <= mx' /\
    (mn' = mn \/ mn' ∈ take k (drop (Z.to_nat i) arr)) /\
    (mx' = mx \/ mx' ∈ take k (drop (Z.to_nat i) arr)) /\
    Forall (fun x => mn' <= x <= mx') (take k (drop (Z.to_nat i) arr)).
Proof.
  induction k as [|k IH]; intros i sum mn mx Hi HB Hlen Harr Hcap Hsum Havg Hmm.
  - exists sum, mn, mx. simpl. rewrite Z.add_0_r.
    repeat split; try lia; auto.
  - destruct (lookup_lt_is_Some_2 arr (Z.to_nat i)) as [x Hx]; [lia|].
    pose proof (proj1 (Forall_lookup _ _) Harr _ _ Hx) as Hxb. simpl in Hxb.
    assert (drop (Z.to_nat i) arr = x :: drop (Z.to_nat (i + 1)) arr) as Hd.
    { replace (Z.to_nat (i + 1)) with (S (Z.to_nat i)) by lia. by apply drop_S. }
    assert ((i + 1 + Z.of_nat k) * B <= LLONG_MAX) as Hcap'
      by (by replace (i + 1 + Z.of_nat k) with (i + Z.of_nat (S k)) by lia).
    assert ((i + 1) * B <= (i + 1 + Z.of_nat k) * B) as Hmono by nia.
    assert (- ((i + 1) * B) <= sum + x <= (i + 1) * B) as Hsum' by lia.
    set (mn2 := if x <? mn then x else mn). set (mx2 := if mx <? x then x else mx).
    assert (mn2 <= mn /\ mn2 <= x /\ mx <= mx2 /\ x <= mx2) as Hm2
      by (unfold mn2, mx2; destruct (x <? mn) eqn:E1, (mx <? x) eqn:E2; lia).
    assert ((i + 1) * mn2 <= sum + x <= (i + 1) * mx2) as Havg' by nia.
    cbn [Sync.stats_loop]. rewrite Hx. cbn [mbind option_bind].
    rewrite ll_add_ok by (change Sync.LLONG_MIN with (-9223372036854775808) in *;
        change LLONG_MAX with 9223372036854775807 in *; lia).
    cbn [mbind option_bind]. fold mn2 mx2.
    destruct (IH (i + 1) (sum + x) mn2 mx2)
      as (sum' & mn' & mx' & Hrun & Hb & Hmn & Hmx & Hmin & Hmax & Hall);
      try lia; try done.
    exists sum', mn', mx'. rewrite Hd. rewrite firstn_cons.
    replace (i + Z.of_nat (S k)) with (i + 1 + Z.of_nat k) by lia.
    split; [done|]. split; [done|]. split; [lia|]. split; [lia|].
    split; [|split].
    + destruct Hmin as [->|Hin]; [|right; by apply list_elem_of_further].
      unfold mn2. destruct (x <? mn); [right; apply list_elem_of_here|by left].
    + destruct Hmax as [->|Hin]; [|right; by apply list_elem_of_further].
      unfold mx2. destruct (mx <? x); [right; apply list_elem_of_here|by left].
    + apply Forall_cons. split; [lia|done].
Qed.

Lemma quot_between n sum mn mx :
  0 < n -> n * mn <= sum <= n * mx -> mn <= Z.quot sum n <= mx.
Proof.
  intros Hn H. pose proof (Z.quot_rem' sum n) as Hq.
  destruct (Z_le_gt_dec 0 sum) as [Hs|Hs].
  - pose proof (Z.rem_bound_pos sum n Hs Hn). nia.
  - pose proof (Z.rem_bound_pos_neg sum n Hn ltac:(lia)). nia.
Qed.

Lemma stats_spec arr n B :
  0 < n -> n <= Z.of_nat (length arr) ->
  Forall (fun x => - B <= x <= B) arr -> n * B <= LLONG_MAX ->
  exists avg mn mx, Sync.stats arr n = Some (avg, mn, mx) /\
    mn <= avg <= mx /\
    mn ∈ take (Z.to_nat n) arr /\ mx ∈ take (Z.to_nat n) arr /\
    Forall (fun x => mn <= x <= mx) (take (Z.to_nat n) arr).
Proof.
  intros Hn Hlen Harr Hcap.
  destruct arr as [|a0 arr']; [simpl in Hlen; lia|].
  pose proof (Forall_inv Harr) as Ha0. simpl in Ha0.
  assert (0 <= B) as HB by lia.
  assert ((Z.to_nat 0 + Z.to_nat n <= length (a0 :: arr'))%nat) as Hl by lia.
  assert ((0 + Z.of_nat (Z.to_nat n)) * B <= LLONG_MAX) as Hc
    by (by rewrite Z2Nat.id by lia).
  destruct (stats_loop_spec B (a0 :: arr') (Z.to_nat n) 0 0 a0 a0
              ltac:(lia) HB Hl Harr Hc ltac:(lia) ltac:(lia) ltac:(lia))
    as (sum' & mn' & mx' & Hrun & Hb & Hmn & Hmx & Hmin & Hmax & Hall).
  - rewrite Z2Nat.id in Hb by lia. simpl in Hb.
    change (Z.to_nat 0) with 0%nat in *. rewrite drop_0 in *.
    assert (a0 ∈ take (Z.to_nat n) (a0 :: arr')) as Hin0.
    { destruct (Z.to_nat n) as [|k] eqn:E; [lia|]. rewrite firstn_cons.
      apply list_elem_of_here. }
    exists (Z.quot sum' n), mn', mx'. unfold Sync.stats.
    change ((a0 :: arr') !! 0%nat) with (Some a0). cbn [mbind option_bind].
    rewrite Hrun. cbn [mbind option_bind].
    replace (n =? 0) with false by lia.
    split; [done|]. split; [by apply quot_between|].
    split; [by destruct Hmin as [->|?]|]. split; [by destruct Hmax as [->|?]|done].
Qed.

(** X18 (IPC_LINUX.c, [stats], and its copy [print_avg_min_max]): for
    [n > 0] values that are in [arr] and small enough for their sum to fit
    [long long], the function returns; the minimum and the maximum are
    values of [arr[0 .. n)] that bound all of them, and the average lies
    between the two. *)
Theorem stats_gives_min_avg_max arr n B :
  0 < n -> n <= Z.of_nat (length arr) ->
  Forall (fun x => - B <= x <= B) arr -> n * B <= LLONG_MAX ->
  exists avg mn mx, Sync.stats arr n = Some (avg, mn, mx) /\
    mn <= avg <= mx /\
    mn ∈ take (Z.to_nat n) arr /\ mx ∈ take (Z.to_nat n) arr /\
    Forall (fun x => mn <= x <= mx) (take (Z.to_nat n) arr).
Proof. apply stats_spec. Qed.

Lemma stats_gives_min_avg_max_witness :
  Sync.stats [7; -2; 4] 3 = Some (3, -2, 7).
Proof.
  destruct (stats_gives_min_avg_max [7; -2; 4] 3 7) as (avg & mn & mx & H & _);
    [lia | simpl; lia | repeat constructor; lia | change LLONG_MAX with 9223372036854775807; lia |].
  reflexivity.
Defined.

(** X19 ([stats], [print_avg_min_max]): the functions divide by [n] and
    read [arr[0]] before the loop, so a call with [n = 0] or with an empty
    array has no result; a negative [n] skips the loop and gives an average
    of 0 with [arr[0]] as minimum and maximum. *)
Theorem stats_without_values arr n :
  (n = 0 -> Sync.stats arr n = None) /\
  (arr = [] -> Sync.stats arr n = None) /\
  (n < 0 -> forall a0 rest, arr = a0 :: rest -> Sync.stats arr n = Some (0, a0, a0)).
Proof.
  split; [|split].
  - intros ->. unfold Sync.stats. destruct (arr !! 0%nat); [|done]. done.
  - by intros ->.
  - intros Hn a0 rest ->. unfold Sync.stats.
    change ((a0 :: rest) !! 0%nat) with (Some a0). cbn [mbind option_bind].
    replace (Z.to_nat n) with 0%nat by lia. cbn [Sync.stats_loop mbind option_bind].
    replace (n =? 0) with false by lia. by rewrite Z.quot_0_l by lia.
Qed.

Lemma stats_without_values_witness :
  Sync.stats [5; 6] 0 = None /\ Sync.stats [] 2 = None /\
  Sync.stats [5; 6] (-1) = Some (0, 5, 5).
Proof.
  destruct (stats_without_values [5; 6] 0) as (H1 & _ & _).
  destruct (stats_without_values [] 2) as (_ & H2 & _).
  destruct (stats_without_values [5; 6] (-1)) as (_ & _ & H3).
  split; [by apply H1|]. split; [by apply H2|]. apply (H3 ltac:(lia) 5 [6]). reflexivity.
Defined.
(* ================================================================== *)
(** * Synchronised transactions *)

Section SyncProofs.
Context {F : Type} (fsub : F -> F -> F) (bal : F) (txs : list (Sync.Transaction F)).

(** The table of [main]: transaction [i] (from 0) has id [i + 1], and there
    are [N_TX] of them. *)
Hypothesis ids_ok : forall (i : nat) t, txs !! i = Some t -> Sync.tx_id t = Z.of_nat i + 1.
Hypothesis txs_len : Z.of_nat (length txs) = Sync.N_TX.

Lemma holders_insert (f : Sync.Thread F -> bool) (l : list (Sync.Thread F)) (i : nat) th th' :
  l !! i = Some th ->
  (Sync.holders f (<[i := th']> l) + (if f th then 1 else 0)
   = Sync.holders f l + (if f th' then 1 else 0))%nat.
Proof.
  intros Hi. unfold Sync.holders.
  rewrite <- (take_drop_middle l i th Hi) at 2.
  rewrite insert_take_drop by (by eapply lookup_lt_Some).
  rewrite !filter_app, !filter_cons, !length_app.
  destruct (decide (f th = true)) as [->|H1]; destruct (decide (f th' = true)) as [->|H2];
    simpl; try (apply not_true_is_false in H1; rewrite H1);
    try (apply not_true_is_false in H2; rewrite H2); lia.
Qed.

Lemma holders_one (f : Sync.Thread F -> bool) (l : list (Sync.Thread F)) (i : nat) th :
  l !! i = Some th -> f th = true -> (1 <= Sync.holders f l)%nat.
Proof.
  intros Hi Hf. unfold Sync.holders.
  rewrite <- (take_drop_middle l i th Hi), filter_app, filter_cons, length_app.
  rewrite decide_True by done. simpl. lia.
Qed.

Lemma holders_two (f : Sync.Thread F -> bool) (l : list (Sync.Thread F)) : forall (i j : nat) a b,
  i <> j -> l !! i = Some a -> l !! j = Some b -> f a = true -> f b = true ->
  (2 <= Sync.holders f l)%nat.
Proof.
  induction l as [|x l IH]; intros i j a b Hne Hi Hj Ha Hb; [done|].
  unfold Sync.holders in *. rewrite filter_cons.
  destruct i as [|i], j as [|j]; simpl in *; try done.
  - injection Hi as ->. rewrite decide_True by done. simpl.
    pose proof (holders_one f l j b Hj Hb). unfold Sync.holders in *. lia.
  - injection Hj as ->. rewrite decide_True by done. simpl.
    pose proof (holders_one f l i a Hi Ha). unfold Sync.holders in *. lia.
  - assert (2 <= length (filter (fun th => f th = true) l))%nat
      by (apply (IH i j a b); auto).
    destruct (decide (f x = true)); simpl; lia.
Qed.

Lemma holders_exists (f : Sync.Thread F -> bool) l :
  (1 <= Sync.holders f l)%nat -> exists i th, l !! i = Some th /\ f th = true.
Proof.
  unfold Sync.holders. intros H.
  destruct (filter (fun th => f th = true) l) as [|th r] eqn:E; [simpl in H; lia|].
  assert (th ∈ filter (fun th => f th = true) l) as Hin by (rewrite E; apply list_elem_of_here).
  apply list_elem_of_filter in Hin as [Hf Hin].
  apply list_elem_of_lookup in Hin as [i Hi]. eauto.
Qed.

Lemma to_apply_insert_same (l : list (Sync.Thread F)) (i : nat) (th th' : Sync.Thread F) :
  l !! i = Some th -> Sync.unwritten th' = Sync.unwritten th ->
  Sync.amount (Sync.tx th') = Sync.amount (Sync.tx th) ->
  Sync.to_apply (<[i := th']> l) = Sync.to_apply l.
Proof.
  intros Hi Hu Ha. unfold Sync.to_apply.
  rewrite <- (take_drop_middle l i th Hi) at 2.
  rewrite insert_take_drop by (by eapply lookup_lt_Some).
  rewrite !filter_app, !filter_cons, Hu.
  destruct (decide (Sync.unwritten th = true)); [|done].
  by rewrite !fmap_app, !fmap_cons, Ha.
Qed.

Lemma to_apply_insert_written (l : list (Sync.Thread F)) (i : nat) (th th' : Sync.Thread F) :
  l !! i = Some th -> Sync.unwritten th = true -> Sync.unwritten th' = false ->
  Sync.to_apply l ≡ₚ Sync.amount (Sync.tx th) :: Sync.to_apply (<[i := th']> l).
Proof.
  intros Hi Hu Hu'. unfold Sync.to_apply.
  rewrite <- (take_drop_middle l i th Hi) at 1.
  rewrite insert_take_drop by (by eapply lookup_lt_Some).
  rewrite !filter_app, !filter_cons, Hu, Hu'.
  rewrite decide_True by done. rewrite decide_False by done.
  rewrite !fmap_app, fmap_cons. by rewrite Permutation_middle.
Qed.

Lemma tx_insert (l : list (Sync.Thread F)) (i : nat) (th th' : Sync.Thread F) :
  l !! i = Some th -> Sync.tx th' = Sync.tx th ->
  Sync.tx <$> <[i := th']> l = Sync.tx <$> l.
Proof.
  intros Hi Ht. rewrite list_fmap_insert, Ht.
  apply list_insert_id. by rewrite list_lookup_fmap, Hi.
Qed.

(** ** The invariant *)

Lemma to_apply_init (l : list (Sync.Transaction F)) :
  Sync.to_apply (Sync.new_thread bal <$> l) = Sync.amount <$> l.
Proof.
  unfold Sync.to_apply. induction l as [|t l IH]; [done|].
  rewrite fmap_cons, filter_cons. rewrite decide_True by done.
  rewrite !fmap_cons. simpl. f_equal. exact IH.
Qed.

Lemma holders_init (f : Sync.Thread F -> bool) (l : list (Sync.Transaction F)) :
  f (Sync.new_thread bal (Sync.mkTransaction 0 bal)) = false ->
  (forall t t', f (Sync.new_thread bal t) = f (Sync.new_thread bal t')) ->
  Sync.holders f (Sync.new_thread bal <$> l) = 0%nat.
Proof.
  intros H0 Hsame. unfold Sync.holders. induction l as [|t l IH]; [done|].
  rewrite fmap_cons, filter_cons.
  rewrite decide_False; [done|]. rewrite (Hsame t (Sync.mkTransaction 0 bal)), H0. done.
Qed.

Lemma SInv_init : Sync.SInv fsub bal txs (Sync.init bal txs).
Proof.
  constructor; simpl.
  - rewrite <- list_fmap_compose. by rewrite list_fmap_id.
  - by apply holders_init.
  - by apply holders_init.
  - done.
  - by rewrite to_apply_init.
  - intros i th Hi. apply list_lookup_fmap_Some in Hi as (t & -> & _). done.
  - reflexivity.
  - intros i th Hi. apply list_lookup_fmap_Some in Hi as (t & -> & _). done.
Qed.

Lemma threads_tx s i th :
  Sync.SInv fsub bal txs s -> Sync.threads s !! i = Some th ->
  txs !! i = Some (Sync.tx th) /\ Sync.tx_id (Sync.tx th) - 1 = Z.of_nat i /\
  (i < length (Sync.metrics s))%nat.
Proof.
  intros [si_txs0 _ _ _ _ _ si_mlen0 _] Hi.
  assert (txs !! i = Some (Sync.tx th)) as Ht.
  { rewrite <- si_txs0, list_lookup_fmap, Hi. done. }
  split; [done|]. rewrite (ids_ok i _ Ht).
  pose proof (lookup_lt_Some _ _ _ Ht). unfold Sync.N_TX in *. split; lia.
Qed.

Lemma step_inv i now s s' :
  Sync.step fsub i now s = Sync.Next s' ->
  exists th, Sync.threads s !! i = Some th.
Proof. unfold Sync.step. destruct (Sync.threads s !! i); [eauto|done]. Qed.

Ltac sync_inv H :=
  repeat match type of H with
         | (if ?b then _ else _) = _ => destruct b eqn:?
         | match ?x with _ => _ end = _ => destruct x eqn:?
         | Sync.Next _ = Sync.Next _ => injection H as <-
         | _ => discriminate H
         end.

Ltac sync_holders Hi :=
  match goal with
  | |- Sync.holders ?f (<[_ := ?th']> _) = _ =>
      let H := fresh in
      pose proof (holders_insert f _ _ _ th' Hi) as H; simpl in H
  end.

Lemma SInv_step i now s s' :
  Sync.SInv fsub bal txs s -> Sync.step fsub i now s = Sync.Next s' -> Sync.SInv fsub bal txs s'.
Proof.
  intros Hinv Hstep.
  destruct (step_inv i now s s' Hstep) as [th Hi].
  destruct (threads_tx s i th Hinv Hi) as (Htx & Hidx & Hlt).
  pose proof (holders_one Sync.in_cs _ _ _ Hi) as Hcs1.
  pose proof (holders_one Sync.in_print _ _ _ Hi) as Hpr1.
  assert (forall j thj, j <> i -> Sync.threads s !! j = Some thj ->
            Sync.in_cs th = true -> Sync.in_cs thj = false) as Hexcl.
  { intros j thj Hne Hj Hin. destruct (Sync.in_cs thj) eqn:E; [|done].
    pose proof (holders_two Sync.in_cs _ j i thj th Hne Hj Hi E Hin) as H2.
    destruct Hinv as [_ si_lock0 _ _ _ _ _ _]. rewrite si_lock0 in H2. destruct (Sync.balance_lock s); lia. }
  destruct Hinv as [si_txs0 si_lock0 si_plock0 si_bal0 si_perm0 si_local0 si_mlen0 si_mrec0].
  pose proof (si_local0 i th Hi) as Hloc. pose proof (si_mrec0 i th Hi) as Hrec.
  unfold Sync.step in Hstep. rewrite Hi in Hstep.
  destruct s as [b bl pl ths ms pr ap]. simpl in *.
  destruct th as [p t st ws we css cse en bf af]. simpl in *.
  destruct p; simpl in *; sync_inv Hstep; unfold Sync.set_thread, Sync.at_pc; simpl;
    (constructor; simpl;
     [ by rewrite (tx_insert _ _ _ _ Hi)
     | sync_holders Hi; try lia
     | sync_holders Hi; try lia
     | try done
     | try (by rewrite (to_apply_insert_same _ _ _ _ Hi))
     | intros j thj Hj; destruct (decide (j = i)) as [->|Hne];
       [ rewrite list_lookup_insert_eq in Hj by (by eapply lookup_lt_Some);
         injection Hj as <-; simpl; try done
       | rewrite list_lookup_insert_ne in Hj by done;
         try (by apply (si_local0 j thj Hj)) ]
     | by rewrite ?length_insert
     | intros j thj Hj; destruct (decide (j = i)) as [->|Hne];
       [ rewrite list_lookup_insert_eq in Hj by (by eapply lookup_lt_Some);
         injection Hj as <-; simpl; try done
       | rewrite list_lookup_insert_ne in Hj by done;
         try (by apply (si_mrec0 j thj Hj)) ] ]).
  all: try (specialize (Hcs1 eq_refl); destruct bl; simpl in *; lia).
  all: try (specialize (Hpr1 eq_refl); destruct pl; simpl in *; lia).
  - congruence.
  - rewrite fold_left_app. simpl. congruence.
  - rewrite <- si_perm0, <- app_assoc. apply Permutation_app_head. simpl.
    symmetry. by apply (to_apply_insert_written _ _ _ _ Hi).
  - pose proof (Hexcl j thj Hne Hj eq_refl) as Hout.
    unfold Sync.in_cs in Hout. destruct (Sync.pc thj); done.
  - rewrite Hidx, Nat2Z.id. by rewrite list_lookup_insert_eq.
  - rewrite Hidx, Nat2Z.id. rewrite list_lookup_insert_ne by done.
    exact (si_mrec0 j thj Hj).
Qed.



Lemma SInv_reachable s :
  Sync.reachable fsub bal txs s -> Sync.SInv fsub bal txs s.
Proof.
  induction 1 as [|s i now s' _ IH Hstep]; [apply SInv_init|].
  exact (SInv_step _ _ _ _ IH Hstep).
Qed.

Lemma sync_run_reachable sched : forall s s',
  Sync.reachable fsub bal txs s -> Sync.run fsub sched s = Some s' ->
  Sync.reachable fsub bal txs s'.
Proof.
  induction sched as [|[i now] rest IH]; intros s s' Hr Hrun; simpl in Hrun.
  - by injection Hrun as <-.
  - destruct (Sync.step fsub i now s) as [s1| | |] eqn:E; try done.
    apply (IH s1); [by eapply Sync.reach_step|done].
Qed.

Lemma all_done_Forall (l : list (Sync.Thread F)) :
  forallb (fun th => match Sync.pc th with Sync.TDone => true | _ => false end) l = true
  <-> Forall (fun th => Sync.pc th = Sync.TDone) l.
Proof.
  induction l as [|th l IH]; simpl.
  - split; [by constructor|done].
  - rewrite andb_true_iff, IH, Forall_cons.
    destruct (Sync.pc th); split; intros [H1 H2]; done.
Qed.

Lemma done_to_apply (l : list (Sync.Thread F)) :
  Forall (fun th => Sync.pc th = Sync.TDone) l -> Sync.to_apply l = [].
Proof.
  unfold Sync.to_apply. induction 1 as [|th l Hth _ IH]; [done|].
  rewrite filter_cons. rewrite decide_False; [done|].
  unfold Sync.unwritten. by rewrite Hth.
Qed.

(** ** Enabledness and the measure *)

Lemma step_enabled s i th now :
  Sync.SInv fsub bal txs s -> Sync.threads s !! i = Some th ->
  Sync.pc th <> Sync.TDone ->
  (Sync.pc th = Sync.TLock -> Sync.balance_lock s = false) ->
  (Sync.pc th = Sync.TPrintLock -> Sync.print_lock s = false) ->
  exists s', Sync.step fsub i now s = Sync.Next s'.
Proof.
  intros Hinv Hi Hnd Hl Hp.
  destruct (threads_tx s i th Hinv Hi) as (_ & Hidx & Hlt).
  unfold Sync.step. rewrite Hi.
  destruct (Sync.pc th) eqn:Epc; try (eexists; reflexivity); try done.
  - rewrite Hl by done. eexists; reflexivity.
  - rewrite Hidx.
    replace (0 <=? Z.of_nat i) with true by lia.
    replace (Z.of_nat i <? Z.of_nat (length (Sync.metrics s))) with true by lia.
    eexists; reflexivity.
  - rewrite Hp by done. eexists; reflexivity.
  - rewrite Hidx, Nat2Z.id.
    destruct (lookup_lt_is_Some_2 (Sync.metrics s) i Hlt) as [m Hm]. rewrite Hm.
    eexists; reflexivity.
Qed.

Lemma not_all_done (l : list (Sync.Thread F)) :
  forallb (fun th => match Sync.pc th with Sync.TDone => true | _ => false end) l = false ->
  exists (i : nat) th, l !! i = Some th /\ Sync.pc th <> Sync.TDone.
Proof.
  induction l as [|th l IH]; simpl; [done|]. intros H.
  apply andb_false_iff in H as [H|H].
  - exists 0%nat, th. split; [done|]. intros E. by rewrite E in H.
  - destruct (IH H) as (i & th' & Hi & Hn). by exists (S i), th'.
Qed.

Lemma can_move s :
  Sync.SInv fsub bal txs s -> Sync.all_done s = false ->
  exists i, forall now, exists s', Sync.step fsub i now s = Sync.Next s'.
Proof.
  intros Hinv Hnd.
  pose proof Hinv as [_ Hlock Hplock _ _ _ _ _].
  destruct (Sync.balance_lock s) eqn:Ebl.
  - destruct (holders_exists Sync.in_cs (Sync.threads s)) as (i & th & Hi & Hin); [lia|].
    exists i. intros now. apply (step_enabled s i th now Hinv Hi);
      unfold Sync.in_cs in Hin; destruct (Sync.pc th); done.
  - destruct (Sync.print_lock s) eqn:Epl.
    + destruct (holders_exists Sync.in_print (Sync.threads s)) as (i & th & Hi & Hin); [lia|].
      exists i. intros now. apply (step_enabled s i th now Hinv Hi);
        unfold Sync.in_print in Hin; destruct (Sync.pc th); done.
    + destruct (not_all_done _ Hnd) as (i & th & Hi & Hn).
      exists i. intros now. by apply (step_enabled s i th now Hinv Hi).
Qed.

Lemma todo_insert (l : list (Sync.Thread F)) : forall (i : nat) th th',
  l !! i = Some th ->
  foldr (fun th acc => Sync.t_todo th + acc) 0 (<[i := th']> l)
  = foldr (fun th acc => Sync.t_todo th + acc) 0 l - Sync.t_todo th + Sync.t_todo th'.
Proof.
  induction l as [|x l IH]; intros [|i] th th' Hi; simpl in *; try done.
  - injection Hi as ->. lia.
  - rewrite (IH i th th' Hi). lia.
Qed.

Lemma sync_todo_nonneg (l : list (Sync.Thread F)) :
  0 <= foldr (fun th acc => Sync.t_todo th + acc) 0 l.
Proof.
  induction l as [|x l IH]; simpl; [lia|].
  assert (0 <= Sync.t_todo x) by (unfold Sync.t_todo; destruct (Sync.pc x); lia). lia.
Qed.

Lemma todo_zero (l : list (Sync.Thread F)) :
  foldr (fun th acc => Sync.t_todo th + acc) 0 l = 0
  <-> Forall (fun th => Sync.pc th = Sync.TDone) l.
Proof.
  induction l as [|x l IH]; simpl.
  - split; [by constructor|done].
  - rewrite Forall_cons, <- IH. pose proof (sync_todo_nonneg l) as Hl.
    assert (0 <= Sync.t_todo x) as Hx
      by (unfold Sync.t_todo; destruct (Sync.pc x); lia).
    assert (Sync.t_todo x = 0 <-> Sync.pc x = Sync.TDone) as Hz
      by (unfold Sync.t_todo; destruct (Sync.pc x); split; intros; (lia || done)).
    rewrite <- Hz. lia.
Qed.

Lemma step_todo i now s s' :
  Sync.step fsub i now s = Sync.Next s' -> Sync.total_todo s' = Sync.total_todo s - 1.
Proof.
  intros Hstep. destruct (step_inv i now s s' Hstep) as [th Hi].
  unfold Sync.step in Hstep. rewrite Hi in Hstep. unfold Sync.total_todo.
  destruct s as [b bl pl ths ms pr ap]. destruct th as [p t st ws we css cse en bf af].
  simpl in *.
  destruct p; sync_inv Hstep; unfold Sync.set_thread, Sync.at_pc; simpl;
    rewrite (todo_insert _ _ _ _ Hi); unfold Sync.t_todo; simpl; lia.
Qed.

Lemma run_todo sched : forall s s',
  Sync.run fsub sched s = Some s' ->
  Z.of_nat (length sched) + Sync.total_todo s' = Sync.total_todo s.
Proof.
  induction sched as [|[i now] rest IH]; intros s s' Hrun; simpl in Hrun.
  - injection Hrun as <-. simpl. lia.
  - destruct (Sync.step fsub i now s) as [s1| | |] eqn:E; try done.
    pose proof (IH _ _ Hrun) as H. apply step_todo in E.
    rewrite length_cons. lia.
Qed.

Lemma sync_todo_init : Sync.total_todo (Sync.init bal txs) = 16 * Sync.N_TX.
Proof.
  rewrite <- txs_len. unfold Sync.total_todo. simpl. clear ids_ok txs_len.
  induction txs as [|t l IH]; [done|].
  rewrite fmap_cons, length_cons. simpl foldr. rewrite IH.
  unfold Sync.t_todo. simpl. lia.
Qed.

Lemma run_to_completion : forall (n : nat) s,
  Sync.reachable fsub bal txs s -> Sync.total_todo s = Z.of_nat n ->
  exists sched s', Sync.run fsub sched s = Some s' /\ Sync.all_done s' = true /\
                   length sched = n.
Proof.
  induction n as [|n IH]; intros s Hr Hn.
  - exists [], s. split; [done|]. split; [|done].
    unfold Sync.all_done. apply all_done_Forall. by apply todo_zero.
  - assert (Sync.all_done s = false) as Hnd.
    { destruct (Sync.all_done s) eqn:E; [|done].
      unfold Sync.all_done in E. apply all_done_Forall, todo_zero in E.
      unfold Sync.total_todo in Hn. lia. }
    destruct (can_move s (SInv_reachable s Hr) Hnd) as [i Hmove].
    destruct (Hmove 0) as [s1 Hs1].
    destruct (IH s1) as (sched & s' & Hrun & Hd & Hlen).
    + by eapply Sync.reach_step.
    + rewrite (step_todo _ _ _ _ Hs1). lia.
    + exists ((i, 0) :: sched), s'. simpl. rewrite Hs1. by rewrite Hlen.
Qed.

(** ** Extras on the threads *)

(** X20 (IPC_LINUX.c, [process_transaction] and [main] of the synchronised
    program): no deduction is lost.  When every thread has returned, the
    amounts written to the balance are the amounts of the table, each once,
    in the order the threads took the lock, and the balance is the initial
    one with these amounts subtracted in that order. *)
Theorem no_deduction_is_lost s :
  Sync.reachable fsub bal txs s -> Sync.all_done s = true ->
  Sync.applied s ≡ₚ Sync.amount <$> txs /\
  Sync.account_balance s = fold_left fsub (Sync.applied s) bal.
Proof.
  intros Hr Hd. destruct (SInv_reachable s Hr) as [_ _ _ Hbal Hperm _ _ _].
  apply all_done_Forall in Hd. rewrite (done_to_apply _ Hd), app_nil_r in Hperm. done.
Qed.

(** X21 ([process_transaction], the two mutexes): at most one thread is
    between [pthread_mutex_lock(&balance_lock)] and its unlock, and then the
    lock is held; likewise for [print_lock] and the block of [printf]s. *)
Theorem one_thread_at_a_time s (i j : nat) a b :
  Sync.reachable fsub bal txs s -> i <> j ->
  Sync.threads s !! i = Some a -> Sync.threads s !! j = Some b ->
  (Sync.in_cs a = true -> Sync.balance_lock s = true /\ Sync.in_cs b = false) /\
  (Sync.in_print a = true -> Sync.print_lock s = true /\ Sync.in_print b = false).
Proof.
  intros Hr Hne Hi Hj. destruct (SInv_reachable s Hr) as [_ Hlock Hplock _ _ _ _ _].
  split; intros Ha.
  - pose proof (holders_one Sync.in_cs _ _ _ Hi Ha) as H1.
    split; [destruct (Sync.balance_lock s); [done|lia]|].
    destruct (Sync.in_cs b) eqn:Eb; [|done].
    pose proof (holders_two Sync.in_cs _ i j a b Hne Hi Hj Ha Eb).
    destruct (Sync.balance_lock s); lia.
  - pose proof (holders_one Sync.in_print _ _ _ Hi Ha) as H1.
    split; [destruct (Sync.print_lock s); [done|lia]|].
    destruct (Sync.in_print b) eqn:Eb; [|done].
    pose proof (holders_two Sync.in_print _ i j a b Hne Hi Hj Ha Eb).
    destruct (Sync.print_lock s); lia.
Qed.

(** X22 ([process_transaction], lines 518-524): the read, the [usleep] and
    the write are atomic.  While a thread sleeps or computes, the value it
    read is still the balance, and what it is about to write is the current
    balance less its own amount. *)
Theorem balance_read_stays_current s (i : nat) th :
  Sync.reachable fsub bal txs s -> Sync.threads s !! i = Some th ->
  (Sync.pc th = Sync.TSleep \/ Sync.pc th = Sync.TCompute ->
   Sync.before th = Sync.account_balance s) /\
  (Sync.pc th = Sync.TWrite ->
   Sync.after th = fsub (Sync.account_balance s) (Sync.amount (Sync.tx th))).
Proof.
  intros Hr Hi. destruct (SInv_reachable s Hr) as [_ _ _ _ _ Hlocal _ _].
  specialize (Hlocal i th Hi).
  split; [intros [E|E]|intros E]; by rewrite E in Hlocal.
Qed.

(** X23 ([process_transaction], [metrics[idx]] with [idx = tx_id - 1]): no
    statement of any thread goes outside [metrics]: whatever thread is
    chosen, it moves, waits for a mutex or has returned. *)
Theorem threads_never_fault s i now :
  Sync.reachable fsub bal txs s -> Sync.step fsub i now s <> Sync.Fault.
Proof.
  intros Hr. pose proof (SInv_reachable s Hr) as Hinv.
  destruct (Sync.threads s !! i) as [th|] eqn:Hi;
    [|by unfold Sync.step; rewrite Hi].
  destruct (threads_tx s i th Hinv Hi) as (_ & Hidx & Hlt).
  unfold Sync.step. rewrite Hi.
  destruct (Sync.pc th); try done.
  - by destruct (Sync.balance_lock s).
  - rewrite Hidx.
    replace (0 <=? Z.of_nat i) with true by lia.
    replace (Z.of_nat i <? Z.of_nat (length (Sync.metrics s))) with true by lia.
    done.
  - by destruct (Sync.print_lock s).
  - rewrite Hidx, Nat2Z.id.
    by destruct (lookup_lt_is_Some_2 (Sync.metrics s) i Hlt) as [m ->].
Qed.

(** X24 ([process_transaction] and the joins of [main]): the threads cannot
    get stuck.  From every state they can reach, some schedule lets every
    thread return, in exactly as many statements as are left. *)
Theorem threads_can_always_finish s :
  Sync.reachable fsub bal txs s ->
  exists sched s', Sync.run fsub sched s = Some s' /\ Sync.all_done s' = true /\
                   Z.of_nat (length sched) = Sync.total_todo s.
Proof.
  intros Hr.
  destruct (run_to_completion (Z.to_nat (Sync.total_todo s)) s Hr) as
    (sched & s' & Hrun & Hd & Hlen).
  - pose proof (sync_todo_nonneg (Sync.threads s)). unfold Sync.total_todo. lia.
  - exists sched, s'. split; [done|]. split; [done|].
    pose proof (sync_todo_nonneg (Sync.threads s)). unfold Sync.total_todo in *. lia.
Qed.

(** X25 ([process_transaction]): every run has at most 16 statements per
    thread, and all threads have returned exactly when that many have
    run. *)
Theorem every_run_is_bounded sched s :
  Sync.run fsub sched (Sync.init bal txs) = Some s ->
  Z.of_nat (length sched) <= 16 * Sync.N_TX /\
  (Sync.all_done s = true <-> Z.of_nat (length sched) = 16 * Sync.N_TX).
Proof.
  intros Hrun. pose proof (run_todo _ _ _ Hrun) as H. rewrite sync_todo_init in H.
  pose proof (sync_todo_nonneg (Sync.threads s)) as H0. unfold Sync.total_todo in *.
  split; [lia|]. unfold Sync.all_done. rewrite all_done_Forall, <- todo_zero. lia.
Qed.

(** ** Durations *)

Lemma timed_later lo last now (th : Sync.Thread F) :
  last <= now -> Sync.timed lo last th -> Sync.timed lo now th.
Proof. unfold Sync.timed. destruct (Sync.pc th); lia. Qed.

Lemma clock_ok_le sched : forall lo hi, Sync.clock_ok lo hi sched = true -> lo <= hi.
Proof.
  induction sched as [|[i now] rest IH]; intros lo hi H; simpl in H; [lia|].
  apply andb_prop in H as [H1 H2]. apply IH in H2. lia.
Qed.

Lemma timed_step lo hi last i now s s' :
  lo <= last -> last <= now -> now <= hi ->
  Forall (Sync.timed lo last) (Sync.threads s) ->
  Forall (Sync.mgood (hi - lo)) (Sync.metrics s) ->
  Sync.step fsub i now s = Sync.Next s' ->
  Forall (Sync.timed lo now) (Sync.threads s') /\
  Forall (Sync.mgood (hi - lo)) (Sync.metrics s').
Proof.
  intros Hlo Hlast Hhi Hth Hms Hstep.
  destruct (step_inv i now s s' Hstep) as [th Hi].
  pose proof (proj1 (Forall_lookup _ _) Hth i th Hi) as Ht.
  assert (Forall (Sync.timed lo now) (Sync.threads s)) as Hth'.
  { eapply Forall_impl; [exact Hth|]. intros x. by apply timed_later. }
  unfold Sync.step in Hstep. rewrite Hi in Hstep.
  destruct s as [b bl pl ths ms pr ap]. destruct th as [p t st ws we css cse en bf af].
  unfold Sync.timed in Ht. simpl in *.
  destruct p; cbn in Ht; sync_inv Hstep; unfold Sync.set_thread, Sync.at_pc; simpl;
    (split; [apply Forall_insert; [done|unfold Sync.timed; simpl; try lia] | try done]).
  apply Forall_insert; [done|]. unfold Sync.mgood. simpl. lia.
Qed.

Lemma timed_run lo hi sched : forall last s s',
  lo <= last -> Sync.clock_ok last hi sched = true ->
  Forall (Sync.timed lo last) (Sync.threads s) ->
  Forall (Sync.mgood (hi - lo)) (Sync.metrics s) ->
  Sync.run fsub sched s = Some s' ->
  Forall (Sync.mgood (hi - lo)) (Sync.metrics s').
Proof.
  induction sched as [|[i now] rest IH]; intros last s s' Hlo Hck Hth Hms Hrun;
    simpl in Hrun, Hck.
  - by injection Hrun as <-.
  - apply andb_prop in Hck as [H1 H2]. pose proof (clock_ok_le _ _ _ H2) as Hhi.
    destruct (Sync.step fsub i now s) as [s1| | |] eqn:E; try done.
    destruct (timed_step lo hi last i now s s1) as [Hth1 Hms1]; try done; try lia.
    apply (IH now s1 s'); try done. lia.
Qed.

Lemma run_metrics_good sched lo hi s :
  Sync.clock_ok lo hi sched = true ->
  Sync.run fsub sched (Sync.init bal txs) = Some s ->
  Forall (Sync.mgood (hi - lo)) (Sync.metrics s).
Proof.
  intros Hck Hrun. pose proof (clock_ok_le _ _ _ Hck) as Hle.
  apply (timed_run lo hi sched lo (Sync.init bal txs) s); try done.
  - unfold Sync.init. cbn [Sync.threads]. apply Forall_fmap, Forall_true. intros t. exact I.
  - unfold Sync.init. cbn [Sync.metrics]. apply Forall_replicate.
    unfold Sync.mgood. simpl. lia.
Qed.

Lemma column_stats (f : Sync.Metrics -> Z) ms d :
  length ms = Z.to_nat Sync.N_TX -> Forall (fun m => 0 <= f m <= d) ms ->
  Sync.N_TX * d <= LLONG_MAX ->
  exists r, Sync.stats (f <$> ms) Sync.N_TX = Some r /\ Sync.in_order d r.
Proof.
  intros Hlen Hms Hcap.
  destruct (stats_spec (f <$> ms) Sync.N_TX d) as (avg & mn & mx & Hs & Ha & Hmn & Hmx & _).
  - done.
  - rewrite length_fmap, Hlen. unfold Sync.N_TX. lia.
  - apply Forall_fmap. eapply Forall_impl; [exact Hms|]. simpl. intros m Hm. lia.
  - done.
  - exists (avg, mn, mx). split; [done|]. unfold Sync.in_order.
    assert (forall x, x ∈ take (Z.to_nat Sync.N_TX) (f <$> ms) -> 0 <= x <= d) as Hin.
    { intros x Hx. apply elem_of_take in Hx as (k & Hk & _).
      apply list_lookup_fmap_Some in Hk as (m & -> & Hm).
      exact (proj1 (Forall_lookup _ _) Hms k m Hm). }
    apply Hin in Hmn, Hmx. lia.
Qed.


(** X27 ([main] of the synchronised program, lines 592-604, with [stats]):
    after the joins, with a clock that never goes back and a run short
    enough for three durations to be added in [long long], the three calls
    of [stats] return, and in each line of the summary
    [0 <= min <= avg <= max <= length of the run]. *)
Theorem summary_is_in_order sched lo hi s :
  Sync.clock_ok lo hi sched = true ->
  Sync.N_TX * (hi - lo) <= LLONG_MAX ->
  Sync.run fsub sched (Sync.init bal txs) = Some s ->
  Sync.all_done s = true ->
  exists lw cs tt, Sync.summary s = Some (lw, cs, tt) /\
    Sync.in_order (hi - lo) lw /\ Sync.in_order (hi - lo) cs /\
    Sync.in_order (hi - lo) tt.
Proof.
  intros Hck Hcap Hrun _.
  pose proof (run_metrics_good sched lo hi s Hck Hrun) as Hms.
  assert (length (Sync.metrics s) = Z.to_nat Sync.N_TX) as Hlen.
  { apply (Sync.si_mlen fsub bal txs). apply SInv_reachable.
    eapply sync_run_reachable; [apply Sync.reach_init|exact Hrun]. }
  destruct (column_stats Sync.lock_wait_us (Sync.metrics s) (hi - lo) Hlen)
    as (lw & Hlw & Olw); [|done|].
  { eapply Forall_impl; [exact Hms|]. unfold Sync.mgood. intros m Hm. lia. }
  destruct (column_stats Sync.cs_time_us (Sync.metrics s) (hi - lo) Hlen)
    as (cs & Hcs & Ocs); [|done|].
  { eapply Forall_impl; [exact Hms|]. unfold Sync.mgood. intros m Hm. lia. }
  destruct (column_stats Sync.total_time_us (Sync.metrics s) (hi - lo) Hlen)
    as (tt & Htt & Ott); [|done|].
  { eapply Forall_impl; [exact Hms|]. unfold Sync.mgood. intros m Hm. lia. }
  exists lw, cs, tt. unfold Sync.summary. rewrite Hlw, Hcs, Htt. done.
Qed.

(** ** The output *)

Lemma to_print_insert_same (l : list (Sync.Thread F)) (i : nat) (th th' : Sync.Thread F) :
  l !! i = Some th -> Sync.unprinted th' = Sync.unprinted th ->
  Sync.tx th' = Sync.tx th ->
  Sync.to_print (<[i := th']> l) = Sync.to_print l.
Proof.
  intros Hi Hu Ha. unfold Sync.to_print.
  rewrite <- (take_drop_middle l i th Hi) at 2.
  rewrite insert_take_drop by (by eapply lookup_lt_Some).
  rewrite !filter_app, !filter_cons, Hu.
  destruct (decide (Sync.unprinted th = true)); [|done].
  by rewrite !fmap_app, !fmap_cons, Ha.
Qed.

Lemma to_print_insert_printed (l : list (Sync.Thread F)) (i : nat) (th th' : Sync.Thread F) :
  l !! i = Some th -> Sync.unprinted th = true -> Sync.unprinted th' = false ->
  Sync.to_print l ≡ₚ Sync.tx_id (Sync.tx th) :: Sync.to_print (<[i := th']> l).
Proof.
  intros Hi Hu Hu'. unfold Sync.to_print.
  rewrite <- (take_drop_middle l i th Hi) at 1.
  rewrite insert_take_drop by (by eapply lookup_lt_Some).
  rewrite !filter_app, !filter_cons, Hu, Hu'.
  rewrite decide_True by done. rewrite decide_False by done.
  rewrite !fmap_app, fmap_cons. by rewrite Permutation_middle.
Qed.

Lemma to_print_init (l : list (Sync.Transaction F)) :
  Sync.to_print (Sync.new_thread bal <$> l) = Sync.tx_id <$> l.
Proof.
  unfold Sync.to_print. induction l as [|t l IH]; [done|].
  rewrite fmap_cons, filter_cons. rewrite decide_True by done.
  rewrite !fmap_cons. simpl. f_equal. exact IH.
Qed.

Lemma done_to_print (l : list (Sync.Thread F)) :
  Forall (fun th => Sync.pc th = Sync.TDone) l -> Sync.to_print l = [].
Proof.
  unfold Sync.to_print. induction 1 as [|th l Hth _ IH]; [done|].
  rewrite filter_cons. rewrite decide_False; [done|].
  unfold Sync.unprinted. by rewrite Hth.
Qed.

Lemma PInv_init : Sync.PInv fsub txs (Sync.init bal txs).
Proof.
  constructor; simpl.
  - rewrite <- list_fmap_compose. by rewrite list_fmap_id.
  - by rewrite to_print_init.
  - constructor.
  - apply Forall_fmap, Forall_true. intros t. done.
Qed.

Lemma PInv_step i now s s' :
  Sync.PInv fsub txs s -> Sync.step fsub i now s = Sync.Next s' -> Sync.PInv fsub txs s'.
Proof.
  intros [Htxs Hids Hblocks Hthreads] Hstep.
  destruct (step_inv i now s s' Hstep) as [th Hi].
  pose proof (proj1 (Forall_lookup _ _) Hthreads i th Hi) as Ht.
  unfold Sync.step in Hstep. rewrite Hi in Hstep.
  destruct s as [b bl pl ths ms pr ap]. destruct th as [p t st ws we css cse en bf af].
  simpl in *.
  destruct p; sync_inv Hstep; unfold Sync.set_thread, Sync.at_pc; simpl;
    (constructor; simpl;
     [ by rewrite (tx_insert _ _ _ _ Hi)
     | try (by rewrite (to_print_insert_same _ _ _ _ Hi))
     | try done
     | apply Forall_insert; [done|]; simpl; try done; try (intros _; by apply Ht) ]).
  - rewrite fmap_app, <- Hids, <- app_assoc. apply Permutation_app_head. simpl.
    symmetry. by apply (to_print_insert_printed _ _ _ _ Hi).
  - apply Forall_app. split; [done|]. apply Forall_singleton.
    unfold Sync.block_ok. simpl. by apply Ht.
Qed.

Lemma PInv_reachable s : Sync.reachable fsub bal txs s -> Sync.PInv fsub txs s.
Proof.
  induction 1 as [|s i now s' _ IH Hstep]; [apply PInv_init|].
  exact (PInv_step _ _ _ _ IH Hstep).
Qed.

(** X28 ([process_transaction], the block of [printf]s under [print_lock]):
    when every thread has returned, the output has one block per
    transaction of the table, and in every block the balance after is the
    balance before less the amount. *)
Theorem every_transaction_is_printed_once s :
  Sync.reachable fsub bal txs s -> Sync.all_done s = true ->
  Sync.b_id <$> Sync.printed s ≡ₚ Sync.tx_id <$> txs /\
  Forall (Sync.block_ok fsub) (Sync.printed s).
Proof.
  intros Hr Hd. destruct (PInv_reachable s Hr) as [_ Hids Hblocks _].
  apply all_done_Forall in Hd. rewrite (done_to_print _ Hd), app_nil_r in Hids. done.
Qed.

End SyncProofs.

(** ** The table of [main] *)

Lemma txs_Z_ids (i : nat) t :
  Sync.txs_Z !! i = Some t -> Sync.tx_id t = Z.of_nat i + 1.
Proof.
  destruct i as [|[|[|i]]]; simpl; intros H; try done; by injection H as <-.
Qed.

Lemma txs_Z_len : Z.of_nat (length Sync.txs_Z) = Sync.N_TX.
Proof. reflexivity. Qed.

Lemma run_Z_reachable sched s :
  Sync.run Z.sub sched (Sync.init 10000 Sync.txs_Z) = Some s ->
  Sync.reachable Z.sub 10000 Sync.txs_Z s.
Proof. apply sync_run_reachable, Sync.reach_init. Qed.

Lemma no_deduction_is_lost_witness :
  exists s, Sync.run Z.sub Sync.one_by_one (Sync.init 10000 Sync.txs_Z) = Some s /\
            Sync.applied s ≡ₚ [1000; 500; 1200] /\
            Sync.account_balance s = fold_left Z.sub (Sync.applied s) 10000.
Proof.
  eexists. split; [vm_compute; reflexivity|].
  apply (no_deduction_is_lost Z.sub 10000 Sync.txs_Z txs_Z_ids txs_Z_len).
  - apply (run_Z_reachable Sync.one_by_one). vm_compute. reflexivity.
  - vm_compute. reflexivity.
Defined.

Lemma one_thread_at_a_time_witness :
  exists s a b, Sync.run Z.sub Sync.contended (Sync.init 10000 Sync.txs_Z) = Some s /\
    Sync.threads s !! 0%nat = Some a /\ Sync.threads s !! 1%nat = Some b /\
    (Sync.in_cs a = true -> Sync.balance_lock s = true /\ Sync.in_cs b = false) /\
    (Sync.in_print a = true -> Sync.print_lock s = true /\ Sync.in_print b = false).
Proof.
  eexists. eexists. eexists.
  split; [vm_compute; reflexivity|]. split; [vm_compute; reflexivity|].
  split; [vm_compute; reflexivity|].
  apply (one_thread_at_a_time Z.sub 10000 Sync.txs_Z txs_Z_ids txs_Z_len _ 0%nat 1%nat).
  - apply (run_Z_reachable Sync.contended). vm_compute. reflexivity.
  - lia.
  - vm_compute. reflexivity.
  - vm_compute. reflexivity.
Defined.

Lemma balance_read_stays_current_witness :
  exists s th, Sync.run Z.sub Sync.contended (Sync.init 10000 Sync.txs_Z) = Some s /\
    Sync.threads s !! 0%nat = Some th /\ Sync.pc th = Sync.TSleep /\
    Sync.before th = Sync.account_balance s.
Proof.
  eexists. eexists.
  split; [vm_compute; reflexivity|]. split; [vm_compute; reflexivity|].
  split; [reflexivity|].
  refine (proj1 (balance_read_stays_current Z.sub 10000 Sync.txs_Z txs_Z_ids txs_Z_len
                   _ 0%nat _ _ _) _).
  - apply (run_Z_reachable Sync.contended). vm_compute. reflexivity.
  - vm_compute. reflexivity.
  - left. reflexivity.
Defined.

Lemma threads_never_fault_witness :
  exists s, Sync.run Z.sub Sync.contended (Sync.init 10000 Sync.txs_Z) = Some s /\
            Sync.step Z.sub 1 8 s <> Sync.Fault.
Proof.
  eexists. split; [vm_compute; reflexivity|].
  apply (threads_never_fault Z.sub 10000 Sync.txs_Z txs_Z_ids txs_Z_len).
  apply (run_Z_reachable Sync.contended). vm_compute. reflexivity.
Defined.

Lemma threads_can_always_finish_witness :
  exists s, Sync.run Z.sub Sync.contended (Sync.init 10000 Sync.txs_Z) = Some s /\
    exists sched s', Sync.run Z.sub sched s = Some s' /\ Sync.all_done s' = true /\
                     Z.of_nat (length sched) = Sync.total_todo s.
Proof.
  eexists. split; [vm_compute; reflexivity|].
  apply (threads_can_always_finish Z.sub 10000 Sync.txs_Z txs_Z_ids txs_Z_len).
  apply (run_Z_reachable Sync.contended). vm_compute. reflexivity.
Defined.

Lemma every_run_is_bounded_witness :
  exists s, Sync.run Z.sub Sync.contended (Sync.init 10000 Sync.txs_Z) = Some s /\
    Z.of_nat (length Sync.contended) <= 16 * Sync.N_TX /\
    (Sync.all_done s = true <-> Z.of_nat (length Sync.contended) = 16 * Sync.N_TX).
Proof.
  eexists. split; [vm_compute; reflexivity|].
  apply (every_run_is_bounded Z.sub 10000 Sync.txs_Z txs_Z_len).
  vm_compute. reflexivity.
Defined.


Lemma summary_is_in_order_witness :
  exists s, Sync.run Z.sub Sync.one_by_one (Sync.init 10000 Sync.txs_Z) = Some s /\
    exists lw cs tt, Sync.summary s = Some (lw, cs, tt) /\
      Sync.in_order (47 - 0) lw /\ Sync.in_order (47 - 0) cs /\
      Sync.in_order (47 - 0) tt.
Proof.
  eexists. split; [vm_compute; reflexivity|].
  apply (summary_is_in_order Z.sub 10000 Sync.txs_Z txs_Z_ids txs_Z_len
           Sync.one_by_one 0 47).
  - vm_compute. reflexivity.
  - change LLONG_MAX with 9223372036854775807. unfold Sync.N_TX. lia.
  - vm_compute. reflexivity.
  - vm_compute. reflexivity.
Defined.

Lemma every_transaction_is_printed_once_witness :
  exists s, Sync.run Z.sub Sync.one_by_one (Sync.init 10000 Sync.txs_Z) = Some s /\
            Sync.b_id <$> Sync.printed s ≡ₚ [1; 2; 3] /\
            Forall (Sync.block_ok Z.sub) (Sync.printed s).
Proof.
  eexists. split; [vm_compute; reflexivity|].
  apply (every_transaction_is_printed_once Z.sub 10000 Sync.txs_Z).
  - apply (run_Z_reachable Sync.one_by_one). vm_compute. reflexivity.
  - vm_compute. reflexivity.
Defined.
